(** * Connect 4 move-selection engine (prova.py): shallow embedding

    The board is the 7x6 NumPy array of the program, kept as a list of
    columns, each a list of cells from the bottom row up; cells and players
    are integers (0 empty, +1 and -1 the two players).  Code that mutates the
    board in place is written in state-passing style: it takes the board and
    returns the board it leaves behind.  Python exceptions are results of
    their own, distinct from running out of fuel in a loop of the model. *)

From Stdlib Require Import ZArith QArith Lia Lqa.
From stdpp Require Import list.
From Stdlib Require String DecimalString Sorted.
Import String.StringSyntax.
Delimit Scope string_scope with string.

Local Open Scope nat_scope.

(** ** Results of Python code *)

(** Python exceptions; [Dangling] is a read of the node heap of the model at
    an address that was never allocated. *)
Inductive exn : Set :=
| IndexError | StopIteration | ValueError | ZeroDivisionError | AttributeError
| Dangling.

Inductive result (A : Type) : Type :=
| Ok (a : A)
| Raise (e : exn)
| OutOfFuel.

Arguments Ok {A} a.
Arguments Raise {A} e.
Arguments OutOfFuel {A}.

Definition bind {A B} (m : result A) (k : A -> result B) : result B :=
  match m with
  | Ok a => k a
  | Raise e => Raise e
  | OutOfFuel => OutOfFuel
  end.

Notation "'do' x <- m ; k" := (bind m (fun x => k))
  (at level 10, x pattern, m at level 100, k at level 200).

(** ** Constants *)

Definition NUM_COLUMNS : nat := 7.
Definition COLUMN_HEIGHT : nat := 6.
Definition FOUR : nat := 4.
Definition MAX_ROUNDS : nat := NUM_COLUMNS * COLUMN_HEIGHT.
Definition NUM_ITERATIONS : nat := 1000.
Definition MAX_DEPTH : Z := 3.
Definition MC_ITERATIONS : nat := 20.
Definition SEARCH_ORDER : list nat := [3; 2; 4; 1; 5; 0; 6].

(** ** Board model *)

Abbreviation Board := (list (list Z)).

Definition initialize_board : Board :=
  replicate NUM_COLUMNS (replicate COLUMN_HEIGHT 0%Z).

(** The array has shape (NUM_COLUMNS, COLUMN_HEIGHT). *)
Definition shape (b : Board) : bool :=
  (length b =? NUM_COLUMNS) && forallb (fun col => length col =? COLUMN_HEIGHT) b.

(** [board[c, r]].  On an array of the right shape every read of the program
    is in range; the default is never observed under [shape]. *)
Definition cell (b : Board) (c r : nat) : Z :=
  match b !! c with
  | Some col => default 0%Z (col !! r)
  | None => 0%Z
  end.

(** The two player identities. *)
Definition is_player (p : Z) : Prop := p = 1%Z \/ p = (-1)%Z.

(** Gravity: in a column no cell is occupied above an empty one. *)
Fixpoint gravity_col (col : list Z) : bool :=
  match col with
  | [] => true
  | v :: rest =>
      if (v =? 0)%Z then forallb (fun w => (w =? 0)%Z) rest else gravity_col rest
  end.

Definition gravity (b : Board) : bool := forallb gravity_col b.

Definition valid_moves (b : Board) : list nat :=
  filter (fun n => cell b n (COLUMN_HEIGHT - 1) = 0%Z) (seq 0 NUM_COLUMNS).

(** Index of the first empty cell of a column: the [next(...)] of [play]. *)
Fixpoint first_zero (col : list Z) : option nat :=
  match col with
  | [] => None
  | v :: rest => if (v =? 0)%Z then Some 0 else S <$> first_zero rest
  end.

(** Index of the last occupied cell of a column: the [[...][-1]] of
    [take_back]. *)
Fixpoint last_nonzero (col : list Z) : option nat :=
  match col with
  | [] => None
  | v :: rest =>
      match last_nonzero rest with
      | Some i => Some (S i)
      | None => if (v =? 0)%Z then None else Some 0
      end
  end.

Definition play (b : Board) (column : nat) (player : Z) : result Board :=
  match b !! column with
  | None => Raise IndexError
  | Some col =>
      match first_zero col with
      | None => Raise StopIteration
      | Some index => Ok (<[column := <[index := player]> col]> b)
      end
  end.

Definition take_back (b : Board) (column : nat) : result Board :=
  match b !! column with
  | None => Raise IndexError
  | Some col =>
      match last_nonzero col with
      | None => Raise IndexError
      | Some index => Ok (<[column := <[index := 0%Z]> col]> b)
      end
  end.

(** ** Terminal detector *)

Definition four_in_a_row (b : Board) (player : Z) : bool :=
  existsb (fun c =>
    existsb (fun n => forallb (fun r => (cell b c r =? player)%Z) (seq n FOUR))
            (seq 0 (COLUMN_HEIGHT - FOUR + 1)))
    (seq 0 NUM_COLUMNS)
  || existsb (fun r =>
       existsb (fun n => forallb (fun c => (cell b c r =? player)%Z) (seq n FOUR))
               (seq 0 (NUM_COLUMNS - FOUR + 1)))
       (seq 0 COLUMN_HEIGHT)
  || existsb (fun ro =>
       existsb (fun co =>
         forallb (fun i => (cell b (ro + i) (co + i) =? player)%Z) (seq 0 FOUR))
         (seq 0 (COLUMN_HEIGHT - FOUR + 1)))
       (seq 0 (NUM_COLUMNS - FOUR + 1))
  || existsb (fun ro =>
       existsb (fun co =>
         forallb (fun i => (cell b (ro + i) (co + FOUR - 1 - i) =? player)%Z)
                 (seq 0 FOUR))
         (seq 0 (COLUMN_HEIGHT - FOUR + 1)))
       (seq 0 (NUM_COLUMNS - FOUR + 1)).

(** [np.count_nonzero(board)]. *)
Definition count_nonzero (col : list Z) : nat :=
  length (filter (fun v => v <> 0%Z) col).

Definition round_number (b : Board) : nat :=
  sum_list (map count_nonzero b).

(** [None] is Python's [None] (not terminal); [Some 0] is the draw. *)
Definition terminal_state (b : Board) : option Z :=
  if round_number b =? MAX_ROUNDS then Some 0%Z
  else if four_in_a_row b 1 then Some 1%Z
  else if four_in_a_row b (-1) then Some (-1)%Z
  else None.

(** Replays a game from the empty board: the discs are dropped in the given
    columns by +1 and -1 in turn, +1 first. *)
Fixpoint replay (b : Board) (player : Z) (cols : list nat) : result Board :=
  match cols with
  | [] => Ok b
  | c :: rest => do b' <- play b c player; replay b' (- player)%Z rest
  end.

(** ** Random source

    Every [np.random.choice] draws the next number of an explicit source and
    reduces it modulo the length of the sequence; an exhausted source keeps
    answering 0.  Choosing from an empty sequence raises [ValueError]. *)

Abbreviation Rng := (list nat).

Definition draw (rng : Rng) : nat * Rng :=
  match rng with
  | [] => (0, [])
  | n :: rest => (n, rest)
  end.

Definition random_choice (l : list nat) (rng : Rng) : result (nat * Rng) :=
  match l with
  | [] => Raise ValueError
  | d :: _ => let (n, rng') := draw rng in Ok (nth (n mod length l) l d, rng')
  end.

(** ** Monte Carlo evaluator *)

(** The while loop of [_mc].  Next to the winner it returns the calls of
    [play] in order, as (column, player) pairs. *)
Fixpoint _mc_loop (fuel : nat) (b : Board) (p : Z) (rng : Rng)
  (plays : list (nat * Z)) : result (Z * Rng * list (nat * Z)) :=
  match valid_moves b with
  | [] => Ok (0%Z, rng, plays)
  | _ :: _ =>
      match fuel with
      | 0 => OutOfFuel
      | S fuel' =>
          let p := (- p)%Z in
          do (c, rng) <- random_choice (valid_moves b) rng;
          do b <- play b c p;
          if four_in_a_row b p then Ok (p, rng, plays ++ [(c, p)])
          else _mc_loop fuel' b p rng (plays ++ [(c, p)])
      end
  end.

Definition _mc (b : Board) (player : Z) (rng : Rng)
  : result (Z * Rng * list (nat * Z)) :=
  let p := (- player)%Z in
  _mc_loop MAX_ROUNDS b p rng [].

Definition montecarlo_samples : nat := 100.

(** The generator under [Counter]: the outcomes of the playouts, each on a
    copy of the board, and the plays of each playout. *)
Fixpoint montecarlo_runs (n : nat) (b : Board) (player : Z) (rng : Rng)
  : result (list Z * Rng * list (list (nat * Z))) :=
  match n with
  | 0 => Ok ([], rng, [])
  | S n' =>
      do (w, rng, plays) <- _mc b player rng;
      do (ws, rng, logs) <- montecarlo_runs n' b player rng;
      Ok (w :: ws, rng, plays :: logs)
  end.

Definition cnt (x : Z) (ws : list Z) : Z :=
  Z.of_nat (length (filter (fun w => w = x) ws)).

Definition montecarlo (b : Board) (player : Z) (rng : Rng)
  : result (Q * Rng * list (list (nat * Z))) :=
  do (ws, rng, logs) <- montecarlo_runs montecarlo_samples b player rng;
  Ok (Qmake (cnt 1 ws - cnt (-1) ws) (Pos.of_nat montecarlo_samples), rng, logs).

Definition eval_board (b : Board) (player : Z) (rng : Rng) : result (Q * Rng) :=
  if four_in_a_row b 1 then Ok (1%Q, rng)
  else if four_in_a_row b (-1) then Ok ((-1)%Q, rng)
  else do (s, rng, _) <- montecarlo b player rng; Ok (s, rng).

(** ** MCTS engine

    Nodes are objects on a heap: a list of nodes addressed by position, the
    [parent] and [childs] fields holding addresses.  [num_wins] takes half
    steps and is a rational.  The keys of the two [max] calls are
    floating-point numbers; their arithmetic is kept behind an interface and
    every statement below holds for each implementation of it.  The two
    divisions by [num_visits] raise when it is zero. *)

Class Scoring := {
  score : Type;
  (** [>] on keys *)
  score_gt : score -> score -> bool;
  (** [num_wins / num_visits + sqrt 2 * sqrt (log parent_visits / num_visits)] *)
  UCB1_value : Q -> Z -> Z -> score;
  (** [num_wins / num_visits] *)
  rate_value : Q -> Z -> score
}.

(** [max(l, key=...)]: the first element with the greatest key. *)
Fixpoint max_from {SC : Scoring} {A : Type} (key : A -> result score)
  (best : A) (kbest : score) (l : list A) : result A :=
  match l with
  | [] => Ok best
  | x :: rest =>
      do k <- key x;
      if score_gt k kbest then max_from key x k rest
      else max_from key best kbest rest
  end.

Definition py_max {SC : Scoring} {A : Type} (key : A -> result score)
  (l : list A) : result A :=
  match l with
  | [] => Raise ValueError
  | x :: rest => do k <- key x; max_from key x k rest
  end.

(** [list.remove(x)] *)
Fixpoint list_remove (x : nat) (l : list nat) : result (list nat) :=
  match l with
  | [] => Raise ValueError
  | y :: rest =>
      if x =? y then Ok rest
      else do rest' <- list_remove x rest; Ok (y :: rest')
  end.

Module Node.

Record t := mk {
  board : Board;
  player : Z;
  parent : option nat;
  move : option nat;
  num_visits : Z;
  num_wins : Q;
  childs : list nat;
  next_moves : list nat
}.

Definition init (b : Board) (player : Z) (parent move : option nat) : t :=
  mk b player parent move 0 0 [] (valid_moves b).

Definition deref (h : list t) (a : nat) : result t :=
  match h !! a with
  | Some n => Ok n
  | None => Raise Dangling
  end.

Section Methods.
Context {SC : Scoring}.

Definition UCB1 (h : list t) (node : nat) : result score :=
  do n <- deref h node;
  if (num_visits n =? 0)%Z then Raise ZeroDivisionError
  else
    match parent n with
    | None => Raise AttributeError
    | Some pa =>
        do pn <- deref h pa;
        Ok (UCB1_value (num_wins n) (num_visits n) (num_visits pn))
    end.

Definition selection (h : list t) (self : nat) : result nat :=
  do n <- deref h self;
  py_max (UCB1 h) (childs n).

Definition expand (h : list t) (self : nat) (mv : nat) : result (list t * nat) :=
  do n <- deref h self;
  let player := (- player n)%Z in
  do new_board <- play (board n) mv player;
  do rest <- list_remove mv (next_moves n);
  let child := length h in
  let n' := mk (board n) (Node.player n) (parent n) (move n) (num_visits n)
               (num_wins n) (childs n ++ [child]) rest in
  Ok (<[self := n']> h ++ [init new_board player (Some self) (Some mv)], child).

Fixpoint simulate_loop (fuel : nat) (b : Board) (p : Z) (rng : Rng)
  : result (Z * Rng) :=
  match valid_moves b with
  | [] => Ok (0%Z, rng)
  | _ :: _ =>
      match fuel with
      | 0 => OutOfFuel
      | S fuel' =>
          do (mv, rng) <- random_choice (valid_moves b) rng;
          do b <- play b mv p;
          if four_in_a_row b p then Ok (p, rng)
          else simulate_loop fuel' b (- p)%Z rng
      end
  end.

Definition simulate (h : list t) (self : nat) (rng : Rng) : result (Z * Rng) :=
  do n <- deref h self;
  let p := (- player n)%Z in
  simulate_loop MAX_ROUNDS (board n) p rng.

Fixpoint backpropagate_loop (fuel : nat) (h : list t) (node : option nat)
  (winner : Z) : result (list t) :=
  match node with
  | None => Ok h
  | Some a =>
      match fuel with
      | 0 => OutOfFuel
      | S fuel' =>
          do n <- deref h a;
          let wins :=
            if (winner =? 0)%Z then (num_wins n + (1 # 2))%Q
            else if (winner =? player n)%Z then (num_wins n + 1)%Q
            else num_wins n in
          let n' := mk (board n) (player n) (parent n) (move n)
                       (num_visits n + 1)%Z wins (childs n) (next_moves n) in
          backpropagate_loop fuel' (<[a := n']> h) (parent n) winner
      end
  end.

Definition backpropagate (h : list t) (self : nat) (winner : Z)
  : result (list t) :=
  backpropagate_loop (length h) h (Some self) winner.

End Methods.
End Node.

Abbreviation Heap := (list Node.t).

Section MCTS_engine.
Context {SC : Scoring}.

(** The selection loop of an iteration: down to a node that has an untried
    move or no child. *)
Fixpoint descend (fuel : nat) (h : Heap) (node : nat) : result nat :=
  do n <- Node.deref h node;
  if negb (length (Node.childs n) =? 0) && (length (Node.next_moves n) =? 0)
  then
    match fuel with
    | 0 => OutOfFuel
    | S fuel' => do c <- Node.selection h node; descend fuel' h c
    end
  else Ok node.

(** One pass of the [for] loop of [MCTS]. *)
Definition iteration (h : Heap) (root : nat) (rng : Rng) : result (Heap * Rng) :=
  do node <- descend (length h) h root;
  do n <- Node.deref h node;
  do (h, node, rng) <-
    (if 0 <? length (Node.next_moves n) then
       do (mv, rng) <- random_choice (Node.next_moves n) rng;
       do (h, c) <- Node.expand h node mv;
       Ok (h, c, rng)
     else Ok (h, node, rng));
  do n <- Node.deref h node;
  do (winner, rng) <-
    match terminal_state (Node.board n) with
    | Some w => Ok (w, rng)
    | None => Node.simulate h node rng
    end;
  do h <- Node.backpropagate h node winner;
  Ok (h, rng).

Fixpoint iterations (k : nat) (h : Heap) (root : nat) (rng : Rng)
  : result (Heap * Rng) :=
  match k with
  | 0 => Ok (h, rng)
  | S k' => do (h, rng) <- iteration h root rng; iterations k' h root rng
  end.

Definition win_rate (h : Heap) (x : nat) : result score :=
  do n <- Node.deref h x;
  if (Node.num_visits n =? 0)%Z then Raise ZeroDivisionError
  else Ok (rate_value (Node.num_wins n) (Node.num_visits n)).

Definition MCTS (b : Board) (player : Z) (num_iterations : nat) (rng : Rng)
  : result (option nat * Rng) :=
  let root := 0 in
  let h := [Node.init b (- player)%Z None None] in
  do (h, rng) <- iterations num_iterations h root rng;
  do r <- Node.deref h root;
  do best_node <- py_max (win_rate h) (Node.childs r);
  do bn <- Node.deref h best_node;
  Ok (Node.move bn, rng).

End MCTS_engine.

(** ** Alpha-beta minimax engine *)

(** Truth value of [None] or an integer in an [if]. *)
Definition truthy (s : option Z) : bool :=
  match s with
  | Some v => negb (v =? 0)%Z
  | None => false
  end.

Fixpoint can_win_loop (b : Board) (player : Z) (moves : list nat) (round_num : Z)
  : result (option Z * option nat * Board) :=
  match moves with
  | [] => Ok (None, None, b)
  | m :: rest =>
      do b <- play b m player;
      let score :=
        if four_in_a_row b player
        then Some ((Z.of_nat MAX_ROUNDS - (round_num - 1)) / 2)%Z
        else None in
      do b <- take_back b m;
      if truthy score then Ok (score, Some m, b)
      else can_win_loop b player rest round_num
  end.

Definition can_win_next_move (b : Board) (player : Z)
  (moves : option (list nat)) (round_num : option Z)
  : result (option Z * option nat * Board) :=
  let moves := match moves with None => valid_moves b | Some ms => ms end in
  let round_num :=
    match round_num with None => Z.of_nat (round_number b) | Some r => r end in
  can_win_loop b player moves round_num.

(** The inner [while True] of [mc_simulation], on the copy [tmp_board]. *)
Fixpoint mc_playout (fuel : nat) (tmp_board : Board) (tmp_move : nat)
  (tmp_player player : Z) (rng : Rng) : result (Z * Rng) :=
  match fuel with
  | 0 => OutOfFuel
  | S fuel' =>
      do tmp_board <- play tmp_board tmp_move tmp_player;
      if round_number tmp_board =? MAX_ROUNDS then Ok (0%Z, rng)
      else if four_in_a_row tmp_board tmp_player then
        let s := ((Z.of_nat MAX_ROUNDS
                   - (Z.of_nat (round_number tmp_board) - 1)) / 2)%Z in
        Ok (if (tmp_player =? player)%Z then s else (- s)%Z, rng)
      else
        do (tmp_move, rng) <- random_choice (valid_moves tmp_board) rng;
        mc_playout fuel' tmp_board tmp_move (- tmp_player)%Z player rng
  end.

Fixpoint mc_simulation_loop (n : nat) (b : Board) (player : Z)
  (best_score : Z) (best_move : option nat) (rng : Rng)
  : result (Z * option nat * Rng) :=
  match n with
  | 0 => Ok (best_score, best_move, rng)
  | S n' =>
      do (mv, rng) <- random_choice (valid_moves b) rng;
      do (score, rng) <- mc_playout MAX_ROUNDS b mv player player rng;
      if (score >? best_score)%Z
      then mc_simulation_loop n' b player score (Some mv) rng
      else mc_simulation_loop n' b player best_score best_move rng
  end.

Definition mc_simulation (b : Board) (player : Z) (rng : Rng)
  : result (Z * option nat * Rng) :=
  mc_simulation_loop MC_ITERATIONS b player (- Z.of_nat MAX_ROUNDS)%Z None rng.

(** The [for m in SEARCH_ORDER] loop of [minimax]; [rec] is the recursive
    call [minimax(board, -player, depth+1, -beta, -alpha)] with the board,
    the two bounds and the random source left open. *)
Fixpoint search_loop
  (rec : Board -> Z -> Z -> Rng -> result (Z * option nat * Board * Rng))
  (order moves : list nat) (b : Board) (player alpha beta : Z)
  (best_move : option nat) (rng : Rng)
  : result (Z * option nat * Board * Rng) :=
  match order with
  | [] => Ok (alpha, best_move, b, rng)
  | m :: rest =>
      if bool_decide (m ∈ moves) then
        do b <- play b m player;
        do (score, _, b, rng) <- rec b (- beta)%Z (- alpha)%Z rng;
        let score := (- score)%Z in
        do b <- take_back b m;
        if (score >=? beta)%Z then Ok (score, Some m, b, rng)
        else if (score >? alpha)%Z
        then search_loop rec rest moves b player score beta (Some m) rng
        else search_loop rec rest moves b player alpha beta best_move rng
      else search_loop rec rest moves b player alpha beta best_move rng
  end.

Fixpoint minimax_aux (fuel : nat) (b : Board) (player depth alpha beta
  max_depth : Z) (rng : Rng) : result (Z * option nat * Board * Rng) :=
  match fuel with
  | 0 => OutOfFuel
  | S fuel' =>
      let round_num := Z.of_nat (round_number b) in
      if (round_num =? Z.of_nat MAX_ROUNDS)%Z then Ok (0%Z, None, b, rng)
      else
        let moves := valid_moves b in
        do (score, m, b) <-
          can_win_next_move b player (Some moves) (Some round_num);
        if truthy score then Ok (default 0%Z score, m, b, rng)
        else
          let max_score := ((Z.of_nat MAX_ROUNDS - (round_num + 1)) / 2)%Z in
          let beta := if (beta >? max_score)%Z then max_score else beta in
          if (alpha >=? beta)%Z then Ok (beta, None, b, rng)
          else if (depth >? max_depth)%Z then
            do (s, mv, rng) <- mc_simulation b player rng;
            Ok (s, mv, b, rng)
          else
            search_loop
              (fun b' alpha' beta' rng' =>
                 minimax_aux fuel' b' (- player)%Z (depth + 1)%Z alpha' beta'
                             MAX_DEPTH rng')
              SEARCH_ORDER moves b player alpha beta None rng
  end.

(** Each call plays a disc before it recurses and a full board returns at
    once, so the recursion is never deeper than [MAX_ROUNDS + 1]. *)
Definition minimax (b : Board) (player depth alpha beta max_depth : Z)
  (rng : Rng) : result (Z * option nat * Board * Rng) :=
  minimax_aux (S MAX_ROUNDS) b player depth alpha beta max_depth rng.

(** ** Move selector *)

(** [board.any()] *)
Definition board_any (b : Board) : bool :=
  existsb (existsb (fun v => negb (v =? 0)%Z)) b.

Section Selector.
Context {SC : Scoring}.

Definition choose_move (b : Board) (player : Z) (v : Z) (rng : Rng)
  : result (option nat * Board * Rng) :=
  if negb (board_any b) || (round_number b =? 1) then
    do b <- play b 3 player;
    Ok (Some 3, b, rng)
  else if round_number b =? 2 then
    do (mv, rng) <- random_choice [2; 3; 4] rng;
    do b <- play b mv player;
    Ok (Some mv, b, rng)
  else
    do (mv, b, rng) <-
      (if (v =? 1)%Z then
         do (mv, rng) <- MCTS b player NUM_ITERATIONS rng;
         Ok (mv, b, rng)
       else
         do (_, mv, b, rng) <- minimax b player 1 (-1000) 1000 MAX_DEPTH rng;
         Ok (mv, b, rng));
    match mv with
    | Some m => do b <- play b m player; Ok (Some m, b, rng)
    | None => Ok (None, b, rng)
    end.

End Selector.

(** ** Two finished games

    Both open as [choose_move] does (3, 3, then 4).  [full_win_game] fills
    the board and its last disc, the 42nd, completes the only four-in-a-row
    (player -1, top row, columns 0 to 3); [full_draw_game] fills the board
    with no four-in-a-row at all. *)

Definition full_win_game : list nat :=
  [3; 3; 4; 6; 0; 3; 4; 3; 3; 1; 4; 4; 6; 6; 1; 3; 2; 5; 0; 1; 6;
   6; 5; 5; 1; 4; 4; 1; 0; 1; 6; 0; 2; 0; 2; 2; 2; 2; 5; 5; 5; 0].

Definition full_win_board : Board :=
  [[1; 1; 1; -1; -1; -1]; [-1; 1; -1; 1; -1; -1]; [1; 1; 1; -1; 1; -1];
   [1; -1; -1; -1; 1; -1]; [1; 1; 1; -1; -1; 1]; [-1; 1; -1; 1; -1; 1];
   [-1; 1; -1; 1; -1; 1]]%Z.

Definition full_draw_game : list nat :=
  [3; 3; 4; 6; 0; 3; 4; 3; 3; 1; 4; 4; 6; 6; 1; 3; 2; 5; 0; 1; 6;
   6; 5; 5; 1; 4; 4; 1; 0; 1; 6; 0; 2; 0; 2; 2; 2; 2; 5; 5; 0; 5].

Definition full_draw_board : Board :=
  [[1; 1; 1; -1; -1; 1]; [-1; 1; -1; 1; -1; -1]; [1; 1; 1; -1; 1; -1];
   [1; -1; -1; -1; 1; -1]; [1; 1; 1; -1; -1; 1]; [-1; 1; -1; 1; -1; -1];
   [-1; 1; -1; 1; -1; 1]]%Z.

(** No prefix of the game shows a four-in-a-row of either player. *)
Fixpoint no_win_along (b : Board) (player : Z) (cols : list nat) : bool :=
  match cols with
  | [] => true
  | c :: rest =>
      match play b c player with
      | Ok b' =>
          negb (four_in_a_row b 1) && negb (four_in_a_row b (-1))
          && no_win_along b' (- player)%Z rest
      | _ => false
      end
  end.

(** An implementation of the key interface over the rationals, to run the
    engine on concrete positions: the exploration term of UCB1 is replaced by
    the ratio of the visit counts. *)
Definition rational_scoring : Scoring := {|
  score := Q;
  score_gt := fun x y => negb (Qle_bool x y);
  UCB1_value := fun w v pv => (w / inject_Z v + inject_Z pv / inject_Z v)%Q;
  rate_value := fun w v => (w / inject_Z v)%Q
|}.

(** The player of the first play of a playout, and the players of a run of
    [n] plays that starts with [p] and takes turns. *)
Definition first_mover (plays : list (nat * Z)) : option Z :=
  snd <$> head plays.

Fixpoint alternate (p : Z) (n : nat) : list Z :=
  match n with
  | 0 => []
  | S n' => p :: alternate (- p)%Z n'
  end.

(** [player] completes a four-in-a-row by dropping a disc in column [m]. *)
Definition wins (b : Board) (player : Z) (m : nat) : bool :=
  match play b m player with
  | Ok b' => four_in_a_row b' player
  | _ => false
  end.

(** The score of a win on the next move and the cap on [beta], at the round
    count of the board. *)
Definition win_score (b : Board) : Z :=
  ((Z.of_nat MAX_ROUNDS - (Z.of_nat (round_number b) - 1)) / 2)%Z.

Definition max_score (b : Board) : Z :=
  ((Z.of_nat MAX_ROUNDS - (Z.of_nat (round_number b) + 1)) / 2)%Z.

(** Two positions early in a game: after the moves 3, 3 and after the
    moves 2, 2, 3, 3, 4, 4, where player 1 has three discs in the bottom row
    with both ends open. *)
Definition two_disc_board : Board :=
  [[0; 0; 0; 0; 0; 0]; [0; 0; 0; 0; 0; 0]; [0; 0; 0; 0; 0; 0];
   [1; -1; 0; 0; 0; 0]; [0; 0; 0; 0; 0; 0]; [0; 0; 0; 0; 0; 0];
   [0; 0; 0; 0; 0; 0]]%Z.

Definition open_three_board : Board :=
  [[0; 0; 0; 0; 0; 0]; [0; 0; 0; 0; 0; 0]; [1; -1; 0; 0; 0; 0];
   [1; -1; 0; 0; 0; 0]; [1; -1; 0; 0; 0; 0]; [0; 0; 0; 0; 0; 0];
   [0; 0; 0; 0; 0; 0]]%Z.

(** ** Well-formed node heaps

    What every pass of the loop of [MCTS] keeps true of the heap.  [pending]
    is the child that [expand] has just created and that [backpropagate] has
    not visited yet. *)

Definition stats_ok (n : Node.t) : Prop :=
  (0 <= Node.num_visits n)%Z
  /\ (0 <= Node.num_wins n)%Q
  /\ (Node.num_wins n <= inject_Z (Node.num_visits n))%Q.

Definition child_ok (h : Heap) (a : nat) (n : Node.t) (c : nat) : Prop :=
  a < c
  /\ exists nc, h !! c = Some nc /\ Node.parent nc = Some a
                /\ exists m, Node.move nc = Some m
                             /\ m ∈ valid_moves (Node.board n).

Definition node_ok (h : Heap) (a : nat) (n : Node.t) : Prop :=
  shape (Node.board n) = true
  /\ Node.player n <> 0%Z
  /\ (forall m, m ∈ Node.next_moves n -> m ∈ valid_moves (Node.board n))
  /\ (forall c, c ∈ Node.childs n -> child_ok h a n c)
  /\ (forall pa, Node.parent n = Some pa -> pa < a)
  /\ stats_ok n.

Definition heap_ok (b : Board) (pending : option nat) (h : Heap) : Prop :=
  (exists r, h !! 0 = Some r /\ Node.board r = b)
  /\ forall a n, h !! a = Some n ->
       node_ok h a n
       /\ (a <> 0 -> pending <> Some a -> (1 <= Node.num_visits n)%Z).

(** The parts of a node that no method changes after [__init__]. *)
Definition same_static (n n' : Node.t) : Prop :=
  Node.board n = Node.board n' /\ Node.player n = Node.player n'
  /\ Node.parent n = Node.parent n' /\ Node.move n = Node.move n'.

(** From [h] to [h'] every node is still there and has kept its children. *)
Definition childs_grow (h h' : Heap) : Prop :=
  forall a n, h !! a = Some n ->
    exists n', h' !! a = Some n' /\ (Node.childs n <> [] -> Node.childs n' <> []).

(** From [h] to [h'] every node is still there with its fixed parts, and
    (for [same_tree]) with the same children. *)
Definition heap_ext (h h' : Heap) : Prop :=
  forall c nc, h !! c = Some nc ->
    exists nc', h' !! c = Some nc' /\ same_static nc nc'.

Definition same_tree (h h' : Heap) : Prop :=
  forall c nc, h !! c = Some nc ->
    exists nc', h' !! c = Some nc' /\ same_static nc nc'
                /\ Node.childs nc' = Node.childs nc.

Definition root_expandable (h : Heap) : Prop :=
  exists r, h !! 0 = Some r
            /\ (Node.childs r <> [] \/ Node.next_moves r <> []).

Definition root_has_child (h : Heap) : Prop :=
  exists r, h !! 0 = Some r /\ Node.childs r <> [].

(** The greatest score of the engine: that of a win on the first move. *)
Definition top_score : Z := ((Z.of_nat MAX_ROUNDS + 1) / 2)%Z.

(** ** Display and driver loop

    Standard output is the list of the lines printed so far. *)

(** The dictionary [PLAYERS]; [None] is a missing key. *)
Definition PLAYERS (p : Z) : option String.string :=
  if (p =? 1)%Z then Some "A"%string
  else if (p =? -1)%Z then Some "B"%string
  else None.

Definition display_cell (v : Z) : String.string :=
  if (v =? 1)%Z then String.append (default ""%string (PLAYERS 1)) " "
  else if (v =? -1)%Z then String.append (default ""%string (PLAYERS (-1))) " "
  else "- "%string.

(** One line for each row, the top row first. *)
Definition display (b : Board) : list String.string :=
  map (fun j =>
         foldr (fun i line => String.append (display_cell (cell b i j)) line)
               ""%string (seq 0 NUM_COLUMNS))
      (rev (seq 0 COLUMN_HEIGHT)).


Section Driver.
Context {SC : Scoring}.



End Driver.



(** Number of discs in column [c]. *)
Definition height (b : Board) (c : nat) : nat :=
  count_nonzero (default [] (b !! c)).

(** Four cells of [player] in a line that lies on the board, starting at
    column [c], row [r]: up a column, along a row, or along a diagonal that
    rises or falls as the column grows. *)
Definition line_of_four (b : Board) (player : Z) (c r : nat) : Prop :=
  (c < NUM_COLUMNS /\ r + FOUR <= COLUMN_HEIGHT
   /\ forall i, i < FOUR -> cell b c (r + i) = player)
  \/ (c + FOUR <= NUM_COLUMNS /\ r < COLUMN_HEIGHT
      /\ forall i, i < FOUR -> cell b (c + i) r = player)
  \/ (c + FOUR <= NUM_COLUMNS /\ r + FOUR <= COLUMN_HEIGHT
      /\ forall i, i < FOUR -> cell b (c + i) (r + i) = player)
  \/ (c + FOUR <= NUM_COLUMNS /\ r + FOUR <= COLUMN_HEIGHT
      /\ forall i, i < FOUR -> cell b (c + i) (r + FOUR - 1 - i) = player).

(** The board after a sequence of plays. *)
Fixpoint apply_plays (b : Board) (plays : list (nat * Z)) : result Board :=
  match plays with
  | [] => Ok b
  | (c, p) :: rest => do b' <- play b c p; apply_plays b' rest
  end.

(** ** Structure of the search tree *)

(** The move that led into the node at address [c]. *)
Definition child_move (h : Heap) (c : nat) : nat :=
  match h !! c with
  | Some nc => default 0 (Node.move nc)
  | None => 0
  end.

(** Every node but the root has a parent; a child holds the board of its
    parent after its move, made by the opponent of the parent's player; and
    the untried moves of a node together with the moves of its children
    are the legal moves of its board, each once. *)
Definition tree_node (h : Heap) (a : nat) (n : Node.t) : Prop :=
  (a <> 0 -> Node.parent n <> None)
  /\ (forall c, c ∈ Node.childs n ->
        exists nc, h !! c = Some nc
          /\ Node.parent nc = Some a
          /\ Node.move nc = Some (child_move h c)
          /\ Node.player nc = (- Node.player n)%Z
          /\ play (Node.board n) (child_move h c) (- Node.player n)
             = Ok (Node.board nc))
  /\ Node.next_moves n ++ map (child_move h) (Node.childs n)
     ≡ₚ valid_moves (Node.board n).

Definition tree_inv (h : Heap) : Prop :=
  forall a n, h !! a = Some n -> tree_node h a n.

Definition root_visits (h : Heap) : Z :=
  match h !! 0 with
  | Some r => Node.num_visits r
  | None => 0%Z
  end.

(** From [h] to [h'] only the counters of nodes have changed. *)
Definition counters_only (h h' : Heap) : Prop :=
  length h' = length h
  /\ forall c nc, h !! c = Some nc ->
       exists nc', h' !! c = Some nc' /\ same_static nc nc'
                   /\ Node.childs nc' = Node.childs nc
                   /\ Node.next_moves nc' = Node.next_moves nc.

(** Every cell of the board is empty or holds a disc of one of the two
    players. *)
Definition cells_ok (b : Board) : bool :=
  forallb (forallb (fun v => (v =? 0)%Z || (v =? 1)%Z || (v =? -1)%Z)) b.

(** [full_win_game] before its last move: one empty cell, in column 0, and
    player -1 wins by filling it. *)
Definition last_cell_board : Board :=
  [[1; 1; 1; -1; -1; 0]; [-1; 1; -1; 1; -1; -1]; [1; 1; 1; -1; 1; -1];
   [1; -1; -1; -1; 1; -1]; [1; 1; 1; -1; -1; 1]; [-1; 1; -1; 1; -1; 1];
   [-1; 1; -1; 1; -1; 1]]%Z.

(** * Properties *)

(** ** Columns *)

Lemma first_zero_spec col i :
  first_zero col = Some i ->
  col !! i = Some 0%Z /\ forall j v, j < i -> col !! j = Some v -> v <> 0%Z.
Proof.
  revert i. induction col as [|v rest IH]; intros i H; simpl in H.
  - discriminate.
  - destruct (Z.eqb_spec v 0) as [->|Hv].
    + injection H as <-. split; [reflexivity | intros j w Hj; lia].
    + destruct (first_zero rest) as [k|] eqn:E; simpl in H; [|discriminate].
      injection H as <-. destruct (IH k eq_refl) as [H0 Hlt]. split.
      * exact H0.
      * intros [|j] w Hj Hw; simpl in Hw.
        -- congruence.
        -- apply (Hlt j w); [lia | exact Hw].
Qed.

Lemma first_zero_None col :
  first_zero col = None -> count_nonzero col = length col.
Proof.
  unfold count_nonzero. induction col as [|v rest IH]; simpl; intros H.
  - reflexivity.
  - destruct (Z.eqb_spec v 0) as [->|Hv]; [discriminate|].
    destruct (first_zero rest); [discriminate|].
    rewrite filter_cons_True by exact Hv. simpl. f_equal. apply IH. reflexivity.
Qed.

Lemma first_zero_is_Some col r :
  col !! r = Some 0%Z -> is_Some (first_zero col).
Proof.
  revert r. induction col as [|v rest IH]; intros r H; simpl.
  - rewrite lookup_nil in H. discriminate.
  - destruct (Z.eqb_spec v 0); [eauto|].
    destruct r as [|r]; simpl in H; [congruence|].
    destruct (IH r H) as [k ->]. simpl. eauto.
Qed.

Lemma all_zero_last_nonzero rest :
  forallb (fun w => (w =? 0)%Z) rest = true -> last_nonzero rest = None.
Proof.
  induction rest as [|w rest IH]; simpl; intros H; [reflexivity|].
  apply andb_prop in H as [Hw Hr]. rewrite (IH Hr), Hw. reflexivity.
Qed.

Lemma column_round_trip col i p :
  gravity_col col = true -> first_zero col = Some i -> p <> 0%Z ->
  last_nonzero (<[i := p]> col) = Some i
  /\ <[i := 0%Z]> (<[i := p]> col) = col.
Proof.
  revert i. induction col as [|v rest IH]; intros i Hg Hf Hp; simpl in *.
  - discriminate.
  - destruct (Z.eqb_spec v 0) as [->|Hv].
    + injection Hf as <-. simpl. rewrite (all_zero_last_nonzero _ Hg).
      destruct (Z.eqb_spec p 0); [contradiction|]. split; reflexivity.
    + destruct (first_zero rest) as [k|] eqn:E; simpl in Hf; [|discriminate].
      injection Hf as <-. destruct (IH k Hg eq_refl Hp) as [Hl Hi].
      simpl. rewrite Hl, Hi. split; reflexivity.
Qed.

Lemma gravity_col_insert col i p :
  gravity_col col = true -> first_zero col = Some i -> p <> 0%Z ->
  gravity_col (<[i := p]> col) = true.
Proof.
  revert i. induction col as [|v rest IH]; intros i Hg Hf Hp; simpl in *.
  - discriminate.
  - destruct (Z.eqb_spec v 0) as [->|Hv].
    + injection Hf as <-. simpl. destruct (Z.eqb_spec p 0); [contradiction|].
      clear -Hg. induction rest as [|w rest IH]; simpl in *; [reflexivity|].
      apply andb_prop in Hg as [-> Hr]. exact Hr.
    + destruct (first_zero rest) as [k|] eqn:E; simpl in Hf; [|discriminate].
      injection Hf as <-. simpl. destruct (Z.eqb_spec v 0); [contradiction|].
      apply IH; auto.
Qed.

Lemma count_nonzero_insert col i p :
  first_zero col = Some i -> p <> 0%Z ->
  count_nonzero (<[i := p]> col) = S (count_nonzero col).
Proof.
  unfold count_nonzero.
  revert i. induction col as [|v rest IH]; intros i Hf Hp; simpl in *.
  - discriminate.
  - destruct (Z.eqb_spec v 0) as [->|Hv].
    + injection Hf as <-. simpl. rewrite filter_cons_True by exact Hp.
      rewrite filter_cons_False by (intros H; apply H; reflexivity).
      reflexivity.
    + destruct (first_zero rest) as [k|] eqn:E; simpl in Hf; [|discriminate].
      injection Hf as <-. simpl. rewrite !filter_cons_True by exact Hv.
      simpl. f_equal. apply IH; auto.
Qed.

Lemma count_nonzero_le col : count_nonzero col <= length col.
Proof. unfold count_nonzero. apply length_filter. Qed.

Lemma gravity_col_top col n :
  gravity_col col = true -> length col = S n -> col !! n <> Some 0%Z ->
  count_nonzero col = length col.
Proof.
  intros Hg Hl Ht. apply first_zero_None.
  destruct (first_zero col) as [i|] eqn:E; [exfalso|reflexivity].
  revert n i Hg Hl Ht E. induction col as [|v rest IH]; intros n i Hg Hl Ht E.
  - discriminate.
  - simpl in *. destruct (Z.eqb_spec v 0) as [->|Hv].
    + destruct n as [|n]; [apply Ht; reflexivity|]. simpl in Ht.
      apply Ht. clear -Hg Hl. injection Hl as Hl.
      revert n Hl. induction rest as [|w rest IH]; intros n Hl; [discriminate|].
      simpl in *. apply andb_prop in Hg as [Hw Hr].
      destruct n as [|n]; simpl.
      * apply Z.eqb_eq in Hw. congruence.
      * apply IH; [exact Hr | lia].
    + destruct (first_zero rest) as [k|] eqn:E'; simpl in E; [|discriminate].
      destruct n as [|n]; [destruct rest; discriminate|].
      simpl in Ht. apply (IH n k); auto.
Qed.

(** ** Boards *)

Lemma player_nonzero p : is_player p -> p <> 0%Z.
Proof. intros [-> | ->]; discriminate. Qed.

Lemma is_player_opp p : is_player p -> is_player (- p)%Z.
Proof. intros [-> | ->]; [right | left]; reflexivity. Qed.

Lemma shape_length b : shape b = true -> length b = NUM_COLUMNS.
Proof.
  unfold shape. intros H. apply andb_prop in H as [H _].
  apply Nat.eqb_eq in H. exact H.
Qed.

Lemma shape_col b c col :
  shape b = true -> b !! c = Some col -> length col = COLUMN_HEIGHT.
Proof.
  unfold shape. intros H Hc. apply andb_prop in H as [_ H].
  rewrite forallb_forall in H. apply Nat.eqb_eq. apply H.
  apply list_elem_of_In. eapply list_elem_of_lookup_2. exact Hc.
Qed.

Lemma shape_lookup b c :
  shape b = true -> c < NUM_COLUMNS ->
  exists col, b !! c = Some col /\ length col = COLUMN_HEIGHT.
Proof.
  intros Hs Hc. destruct (lookup_lt_is_Some_2 b c) as [col Hcol].
  - rewrite (shape_length b Hs). exact Hc.
  - exists col. split; [exact Hcol | eapply shape_col; eauto].
Qed.

Lemma gravity_lookup b c col :
  gravity b = true -> b !! c = Some col -> gravity_col col = true.
Proof.
  unfold gravity. intros H Hc. rewrite forallb_forall in H. apply H.
  apply list_elem_of_In. eapply list_elem_of_lookup_2. exact Hc.
Qed.

Lemma forallb_insert {A} (f : A -> bool) (l : list A) i x :
  forallb f l = true -> f x = true -> forallb f (<[i := x]> l) = true.
Proof.
  revert i. induction l as [|y l IH]; intros i Hl Hx; simpl in *.
  - reflexivity.
  - apply andb_prop in Hl as [Hy Hl]. destruct i as [|i]; simpl.
    + rewrite Hx, Hl. reflexivity.
    + rewrite Hy, IH; auto.
Qed.

Lemma elem_of_valid_moves b c :
  c ∈ valid_moves b <-> cell b c (COLUMN_HEIGHT - 1) = 0%Z /\ c < NUM_COLUMNS.
Proof.
  unfold valid_moves. rewrite list_elem_of_filter, elem_of_seq.
  split; intros [H1 H2]; (split; [exact H1 | lia]).
Qed.

Lemma valid_moves_top b c col :
  shape b = true -> c ∈ valid_moves b -> b !! c = Some col ->
  col !! (COLUMN_HEIGHT - 1) = Some 0%Z.
Proof.
  intros Hs Hc Hcol. apply elem_of_valid_moves in Hc as [Hz _].
  unfold cell in Hz. rewrite Hcol in Hz.
  pose proof (shape_col _ _ _ Hs Hcol) as Hl.
  destruct (lookup_lt_is_Some_2 col (COLUMN_HEIGHT - 1)) as [v Hv].
  - rewrite Hl. unfold COLUMN_HEIGHT. lia.
  - rewrite Hv in Hz |- *. simpl in Hz. congruence.
Qed.

Lemma play_inv b c p b' :
  play b c p = Ok b' ->
  exists col i, b !! c = Some col /\ first_zero col = Some i
                /\ b' = <[c := <[i := p]> col]> b.
Proof.
  unfold play. destruct (b !! c) as [col|] eqn:Hcol; [|discriminate].
  destruct (first_zero col) as [i|] eqn:Hi; [|discriminate].
  intros [= <-]. exists col, i. auto.
Qed.

Lemma play_valid b c p :
  shape b = true -> c ∈ valid_moves b ->
  exists col i, b !! c = Some col /\ first_zero col = Some i
                /\ play b c p = Ok (<[c := <[i := p]> col]> b).
Proof.
  intros Hs Hc. pose proof Hc as Hc'. apply elem_of_valid_moves in Hc' as [_ Hlt].
  destruct (shape_lookup b c Hs Hlt) as (col & Hcol & _).
  destruct (first_zero_is_Some col _ (valid_moves_top _ _ _ Hs Hc Hcol)) as [i Hi].
  exists col, i. unfold play. rewrite Hcol, Hi. auto.
Qed.

Lemma play_shape b c p b' :
  shape b = true -> play b c p = Ok b' -> shape b' = true.
Proof.
  intros Hs Hp. apply play_inv in Hp as (col & i & Hcol & _ & ->).
  pose proof (shape_col _ _ _ Hs Hcol) as Hl.
  unfold shape in *. apply andb_prop in Hs as [H1 H2].
  rewrite length_insert, H1. apply forallb_insert; [exact H2|].
  rewrite length_insert, Hl. reflexivity.
Qed.

Lemma play_gravity b c p b' :
  gravity b = true -> p <> 0%Z -> play b c p = Ok b' -> gravity b' = true.
Proof.
  intros Hg Hnz Hp. apply play_inv in Hp as (col & i & Hcol & Hi & ->).
  unfold gravity. apply forallb_insert; [exact Hg|].
  apply gravity_col_insert; auto. eapply gravity_lookup; eauto.
Qed.

Lemma sum_list_insert (f : list Z -> nat) (b : Board) c col col' :
  b !! c = Some col ->
  sum_list (map f (<[c := col']> b)) + f col = sum_list (map f b) + f col'.
Proof.
  revert c. induction b as [|x b IH]; intros c H.
  - rewrite lookup_nil in H. discriminate.
  - destruct c as [|c]; simpl in *.
    + injection H as ->. lia.
    + specialize (IH c H). lia.
Qed.

Lemma play_round_number b c p b' :
  p <> 0%Z -> play b c p = Ok b' -> round_number b' = S (round_number b).
Proof.
  intros Hnz Hp. apply play_inv in Hp as (col & i & Hcol & Hi & ->).
  unfold round_number.
  pose proof (sum_list_insert count_nonzero b c col (<[i := p]> col) Hcol) as H.
  rewrite (count_nonzero_insert col i p Hi Hnz) in H. lia.
Qed.

Lemma sum_list_bound (f : list Z -> nat) (b : Board) k :
  (forall col, col ∈ b -> f col <= k) -> sum_list (map f b) <= length b * k.
Proof.
  induction b as [|x b IH]; intros H; simpl; [lia|].
  pose proof (H x (list_elem_of_here _ _)).
  assert (sum_list (map f b) <= length b * k).
  { apply IH. intros col Hc. apply H. apply list_elem_of_further, Hc. }
  lia.
Qed.

Lemma round_number_le b : shape b = true -> round_number b <= MAX_ROUNDS.
Proof.
  intros Hs. unfold round_number, MAX_ROUNDS.
  rewrite <- (shape_length b Hs). apply sum_list_bound.
  intros col Hc. apply list_elem_of_lookup in Hc as [c Hc].
  rewrite <- (shape_col _ _ _ Hs Hc). apply count_nonzero_le.
Qed.

(** A legal move exists only on a board that is not full. *)
Lemma valid_moves_round_number b c :
  shape b = true -> c ∈ valid_moves b -> round_number b < MAX_ROUNDS.
Proof.
  intros Hs Hc.
  destruct (play_valid b c 1%Z Hs Hc) as (col & i & Hcol & Hi & Hp).
  pose proof (play_round_number b c 1%Z _ ltac:(discriminate) Hp) as Hr.
  pose proof (round_number_le _ (play_shape _ _ _ _ Hs Hp)). lia.
Qed.

Lemma sum_list_full (f : list Z -> nat) (b : Board) k :
  (forall col, col ∈ b -> f col = k) -> sum_list (map f b) = length b * k.
Proof.
  induction b as [|x b IH]; intros H; simpl; [reflexivity|].
  rewrite (H x (list_elem_of_here _ _)), IH; [reflexivity|].
  intros col Hc. apply H. apply list_elem_of_further, Hc.
Qed.

(** Under gravity a board without a legal move is full. *)
Lemma no_valid_moves_full b :
  shape b = true -> gravity b = true -> valid_moves b = [] ->
  round_number b = MAX_ROUNDS.
Proof.
  intros Hs Hg Hv. unfold round_number, MAX_ROUNDS.
  rewrite <- (shape_length b Hs). apply sum_list_full.
  intros col Hc. apply list_elem_of_lookup in Hc as [c Hc].
  pose proof (shape_col _ _ _ Hs Hc) as Hl. rewrite <- Hl.
  apply (gravity_col_top col (COLUMN_HEIGHT - 1)).
  - eapply gravity_lookup; eauto.
  - rewrite Hl. reflexivity.
  - intros Htop. assert (c ∈ valid_moves b) as Hin.
    { apply elem_of_valid_moves. split.
      - unfold cell. rewrite Hc, Htop. reflexivity.
      - rewrite <- (shape_length b Hs). eapply lookup_lt_Some; eauto. }
    rewrite Hv in Hin. inversion Hin.
Qed.

Lemma full_no_valid_moves b :
  shape b = true -> round_number b = MAX_ROUNDS -> valid_moves b = [].
Proof.
  intros Hs Hr. destruct (valid_moves b) as [|c l] eqn:E; [reflexivity|].
  assert (c ∈ valid_moves b) as Hc by (rewrite E; apply list_elem_of_here).
  pose proof (valid_moves_round_number b c Hs Hc). lia.
Qed.

(** [take_back] undoes [play] on a board under gravity. *)
Lemma play_take_back b c p b' :
  gravity b = true -> p <> 0%Z -> play b c p = Ok b' -> take_back b' c = Ok b.
Proof.
  intros Hg Hnz Hp. apply play_inv in Hp as (col & i & Hcol & Hi & ->).
  destruct (column_round_trip col i p (gravity_lookup _ _ _ Hg Hcol) Hi Hnz)
    as [Hl Hr].
  unfold take_back.
  rewrite list_lookup_insert_eq by (eapply lookup_lt_Some; eauto).
  rewrite Hl, Hr, list_insert_insert_eq, list_insert_id by exact Hcol.
  reflexivity.
Qed.

(** C7. On a board under gravity, [play] in a column that is not full
    followed by [take_back] on the same column succeeds and gives back
    exactly the board before the move, for both players. *)
Theorem play_take_back_round_trip (b : Board) (c : nat) (p : Z) :
  shape b = true -> gravity b = true -> c ∈ valid_moves b -> is_player p ->
  exists b', play b c p = Ok b' /\ take_back b' c = Ok b.
Proof.
  intros Hs Hg Hc Hp.
  destruct (play_valid b c p Hs Hc) as (col & i & _ & _ & Hplay).
  eexists. split; [exact Hplay|].
  eapply play_take_back; eauto using player_nonzero.
Qed.

Lemma play_take_back_round_trip_witness :
  exists b', play initialize_board 3 1 = Ok b'
             /\ take_back b' 3 = Ok initialize_board.
Proof.
  apply (play_take_back_round_trip initialize_board 3 1).
  - reflexivity.
  - reflexivity.
  - vm_compute. apply list_elem_of_In. simpl. tauto.
  - left. reflexivity.
Defined.

(** ** Terminal detector *)

Lemma terminal_state_draw_iff_full b :
  terminal_state b = Some 0%Z <-> round_number b = MAX_ROUNDS.
Proof.
  unfold terminal_state. destruct (Nat.eqb_spec (round_number b) MAX_ROUNDS).
  - tauto.
  - destruct (four_in_a_row b 1); [split; [discriminate | contradiction]|].
    destruct (four_in_a_row b (-1)); split; (discriminate || contradiction).
Qed.

(** C1. The game [full_win_game] is a legal game in which no four-in-a-row
    stands before the last disc; it ends on the full board [full_win_board],
    where player -1 has a four-in-a-row, and [terminal_state] answers the
    draw there. *)
Theorem terminal_state_full_board_with_win :
  replay initialize_board 1 full_win_game = Ok full_win_board
  /\ no_win_along initialize_board 1 full_win_game = true
  /\ round_number full_win_board = MAX_ROUNDS
  /\ four_in_a_row full_win_board (-1) = true
  /\ terminal_state full_win_board = Some 0%Z.
Proof. repeat split; vm_compute; reflexivity. Qed.

(** ** Opening moves *)

Lemma count_nonzero_le_round_number b c col :
  b !! c = Some col -> count_nonzero col <= round_number b.
Proof.
  intros H. unfold round_number.
  pose proof (sum_list_insert count_nonzero b c col [] H) as E.
  change (count_nonzero []) with 0 in E. lia.
Qed.

Lemma play_low_board b c p :
  shape b = true -> round_number b < COLUMN_HEIGHT -> c < NUM_COLUMNS ->
  exists b', play b c p = Ok b'.
Proof.
  intros Hs Hr Hc. destruct (shape_lookup b c Hs Hc) as (col & Hcol & Hl).
  unfold play. rewrite Hcol.
  destruct (first_zero col) as [i|] eqn:E; [eauto|].
  apply first_zero_None in E.
  pose proof (count_nonzero_le_round_number b c col Hcol). lia.
Qed.

Lemma board_any_false b : board_any b = false -> round_number b = 0.
Proof.
  unfold board_any, round_number. induction b as [|col b IH]; simpl; intros H.
  - reflexivity.
  - apply orb_false_elim in H as [Hc Hb]. rewrite (IH Hb).
    assert (count_nonzero col = 0) as ->; [|reflexivity].
    clear -Hc. unfold count_nonzero.
    induction col as [|v col IH]; simpl in *; [reflexivity|].
    apply orb_false_elim in Hc as [Hv Hc].
    apply negb_false_iff, Z.eqb_eq in Hv. subst v.
    rewrite filter_cons_False by (intros H; apply H; reflexivity).
    apply IH, Hc.
Qed.

Lemma random_choice_elem l rng :
  l <> [] -> exists x, random_choice l rng = Ok (x, snd (draw rng)) /\ x ∈ l.
Proof.
  intros Hl. unfold random_choice. destruct l as [|d l']; [contradiction|].
  destruct (draw rng) as [n rng'] eqn:E. simpl snd.
  eexists. split; [reflexivity|].
  apply list_elem_of_In, nth_In, Nat.mod_upper_bound. discriminate.
Qed.

(** C6. For both players and whatever the strategy, [choose_move] plays and
    returns column 3 on the empty board and on a board with one disc, and on
    a board with two discs it plays and returns one of the columns 2, 3, 4;
    the board it leaves is the board after that move. *)
Theorem choose_move_opening {SC : Scoring} (b : Board) (p v : Z) (rng : Rng) :
  shape b = true -> is_player p ->
  (b = initialize_board \/ round_number b = 1 ->
   exists b', play b 3 p = Ok b'
              /\ choose_move b p v rng = Ok (Some 3, b', rng))
  /\ (round_number b = 2 ->
      exists m b' rng', (m = 2 \/ m = 3 \/ m = 4)
                        /\ play b m p = Ok b'
                        /\ choose_move b p v rng = Ok (Some m, b', rng')).
Proof.
  intros Hs Hp. split.
  - intros Hb.
    assert (round_number b < COLUMN_HEIGHT) as Hr.
    { destruct Hb as [-> | ->]; vm_compute; lia. }
    destruct (play_low_board b 3 p Hs Hr) as [b' Hb']; [unfold NUM_COLUMNS; lia|].
    exists b'. split; [exact Hb'|]. unfold choose_move.
    assert (negb (board_any b) || (round_number b =? 1) = true) as ->.
    { destruct Hb as [-> | ->]; [reflexivity | apply orb_true_r]. }
    rewrite Hb'. reflexivity.
  - intros Hr.
    destruct (random_choice_elem [2; 3; 4] rng ltac:(discriminate))
      as (m & Hm & Hin).
    assert (m = 2 \/ m = 3 \/ m = 4) as Hcases.
    { apply list_elem_of_In in Hin. simpl in Hin. intuition. }
    destruct (play_low_board b m p Hs) as [b' Hb'].
    { rewrite Hr. unfold COLUMN_HEIGHT. lia. }
    { unfold NUM_COLUMNS. lia. }
    exists m, b', (snd (draw rng)). split; [exact Hcases|]. split; [exact Hb'|].
    unfold choose_move.
    assert (negb (board_any b) || (round_number b =? 1) = false) as ->.
    { rewrite Hr. simpl. rewrite orb_false_r. apply negb_false_iff.
      destruct (board_any b) eqn:E; [reflexivity|].
      apply board_any_false in E. lia. }
    rewrite Hr. simpl Nat.eqb. cbv iota. rewrite Hm. simpl. rewrite Hb'.
    reflexivity.
Qed.

Lemma choose_move_opening_witness :
  (exists b', play initialize_board 3 1 = Ok b'
              /\ choose_move (SC := rational_scoring) initialize_board 1 2 [5]
                 = Ok (Some 3, b', [5]))
  /\ (exists m b' rng',
        (m = 2 \/ m = 3 \/ m = 4)
        /\ play two_disc_board m 1 = Ok b'
        /\ choose_move (SC := rational_scoring) two_disc_board 1 1 [5]
           = Ok (Some m, b', rng')).
Proof.
  split.
  - apply (choose_move_opening (SC := rational_scoring) initialize_board 1 2 [5]).
    + reflexivity.
    + left. reflexivity.
    + left. reflexivity.
  - apply (choose_move_opening (SC := rational_scoring) two_disc_board 1 1 [5]).
    + reflexivity.
    + left. reflexivity.
    + reflexivity.
Defined.

(** ** Monte Carlo evaluator *)

Lemma _mc_loop_unfold fuel b p rng plays :
  valid_moves b <> [] ->
  _mc_loop (S fuel) b p rng plays =
  (do (c, rng) <- random_choice (valid_moves b) rng;
   do b <- play b c (- p)%Z;
   if four_in_a_row b (- p)%Z then Ok ((- p)%Z, rng, plays ++ [(c, (- p)%Z)])
   else _mc_loop fuel b (- p)%Z rng (plays ++ [(c, (- p)%Z)])).
Proof.
  intros H. simpl. destruct (valid_moves b); [contradiction | reflexivity].
Qed.

Lemma valid_moves_nonempty_lt b :
  shape b = true -> valid_moves b <> [] -> round_number b < MAX_ROUNDS.
Proof.
  intros Hs Hv. destruct (valid_moves b) as [|c l] eqn:E; [contradiction|].
  apply (valid_moves_round_number b c Hs). rewrite E. apply list_elem_of_here.
Qed.

(** The loop of [_mc] ends within the fuel left by the empty cells; its plays
    take turns, the first one made by the opposite of the loop variable. *)
Lemma _mc_loop_total fuel : forall b p rng plays,
  shape b = true -> p <> 0%Z -> MAX_ROUNDS - round_number b <= fuel ->
  exists w rng' new,
    _mc_loop fuel b p rng plays = Ok (w, rng', plays ++ new)
    /\ map snd new = alternate (- p)%Z (length new)
    /\ (valid_moves b <> [] -> new <> []).
Proof.
  induction fuel as [|fuel IH]; intros b p rng plays Hs Hp Hf.
  - destruct (valid_moves b) as [|c l] eqn:E.
    + exists 0%Z, rng, []. simpl. rewrite E, app_nil_r. auto.
    + pose proof (valid_moves_nonempty_lt b Hs) as Hlt.
      rewrite E in Hlt. specialize (Hlt ltac:(discriminate)). lia.
  - destruct (decide (valid_moves b = [])) as [E|E].
    + exists 0%Z, rng, []. simpl. rewrite E, app_nil_r. auto.
    + rewrite (_mc_loop_unfold _ _ _ _ _ E).
      destruct (random_choice_elem (valid_moves b) rng E) as (c & -> & Hc).
      destruct (play_valid b c (- p)%Z Hs Hc) as (col & i & _ & _ & Hplay).
      simpl. rewrite Hplay. simpl.
      assert (- p <> 0)%Z as Hp' by lia.
      pose proof (play_shape _ _ _ _ Hs Hplay) as Hs'.
      pose proof (play_round_number _ _ _ _ Hp' Hplay) as Hr.
      destruct (four_in_a_row _ (- p)%Z).
      * exists (- p)%Z, (snd (draw rng)), [(c, (- p)%Z)].
        split; [reflexivity|]. split; [reflexivity | discriminate].
      * destruct (IH _ (- p)%Z (snd (draw rng)) (plays ++ [(c, (- p)%Z)]) Hs'
                    Hp' ltac:(lia)) as (w & rng' & new & Hrun & Halt & _).
        exists w, rng', ((c, (- p)%Z) :: new). rewrite Hrun. split.
        -- rewrite <- app_assoc. reflexivity.
        -- split; [|discriminate]. simpl. rewrite Halt. reflexivity.
Qed.

Lemma _mc_total b player rng :
  shape b = true -> player <> 0%Z -> valid_moves b <> [] ->
  exists w rng' plays,
    _mc b player rng = Ok (w, rng', plays)
    /\ first_mover plays = Some player
    /\ map snd plays = alternate player (length plays).
Proof.
  intros Hs Hp Hv. unfold _mc.
  assert (- player <> 0)%Z as Hp' by lia.
  destruct (_mc_loop_total MAX_ROUNDS b (- player)%Z rng [] Hs Hp'
              ltac:(lia)) as (w & rng' & new & Hrun & Halt & Hne).
  rewrite Z.opp_involutive in Halt.
  exists w, rng', new. split; [exact Hrun|]. split; [|exact Halt].
  specialize (Hne Hv). destruct new as [|[c q] rest]; [contradiction|].
  simpl in Halt. injection Halt as -> _. reflexivity.
Qed.

Lemma montecarlo_runs_total n : forall b player rng,
  shape b = true -> player <> 0%Z -> valid_moves b <> [] ->
  exists ws rng' logs,
    montecarlo_runs n b player rng = Ok (ws, rng', logs)
    /\ length logs = n
    /\ Forall (fun plays => first_mover plays = Some player
                            /\ map snd plays = alternate player (length plays))
              logs.
Proof.
  induction n as [|n IH]; intros b player rng Hs Hp Hv.
  - exists [], rng, []. simpl. auto.
  - destruct (_mc_total b player rng Hs Hp Hv) as (w & rng1 & plays & H1 & Hf & Ha).
    destruct (IH b player rng1 Hs Hp Hv) as (ws & rng2 & logs & H2 & Hl & Hall).
    exists (w :: ws), rng2, (plays :: logs). simpl. rewrite H1. simpl.
    rewrite H2. simpl. split; [reflexivity|]. split; [lia|].
    constructor; auto.
Qed.

(** C2, as the code has it. On a board with a legal move, each of the 100
    playouts of [montecarlo] runs to its end, its first move is made by
    [player] itself (the loop variable starts at [-player] and is negated
    before the first play), and the players take turns from there. *)
Theorem montecarlo_playouts_start_with_player (b : Board) (player : Z)
  (rng : Rng) :
  shape b = true -> is_player player -> valid_moves b <> [] ->
  exists s rng' logs,
    montecarlo b player rng = Ok (s, rng', logs)
    /\ length logs = montecarlo_samples
    /\ Forall (fun plays => first_mover plays = Some player
                            /\ map snd plays = alternate player (length plays))
              logs.
Proof.
  intros Hs Hp Hv. unfold montecarlo.
  destruct (montecarlo_runs_total montecarlo_samples b player rng Hs
              (player_nonzero _ Hp) Hv) as (ws & rng' & logs & H & Hl & Hall).
  rewrite H. simpl. eexists _, rng', logs. split; [reflexivity|]. auto.
Qed.

Lemma montecarlo_playouts_start_with_player_witness :
  exists s rng' logs,
    montecarlo initialize_board 1 [3; 1; 4] = Ok (s, rng', logs)
    /\ length logs = montecarlo_samples
    /\ Forall (fun plays => first_mover plays = Some 1%Z
                            /\ map snd plays = alternate 1 (length plays))
              logs.
Proof.
  apply (montecarlo_playouts_start_with_player initialize_board 1 [3; 1; 4]).
  - reflexivity.
  - left. reflexivity.
  - vm_compute. discriminate.
Defined.

(** C2, as stated, fails: on the empty board with [player = 1] the playout
    has legal moves, no four-in-a-row stands, and the first move of [_mc] is
    made by 1, not by the opponent -1. *)
Lemma mc_first_move_not_by_opponent :
  valid_moves initialize_board <> []
  /\ terminal_state initialize_board = None
  /\ exists w rng' plays,
       _mc initialize_board 1 [] = Ok (w, rng', plays)
       /\ first_mover plays = Some 1%Z
       /\ first_mover plays <> Some (- 1)%Z.
Proof.
  split; [vm_compute; discriminate|]. split; [reflexivity|].
  destruct (_mc initialize_board 1 []) as [[[w rng'] plays]| |] eqn:E;
    try (vm_compute in E; discriminate).
  exists w, rng', plays. split; [reflexivity|].
  vm_compute in E. injection E as <- <- <-. split; [reflexivity | discriminate].
Qed.

(** ** Alpha-beta minimax *)

Lemma win_score_pos b :
  round_number b < MAX_ROUNDS -> (0 < win_score b)%Z.
Proof.
  unfold win_score. intros H. apply Z.div_str_pos. lia.
Qed.

(** On a board under gravity the trial loop leaves the board as it found it
    and answers the first winning move of [moves], if there is one. *)
Lemma can_win_loop_find b p rn : forall moves,
  shape b = true -> gravity b = true -> p <> 0%Z ->
  (forall m, m ∈ moves -> m ∈ valid_moves b) ->
  ((Z.of_nat MAX_ROUNDS - (rn - 1)) / 2 <> 0)%Z ->
  can_win_loop b p moves rn =
  Ok (match find (wins b p) moves with
      | Some m => (Some ((Z.of_nat MAX_ROUNDS - (rn - 1)) / 2)%Z, Some m, b)
      | None => (None, None, b)
      end).
Proof.
  intros moves Hs Hg Hp. induction moves as [|m rest IH]; intros Hv Hsc.
  - reflexivity.
  - destruct (play_valid b m p Hs (Hv m (list_elem_of_here _ _)))
      as (col & i & _ & _ & Hplay).
    pose proof (play_take_back _ _ _ _ Hg Hp Hplay) as Hback.
    simpl. unfold wins at 1. rewrite Hplay. simpl. rewrite Hback. simpl.
    destruct (four_in_a_row _ p).
    + simpl. destruct (Z.eqb_spec ((Z.of_nat MAX_ROUNDS - (rn - 1)) / 2) 0);
        [contradiction | reflexivity].
    + simpl. apply IH; [|exact Hsc].
      intros m' Hm'. apply Hv. apply list_elem_of_further, Hm'.
Qed.

Lemma find_wins_Some b p m :
  m ∈ valid_moves b -> wins b p m = true ->
  exists m', find (wins b p) (valid_moves b) = Some m'
             /\ m' ∈ valid_moves b /\ wins b p m' = true.
Proof.
  intros Hm Hw. destruct (find (wins b p) (valid_moves b)) as [m'|] eqn:E.
  - apply find_some in E as [Hin Hw']. exists m'.
    split; [reflexivity|]. split; [apply list_elem_of_In, Hin | exact Hw'].
  - pose proof (find_none _ _ E m (proj1 (list_elem_of_In _ _) Hm)). congruence.
Qed.

Lemma find_wins_None b p :
  (forall m, m ∈ valid_moves b -> wins b p m = false) ->
  find (wins b p) (valid_moves b) = None.
Proof.
  intros H. destruct (find (wins b p) (valid_moves b)) as [m'|] eqn:E;
    [|reflexivity].
  apply find_some in E as [Hin Hw].
  rewrite (H m' (proj2 (list_elem_of_In _ _) Hin)) in Hw. discriminate.
Qed.

Lemma minimax_aux_unfold fuel b player depth alpha beta max_depth rng :
  minimax_aux (S fuel) b player depth alpha beta max_depth rng =
  let round_num := Z.of_nat (round_number b) in
  if (round_num =? Z.of_nat MAX_ROUNDS)%Z then Ok (0%Z, None, b, rng)
  else
    let moves := valid_moves b in
    do (score, m, b) <-
      can_win_next_move b player (Some moves) (Some round_num);
    if truthy score then Ok (default 0%Z score, m, b, rng)
    else
      let max_score := ((Z.of_nat MAX_ROUNDS - (round_num + 1)) / 2)%Z in
      let beta := if (beta >? max_score)%Z then max_score else beta in
      if (alpha >=? beta)%Z then Ok (beta, None, b, rng)
      else if (depth >? max_depth)%Z then
        do (s, mv, rng) <- mc_simulation b player rng;
        Ok (s, mv, b, rng)
      else
        search_loop
          (fun b' alpha' beta' rng' =>
             minimax_aux fuel b' (- player)%Z (depth + 1)%Z alpha' beta'
                         MAX_DEPTH rng')
          SEARCH_ORDER moves b player alpha beta None rng.
Proof. reflexivity. Qed.

Lemma minimax_aux_not_full fuel b p depth alpha beta max_depth rng :
  shape b = true -> gravity b = true -> p <> 0%Z ->
  round_number b < MAX_ROUNDS ->
  minimax_aux (S fuel) b p depth alpha beta max_depth rng =
  match find (wins b p) (valid_moves b) with
  | Some m => Ok (win_score b, Some m, b, rng)
  | None =>
      let beta' := if (beta >? max_score b)%Z then max_score b else beta in
      if (alpha >=? beta')%Z then Ok (beta', None, b, rng)
      else if (depth >? max_depth)%Z then
        do (s, mv, rng) <- mc_simulation b p rng; Ok (s, mv, b, rng)
      else
        search_loop
          (fun b' alpha' beta' rng' =>
             minimax_aux fuel b' (- p)%Z (depth + 1)%Z alpha' beta' MAX_DEPTH
                         rng')
          SEARCH_ORDER (valid_moves b) b p alpha beta' None rng
  end.
Proof.
  intros Hs Hg Hp Hr. pose proof (win_score_pos b Hr) as Hpos.
  rewrite minimax_aux_unfold. cbv zeta.
  destruct (Z.eqb_spec (Z.of_nat (round_number b)) (Z.of_nat MAX_ROUNDS));
    [lia|].
  unfold can_win_next_move.
  rewrite (can_win_loop_find b p _ (valid_moves b) Hs Hg Hp);
    [|auto|fold (win_score b); lia].
  fold (win_score b). fold (max_score b).
  destruct (find (wins b p) (valid_moves b)) as [m|]; cbn [bind truthy default].
  - destruct (Z.eqb_spec (win_score b) 0); [lia | reflexivity].
  - reflexivity.
Qed.

(** C4. When [player] can complete a four-in-a-row with a legal move, on a
    board under gravity, [minimax] returns a legal winning move together
    with the score (MAX_ROUNDS - (round_number - 1)) // 2, whatever alpha,
    beta, depth and max_depth are.  The answer needs no recursive call (it
    is already that of the model with fuel for a single call); the board and
    the random source are left as they were. *)
Theorem minimax_win_in_one (b : Board) (player depth alpha beta max_depth : Z)
  (rng : Rng) (m : nat) :
  shape b = true -> gravity b = true -> is_player player ->
  m ∈ valid_moves b -> wins b player m = true ->
  exists m',
    m' ∈ valid_moves b /\ wins b player m' = true
    /\ minimax b player depth alpha beta max_depth rng
       = Ok (((Z.of_nat MAX_ROUNDS - (Z.of_nat (round_number b) - 1)) / 2)%Z,
             Some m', b, rng)
    /\ minimax_aux 1 b player depth alpha beta max_depth rng
       = minimax b player depth alpha beta max_depth rng.
Proof.
  intros Hs Hg Hp Hm Hw.
  pose proof (valid_moves_round_number b m Hs Hm) as Hr.
  destruct (find_wins_Some b player m Hm Hw) as (m' & Hf & Hin & Hw').
  exists m'. split; [exact Hin|]. split; [exact Hw'|].
  unfold minimax.
  rewrite !(minimax_aux_not_full _ b player) by auto using player_nonzero.
  rewrite Hf. split; reflexivity.
Qed.

Lemma minimax_win_in_one_witness :
  exists m',
    m' ∈ valid_moves open_three_board
    /\ wins open_three_board 1 m' = true
    /\ minimax open_three_board 1 1 (-1000) 1000 MAX_DEPTH []
       = Ok (((Z.of_nat MAX_ROUNDS
               - (Z.of_nat (round_number open_three_board) - 1)) / 2)%Z,
             Some m', open_three_board, [])
    /\ minimax_aux 1 open_three_board 1 1 (-1000) 1000 MAX_DEPTH []
       = minimax open_three_board 1 1 (-1000) 1000 MAX_DEPTH [].
Proof.
  apply (minimax_win_in_one open_three_board 1 1 (-1000) 1000 MAX_DEPTH [] 5).
  - reflexivity.
  - reflexivity.
  - left. reflexivity.
  - vm_compute. apply list_elem_of_In. simpl. tauto.
  - vm_compute. reflexivity.
Defined.

(** C5. On a board under gravity that is not full and on which [player]
    has no winning move, [minimax] replaces beta by
    (MAX_ROUNDS - (round_number + 1)) // 2 when beta exceeds it.  If
    alpha >= beta then holds it returns (beta, None) at once, with no
    candidate move tried: no recursive call, board and random source
    untouched.  Otherwise the search goes on with the clipped beta. *)
Theorem minimax_clip_and_prune (b : Board) (player depth alpha beta
  max_depth : Z) (rng : Rng) :
  shape b = true -> gravity b = true -> is_player player ->
  round_number b <> MAX_ROUNDS ->
  (forall m, m ∈ valid_moves b -> wins b player m = false) ->
  let bound :=
    ((Z.of_nat MAX_ROUNDS - (Z.of_nat (round_number b) + 1)) / 2)%Z in
  let beta' := if (beta >? bound)%Z then bound else beta in
  ((alpha >= beta')%Z ->
   minimax b player depth alpha beta max_depth rng = Ok (beta', None, b, rng)
   /\ minimax_aux 1 b player depth alpha beta max_depth rng
      = Ok (beta', None, b, rng))
  /\ ((alpha < beta')%Z ->
      forall fuel,
        minimax_aux (S fuel) b player depth alpha beta max_depth rng =
        if (depth >? max_depth)%Z then
          do (s, mv, rng) <- mc_simulation b player rng; Ok (s, mv, b, rng)
        else
          search_loop
            (fun b' alpha' beta'' rng' =>
               minimax_aux fuel b' (- player)%Z (depth + 1)%Z alpha' beta''
                           MAX_DEPTH rng')
            SEARCH_ORDER (valid_moves b) b player alpha beta' None rng).
Proof.
  intros Hs Hg Hp Hnf Hnw bound beta'.
  pose proof (round_number_le b Hs) as Hle.
  assert (round_number b < MAX_ROUNDS) as Hr by lia.
  pose proof (find_wins_None b player Hnw) as Hf.
  split.
  - intros Ha. unfold minimax.
    rewrite !(minimax_aux_not_full _ b player) by auto using player_nonzero.
    rewrite Hf. cbv zeta. unfold max_score. fold bound. fold beta'.
    destruct (Z.geb_spec alpha beta'); [split; reflexivity | lia].
  - intros Ha fuel.
    rewrite (minimax_aux_not_full _ b player) by auto using player_nonzero.
    rewrite Hf. cbv zeta. unfold max_score. fold bound. fold beta'.
    destruct (Z.geb_spec alpha beta'); [lia | reflexivity].
Qed.

Lemma minimax_clip_and_prune_witness :
  let bound :=
    ((Z.of_nat MAX_ROUNDS - (Z.of_nat (round_number two_disc_board) + 1)) / 2)%Z
  in
  let beta' := if (1000 >? bound)%Z then bound else 1000%Z in
  ((30 >= beta')%Z ->
   minimax two_disc_board 1 1 30 1000 MAX_DEPTH [7]
   = Ok (beta', None, two_disc_board, [7])
   /\ minimax_aux 1 two_disc_board 1 1 30 1000 MAX_DEPTH [7]
      = Ok (beta', None, two_disc_board, [7]))
  /\ ((30 < beta')%Z ->
      forall fuel,
        minimax_aux (S fuel) two_disc_board 1 1 30 1000 MAX_DEPTH [7] =
        if (1 >? MAX_DEPTH)%Z then
          do (s, mv, rng) <- mc_simulation two_disc_board 1 [7];
          Ok (s, mv, two_disc_board, rng)
        else
          search_loop
            (fun b' alpha' beta'' rng' =>
               minimax_aux fuel b' (- 1)%Z (1 + 1)%Z alpha' beta'' MAX_DEPTH rng')
            SEARCH_ORDER (valid_moves two_disc_board) two_disc_board 1 30 beta'
            None [7]).
Proof.
  apply (minimax_clip_and_prune two_disc_board 1 1 30 1000 MAX_DEPTH [7]).
  - reflexivity.
  - reflexivity.
  - left. reflexivity.
  - vm_compute. lia.
  - intros m Hm. apply list_elem_of_In in Hm. vm_compute in Hm.
    repeat (destruct Hm as [<- | Hm]; [vm_compute; reflexivity|]).
    contradiction.
Defined.

(** *** The search leaves the board as it was *)

Lemma valid_moves_nonempty b :
  shape b = true -> gravity b = true -> round_number b <> MAX_ROUNDS ->
  valid_moves b <> [].
Proof.
  intros Hs Hg Hr Hv. apply Hr. apply no_valid_moves_full; assumption.
Qed.

(** A playout of the leaf evaluator ends within the fuel left by the empty
    cells. *)
Lemma mc_playout_total fuel : forall tb mv tp p rng,
  shape tb = true -> gravity tb = true -> tp <> 0%Z -> mv ∈ valid_moves tb ->
  MAX_ROUNDS - round_number tb <= fuel ->
  exists s rng', mc_playout fuel tb mv tp p rng = Ok (s, rng').
Proof.
  induction fuel as [|fuel IH]; intros tb mv tp p rng Hs Hg Htp Hmv Hf;
    pose proof (valid_moves_round_number tb mv Hs Hmv) as Hlt; [lia|].
  destruct (play_valid tb mv tp Hs Hmv) as (col & i & _ & _ & Hplay).
  pose proof (play_shape _ _ _ _ Hs Hplay) as Hs'.
  pose proof (play_gravity _ _ _ _ Hg Htp Hplay) as Hg'.
  pose proof (play_round_number _ _ _ _ Htp Hplay) as Hr'.
  cbn [mc_playout]. rewrite Hplay. cbn [bind].
  destruct (Nat.eqb_spec (round_number (<[mv := <[i := tp]> col]> tb)) MAX_ROUNDS)
    as [E|E]; [eauto|].
  destruct (four_in_a_row _ tp); [eauto|].
  destruct (random_choice_elem _ rng (valid_moves_nonempty _ Hs' Hg' E))
    as (x & -> & Hx).
  cbn [bind]. apply IH; auto; lia.
Qed.

Lemma mc_simulation_loop_total n : forall b p best_score best_move rng,
  shape b = true -> gravity b = true -> p <> 0%Z ->
  round_number b <> MAX_ROUNDS ->
  exists s mv rng',
    mc_simulation_loop n b p best_score best_move rng = Ok (s, mv, rng').
Proof.
  induction n as [|n IH]; intros b p bs bm rng Hs Hg Hp Hr;
    cbn [mc_simulation_loop]; [eauto|].
  destruct (random_choice_elem _ rng (valid_moves_nonempty _ Hs Hg Hr))
    as (x & -> & Hx).
  cbn [bind].
  destruct (mc_playout_total MAX_ROUNDS b x p p (snd (draw rng)) Hs Hg Hp Hx
              ltac:(lia)) as (s & rng' & ->).
  cbn [bind]. destruct (s >? bs)%Z; apply IH; auto.
Qed.

Lemma mc_simulation_total b p rng :
  shape b = true -> gravity b = true -> p <> 0%Z ->
  round_number b <> MAX_ROUNDS ->
  exists s mv rng', mc_simulation b p rng = Ok (s, mv, rng').
Proof. intros. apply mc_simulation_loop_total; assumption. Qed.

(** The move loop gives the board back when every recursive call does. *)
Lemma search_loop_frame
  (rec : Board -> Z -> Z -> Rng -> result (Z * option nat * Board * Rng))
  (b : Board) (p beta : Z) (moves : list nat) :
  shape b = true -> gravity b = true -> p <> 0%Z ->
  (forall m, m ∈ moves -> m ∈ valid_moves b) ->
  (forall b' a be r,
     shape b' = true -> gravity b' = true ->
     round_number b' = S (round_number b) ->
     exists s m r', rec b' a be r = Ok (s, m, b', r')) ->
  forall order alpha best rng,
  exists s m rng',
    search_loop rec order moves b p alpha beta best rng = Ok (s, m, b, rng').
Proof.
  intros Hs Hg Hp Hv Hrec order.
  induction order as [|m rest IH]; intros alpha best rng; cbn [search_loop];
    [eauto|].
  case_bool_decide as Hm; [|apply IH].
  destruct (play_valid b m p Hs (Hv m Hm)) as (col & i & _ & _ & Hplay).
  rewrite Hplay. cbn [bind].
  destruct (Hrec _ (- beta)%Z (- alpha)%Z rng
              (play_shape _ _ _ _ Hs Hplay) (play_gravity _ _ _ _ Hg Hp Hplay)
              (play_round_number _ _ _ _ Hp Hplay)) as (s & m' & r' & ->).
  cbn [bind]. rewrite (play_take_back _ _ _ _ Hg Hp Hplay). cbn [bind].
  destruct (- s >=? beta)%Z; [eauto|].
  destruct (- s >? alpha)%Z; apply IH.
Qed.

Lemma minimax_aux_frame fuel : forall b p depth alpha beta max_depth rng,
  shape b = true -> gravity b = true -> is_player p ->
  MAX_ROUNDS - round_number b < fuel ->
  exists s m rng',
    minimax_aux fuel b p depth alpha beta max_depth rng = Ok (s, m, b, rng').
Proof.
  induction fuel as [|fuel IH]; intros b p depth alpha beta max_depth rng
    Hs Hg Hp Hf; [lia|].
  pose proof (round_number_le b Hs) as Hle.
  destruct (decide (round_number b = MAX_ROUNDS)) as [E|E].
  - rewrite minimax_aux_unfold. cbv zeta. rewrite E, Z.eqb_refl. eauto.
  - rewrite (minimax_aux_not_full _ b p) by (auto using player_nonzero; lia).
    destruct (find (wins b p) (valid_moves b)); [eauto|]. cbv zeta.
    destruct (alpha >=? _)%Z; [eauto|].
    destruct (depth >? max_depth)%Z.
    + destruct (mc_simulation_total b p rng Hs Hg (player_nonzero _ Hp) E)
        as (s & mv & rng' & ->). cbn [bind]. eauto.
    + apply search_loop_frame; auto using player_nonzero.
      intros b' a be r Hs' Hg' Hr'.
      apply IH; auto using is_player_opp. lia.
Qed.

(** C9. On a board under gravity, for both players and all depths and
    bounds, [minimax] returns, and the board it leaves is exactly the board
    it was given: every [play] of the trial loop and of the move loop is
    undone by its [take_back] on each return path. *)
Theorem minimax_leaves_board_unchanged (b : Board) (player depth alpha beta
  max_depth : Z) (rng : Rng) :
  shape b = true -> gravity b = true -> is_player player ->
  exists s m rng',
    minimax b player depth alpha beta max_depth rng = Ok (s, m, b, rng').
Proof.
  intros Hs Hg Hp. unfold minimax. apply minimax_aux_frame; auto. lia.
Qed.

Lemma minimax_leaves_board_unchanged_witness :
  exists s m rng',
    minimax open_three_board (-1) 1 (-1000) 1000 MAX_DEPTH [4; 1; 6]
    = Ok (s, m, open_three_board, rng').
Proof.
  apply (minimax_leaves_board_unchanged open_three_board (-1) 1 (-1000) 1000
           MAX_DEPTH [4; 1; 6]).
  - reflexivity.
  - reflexivity.
  - right. reflexivity.
Defined.

(** ** MCTS *)

Section MCTS_properties.
Context {SC : Scoring}.

Lemma max_from_elem {A} (key : A -> result score) : forall l best kbest,
  (forall x, x ∈ l -> exists k, key x = Ok k) ->
  exists x, max_from key best kbest l = Ok x /\ (x = best \/ x ∈ l).
Proof.
  induction l as [|y l IH]; intros best kbest Hk; cbn [max_from].
  - eauto.
  - destruct (Hk y (list_elem_of_here _ _)) as [k ->]. cbn [bind].
    assert (forall x, x ∈ l -> exists k, key x = Ok k) as Hk'.
    { intros x Hx. apply Hk, list_elem_of_further, Hx. }
    destruct (score_gt k kbest).
    + destruct (IH y k Hk') as (x & -> & [-> | Hx]); eexists; split; eauto.
      * right. apply list_elem_of_here.
      * right. apply list_elem_of_further, Hx.
    + destruct (IH best kbest Hk') as (x & -> & [-> | Hx]); eexists; split; eauto.
      right. apply list_elem_of_further, Hx.
Qed.

(** [max] over a sequence that is not empty, with keys that do not raise,
    returns one of its elements. *)
Lemma py_max_elem {A} (key : A -> result score) (l : list A) :
  l <> [] -> (forall x, x ∈ l -> exists k, key x = Ok k) ->
  exists x, py_max key l = Ok x /\ x ∈ l.
Proof.
  intros Hl Hk. destruct l as [|y l]; [contradiction|]. cbn [py_max].
  destruct (Hk y (list_elem_of_here _ _)) as [k ->]. cbn [bind].
  destruct (max_from_elem key l y k) as (x & -> & [-> | Hx]).
  - intros x Hx. apply Hk, list_elem_of_further, Hx.
  - eexists. split; [reflexivity | apply list_elem_of_here].
  - eexists. split; [reflexivity | apply list_elem_of_further, Hx].
Qed.

Lemma list_remove_elem x : forall l,
  x ∈ l ->
  exists rest, list_remove x l = Ok rest /\ forall y, y ∈ rest -> y ∈ l.
Proof.
  induction l as [|y l IH]; intros Hx; [inversion Hx|]. cbn [list_remove].
  destruct (Nat.eqb_spec x y) as [->|Hne].
  - exists l. split; [reflexivity|]. intros z Hz. apply list_elem_of_further, Hz.
  - assert (x ∈ l) as Hx'.
    { apply elem_of_cons in Hx as [?|?]; [contradiction | assumption]. }
    destruct (IH Hx') as (rest & -> & Hsub). cbn [bind].
    eexists. split; [reflexivity|]. intros z Hz.
    apply elem_of_cons in Hz as [->|Hz].
    + apply list_elem_of_here.
    + apply list_elem_of_further, Hsub, Hz.
Qed.

Lemma simulate_loop_unfold fuel b p rng :
  valid_moves b <> [] ->
  Node.simulate_loop (S fuel) b p rng =
  (do (mv, rng) <- random_choice (valid_moves b) rng;
   do b <- play b mv p;
   if four_in_a_row b p then Ok (p, rng)
   else Node.simulate_loop fuel b (- p)%Z rng).
Proof.
  intros H. cbn [Node.simulate_loop].
  destruct (valid_moves b); [contradiction | reflexivity].
Qed.

Lemma simulate_loop_empty fuel b p rng :
  valid_moves b = [] -> Node.simulate_loop fuel b p rng = Ok (0%Z, rng).
Proof. intros H. destruct fuel; cbn [Node.simulate_loop]; rewrite H; reflexivity. Qed.

(** A rollout ends within the fuel left by the empty cells. *)
Lemma simulate_loop_total fuel : forall b p rng,
  shape b = true -> p <> 0%Z -> MAX_ROUNDS - round_number b <= fuel ->
  exists w rng', Node.simulate_loop fuel b p rng = Ok (w, rng').
Proof.
  induction fuel as [|fuel IH]; intros b p rng Hs Hp Hf;
    (destruct (decide (valid_moves b = [])) as [E|E];
     [rewrite (simulate_loop_empty _ _ _ _ E); eauto|]);
    pose proof (valid_moves_nonempty_lt b Hs E) as Hlt; [lia|].
  rewrite (simulate_loop_unfold _ _ _ _ E).
  destruct (random_choice_elem (valid_moves b) rng E) as (c & -> & Hc).
  destruct (play_valid b c p Hs Hc) as (col & i & _ & _ & Hplay).
  cbn [bind]. rewrite Hplay. cbn [bind].
  pose proof (play_shape _ _ _ _ Hs Hplay) as Hs'.
  pose proof (play_round_number _ _ _ _ Hp Hplay) as Hr.
  destruct (four_in_a_row _ p); [eauto|].
  apply IH; [exact Hs' | lia | lia].
Qed.

Lemma heap_ok_node b pending h a n :
  heap_ok b pending h -> h !! a = Some n -> node_ok h a n.
Proof. intros [_ H] Ha. apply (H a n Ha). Qed.

Lemma heap_ok_visited b h a n :
  heap_ok b None h -> h !! a = Some n -> a <> 0 ->
  (1 <= Node.num_visits n)%Z.
Proof. intros [_ H] Ha Hne. apply (H a n Ha); [exact Hne | discriminate]. Qed.

Lemma deref_Some (h : Heap) a n : h !! a = Some n -> Node.deref h a = Ok n.
Proof. unfold Node.deref. intros ->. reflexivity. Qed.

(** On a well-formed heap the UCB1 key of a child is defined. *)
Lemma UCB1_child b h a n c :
  heap_ok b None h -> h !! a = Some n -> c ∈ Node.childs n ->
  exists k, Node.UCB1 h c = Ok k.
Proof.
  intros Hok Ha Hc.
  destruct (heap_ok_node _ _ _ _ _ Hok Ha) as (_ & _ & _ & Hch & _).
  destruct (Hch c Hc) as (Hlt & nc & Hnc & Hpa & _).
  pose proof (heap_ok_visited _ _ _ _ Hok Hnc ltac:(lia)) as Hv.
  unfold Node.UCB1. rewrite (deref_Some _ _ _ Hnc). cbn [bind].
  destruct (Z.eqb_spec (Node.num_visits nc) 0); [lia|].
  rewrite Hpa, (deref_Some _ _ _ Ha). cbn [bind]. eauto.
Qed.

Lemma win_rate_child b h a n c :
  heap_ok b None h -> h !! a = Some n -> c ∈ Node.childs n ->
  exists k, win_rate h c = Ok k.
Proof.
  intros Hok Ha Hc.
  destruct (heap_ok_node _ _ _ _ _ Hok Ha) as (_ & _ & _ & Hch & _).
  destruct (Hch c Hc) as (Hlt & nc & Hnc & Hpa & _).
  pose proof (heap_ok_visited _ _ _ _ Hok Hnc ltac:(lia)) as Hv.
  unfold win_rate. rewrite (deref_Some _ _ _ Hnc). cbn [bind].
  destruct (Z.eqb_spec (Node.num_visits nc) 0); [lia | eauto].
Qed.

(** The selection loop stops at a node of the heap; from a node without
    children it does not move. *)
Lemma descend_ok b h fuel : forall a n,
  heap_ok b None h -> h !! a = Some n -> length h <= fuel + a ->
  exists k nk, descend fuel h a = Ok k /\ h !! k = Some nk
               /\ (Node.childs n = [] -> k = a).
Proof.
  induction fuel as [|fuel IH]; intros a n Hok Ha Hf;
    pose proof (lookup_lt_Some _ _ _ Ha) as Hlt; [simpl in Hf; lia|].
  cbn [descend]. rewrite (deref_Some _ _ _ Ha). cbn [bind].
  destruct (negb (length (Node.childs n) =? 0)
            && (length (Node.next_moves n) =? 0)) eqn:Hcond.
  - apply andb_prop in Hcond as [Hch _].
    assert (Node.childs n <> []) as Hne.
    { intros E. rewrite E in Hch. discriminate. }
    unfold Node.selection. rewrite (deref_Some _ _ _ Ha). cbn [bind].
    destruct (py_max_elem (Node.UCB1 h) (Node.childs n) Hne) as (c & -> & Hc).
    { intros x Hx. eapply UCB1_child; eauto. }
    cbn [bind].
    destruct (heap_ok_node _ _ _ _ _ Hok Ha) as (_ & _ & _ & Hchs & _).
    destruct (Hchs c Hc) as (Hac & nc & Hnc & _).
    destruct (IH c nc Hok Hnc ltac:(lia)) as (k & nk & -> & Hk & _).
    exists k, nk. split; [reflexivity|]. split; [exact Hk | contradiction].
  - exists a, n. auto.
Qed.


Lemma same_static_refl n : same_static n n.
Proof. repeat split. Qed.

Lemma same_tree_refl h : same_tree h h.
Proof. intros c nc H. exists nc. auto using same_static_refl. Qed.

Lemma same_tree_trans h1 h2 h3 :
  same_tree h1 h2 -> same_tree h2 h3 -> same_tree h1 h3.
Proof.
  intros H12 H23 c nc H.
  destruct (H12 c nc H) as (n2 & H2 & (E1 & E2 & E3 & E4) & Ec).
  destruct (H23 c n2 H2) as (n3 & H3 & (F1 & F2 & F3 & F4) & Fc).
  exists n3. split; [exact H3|]. split; [|congruence].
  repeat split; congruence.
Qed.

Lemma same_tree_ext h h' : same_tree h h' -> heap_ext h h'.
Proof. intros H c nc Hc. destruct (H c nc Hc) as (n' & ? & ? & _). eauto. Qed.

Lemma same_tree_grow h h' : same_tree h h' -> childs_grow h h'.
Proof.
  intros H c nc Hc. destruct (H c nc Hc) as (n' & ? & _ & E).
  exists n'. split; [assumption | congruence].
Qed.

Lemma same_tree_insert (h : Heap) a n n' :
  h !! a = Some n -> same_static n n' -> Node.childs n' = Node.childs n ->
  same_tree h (<[a := n']> h).
Proof.
  intros Ha Hst Hch c nc Hc. destruct (decide (c = a)) as [->|Hne].
  - rewrite list_lookup_insert_eq by (eapply lookup_lt_Some; eauto).
    exists n'. assert (nc = n) as -> by congruence. auto.
  - rewrite list_lookup_insert_ne by congruence.
    exists nc. auto using same_static_refl.
Qed.

Lemma child_ok_ext h h' a n n2 c :
  child_ok h a n c -> heap_ext h h' -> Node.board n = Node.board n2 ->
  child_ok h' a n2 c.
Proof.
  intros (Hlt & nc & Hnc & Hpa & m & Hm & Hin) Hext Hb.
  destruct (Hext c nc Hnc) as (nc' & Hnc' & _ & _ & Epa & Emv).
  split; [exact Hlt|]. exists nc'. split; [exact Hnc'|].
  split; [congruence|]. exists m. split; [congruence|]. rewrite <- Hb. exact Hin.
Qed.

Lemma node_ok_ext h h' a n n2 :
  node_ok h a n -> heap_ext h h' -> same_static n n2 ->
  (forall m, m ∈ Node.next_moves n2 -> m ∈ Node.next_moves n) ->
  (forall c, c ∈ Node.childs n2 -> c ∈ Node.childs n \/ child_ok h' a n2 c) ->
  stats_ok n2 ->
  node_ok h' a n2.
Proof.
  intros (Hs & Hp & Hnx & Hch & Hpa & _) Hext (Eb & Ep & Epa & Emv) Hnx2 Hch2 Hst.
  unfold node_ok. split; [|split; [|split; [|split; [|split]]]].
  - rewrite <- Eb. exact Hs.
  - rewrite <- Ep. exact Hp.
  - intros m Hm. rewrite <- Eb. apply Hnx, Hnx2, Hm.
  - intros c Hc. destruct (Hch2 c Hc) as [Hold | Hnew]; [|exact Hnew].
    eapply child_ok_ext; eauto.
  - intros pa Hpa2. apply Hpa. congruence.
  - exact Hst.
Qed.

(** Rewriting the counters of one node keeps the heap well formed, and
    settles the pending child when it is that node. *)
Lemma heap_ok_update_stats b pending h a n n' :
  heap_ok b pending h -> h !! a = Some n ->
  (pending = None \/ pending = Some a) ->
  same_static n n' -> Node.childs n' = Node.childs n ->
  Node.next_moves n' = Node.next_moves n ->
  stats_ok n' -> (1 <= Node.num_visits n')%Z ->
  heap_ok b None (<[a := n']> h).
Proof.
  intros Hok Ha Hpend Hst Hch Hnx Hstats Hv.
  pose proof (same_tree_ext _ _ (same_tree_insert h a n n' Ha Hst Hch)) as Hext.
  pose proof (lookup_lt_Some _ _ _ Ha) as Hlt.
  destruct Hok as [(r & Hr & Hrb) Hall]. split.
  - destruct (Hext 0 r Hr) as (r' & Hr' & Eb & _). exists r'.
    split; [exact Hr' | congruence].
  - intros c nc Hc. destruct (decide (c = a)) as [->|Hne].
    + rewrite list_lookup_insert_eq in Hc by exact Hlt.
      injection Hc as <-. split; [|intros _ _; exact Hv].
      apply (node_ok_ext h _ a n n'); auto.
      * apply (Hall a n Ha).
      * intros m. rewrite Hnx. auto.
      * intros ch. rewrite Hch. auto.
    + rewrite list_lookup_insert_ne in Hc by congruence.
      destruct (Hall c nc Hc) as [Hnode Hvis]. split.
      * apply (node_ok_ext h _ c nc nc); auto using same_static_refl.
        apply Hnode.
      * intros Hc0 _. apply Hvis; [exact Hc0|].
        destruct Hpend as [-> | ->]; congruence.
Qed.

Lemma backpropagate_loop_unfold fuel (h : Heap) a n winner :
  h !! a = Some n ->
  Node.backpropagate_loop (S fuel) h (Some a) winner =
  Node.backpropagate_loop fuel
    (<[a := Node.mk (Node.board n) (Node.player n) (Node.parent n) (Node.move n)
                    (Node.num_visits n + 1)%Z
                    (if (winner =? 0)%Z then (Node.num_wins n + (1 # 2))%Q
                     else if (winner =? Node.player n)%Z
                          then (Node.num_wins n + 1)%Q
                          else Node.num_wins n)
                    (Node.childs n) (Node.next_moves n)]> h)
    (Node.parent n) winner.
Proof.
  intros Ha. cbn [Node.backpropagate_loop]. rewrite (deref_Some _ _ _ Ha).
  reflexivity.
Qed.

Lemma stats_ok_step n winner :
  stats_ok n ->
  stats_ok (Node.mk (Node.board n) (Node.player n) (Node.parent n) (Node.move n)
              (Node.num_visits n + 1)%Z
              (if (winner =? 0)%Z then (Node.num_wins n + (1 # 2))%Q
               else if (winner =? Node.player n)%Z
                    then (Node.num_wins n + 1)%Q
                    else Node.num_wins n)
              (Node.childs n) (Node.next_moves n)).
Proof.
  intros (Hv & H0 & Hle). unfold stats_ok. cbn [Node.num_visits Node.num_wins].
  rewrite inject_Z_plus. change (inject_Z 1) with 1%Q.
  split; [lia|].
  destruct (winner =? 0)%Z; [split; lra|].
  destruct (winner =? Node.player n)%Z; split; lra.
Qed.

(** [backpropagate] walks up to the root within the fuel given by the
    address of the node it starts from; it changes counters only. *)
Lemma backpropagate_loop_ok b winner fuel : forall h a n pending,
  heap_ok b pending h -> h !! a = Some n -> a < fuel ->
  (pending = None \/ pending = Some a) ->
  exists h', Node.backpropagate_loop fuel h (Some a) winner = Ok h'
             /\ heap_ok b None h' /\ same_tree h h'.
Proof.
  induction fuel as [|fuel IH]; intros h a n pending Hok Ha Hf Hpend; [lia|].
  rewrite (backpropagate_loop_unfold _ _ _ _ _ Ha).
  set (n' := Node.mk _ _ _ _ _ _ _ _).
  destruct (heap_ok_node _ _ _ _ _ Hok Ha) as (_ & _ & _ & _ & Hpa & Hst).
  assert (heap_ok b None (<[a := n']> h)) as Hok'.
  { apply (heap_ok_update_stats b pending h a n n'); auto.
    - repeat split.
    - apply stats_ok_step, Hst.
    - subst n'. cbn [Node.num_visits]. destruct Hst as [Hv _]. lia. }
  assert (same_tree h (<[a := n']> h)) as Htree.
  { apply (same_tree_insert h a n n' Ha); repeat split. }
  destruct (Node.parent n) as [pa|] eqn:Epa.
  - specialize (Hpa pa eq_refl).
    destruct (lookup_lt_is_Some_2 (<[a := n']> h) pa) as [npa Hnpa].
    { rewrite length_insert. pose proof (lookup_lt_Some _ _ _ Ha). lia. }
    destruct (IH _ pa npa None Hok' Hnpa ltac:(lia) ltac:(auto))
      as (h' & -> & Hok2 & Htree2).
    exists h'. split; [reflexivity|]. split; [exact Hok2|].
    eapply same_tree_trans; eauto.
  - exists (<[a := n']> h). split; [destruct fuel; reflexivity|]. auto.
Qed.

Lemma backpropagate_ok b winner h a n pending :
  heap_ok b pending h -> h !! a = Some n ->
  (pending = None \/ pending = Some a) ->
  exists h', Node.backpropagate h a winner = Ok h'
             /\ heap_ok b None h' /\ same_tree h h'.
Proof.
  intros Hok Ha Hpend. unfold Node.backpropagate.
  eapply backpropagate_loop_ok; eauto. eapply lookup_lt_Some; eauto.
Qed.


Lemma expand_lookup_old (h : Heap) k n n' child c nc :
  h !! k = Some n -> h !! c = Some nc ->
  (<[k := n']> h ++ [child]) !! c = Some (if decide (c = k) then n' else nc).
Proof.
  intros Hk Hc. pose proof (lookup_lt_Some _ _ _ Hc) as Hlt.
  rewrite lookup_app_l by (rewrite length_insert; exact Hlt).
  destruct (decide (c = k)) as [->|Hne].
  - apply list_lookup_insert_eq. exact Hlt.
  - rewrite list_lookup_insert_ne by congruence. exact Hc.
Qed.

Lemma expand_lookup_new (h : Heap) k (n' child : Node.t) :
  (<[k := n']> h ++ [child]) !! length h = Some child.
Proof.
  rewrite lookup_app_r by (rewrite length_insert; lia).
  rewrite length_insert, Nat.sub_diag. reflexivity.
Qed.

(** [expand] on an untried move of a node allocates the child at the end of
    the heap; the heap stays well formed, with that child pending. *)
Lemma expand_ok b h k n mv :
  heap_ok b None h -> h !! k = Some n -> mv ∈ Node.next_moves n ->
  exists h',
    Node.expand h k mv = Ok (h', length h)
    /\ heap_ok b (Some (length h)) h'
    /\ (exists nc, h' !! length h = Some nc)
    /\ childs_grow h h'
    /\ (exists nk, h' !! k = Some nk /\ Node.childs nk <> []).
Proof.
  intros Hok Hk Hmv.
  pose proof (heap_ok_node _ _ _ _ _ Hok Hk) as Hnode.
  destruct Hnode as (Hs & Hp & Hnx & Hch & Hpa & Hst).
  destruct (play_valid _ mv (- Node.player n)%Z Hs (Hnx mv Hmv))
    as (col & i & _ & _ & Hplay).
  destruct (list_remove_elem mv _ Hmv) as (rest & Hrm & Hsub).
  unfold Node.expand. rewrite (deref_Some _ _ _ Hk). cbn [bind].
  rewrite Hplay. cbn [bind]. rewrite Hrm. cbn [bind].
  set (nb := <[mv := <[i := (- Node.player n)%Z]> col]> (Node.board n)) in *.
  set (n' := Node.mk _ _ _ _ _ _ _ _).
  set (child := Node.init _ _ _ _).
  set (h' := <[k := n']> h ++ [child]).
  assert (same_static n n') as Hstat by (repeat split).
  assert (heap_ext h h') as Hext.
  { intros c nc Hc. subst h'. rewrite (expand_lookup_old h k n n' child c nc Hk Hc).
    eexists. split; [reflexivity|]. destruct (decide (c = k)) as [->|Hne].
    - assert (nc = n) as -> by congruence. exact Hstat.
    - apply same_static_refl. }
  pose proof (lookup_lt_Some _ _ _ Hk) as Hklt.
  exists h'. split; [reflexivity|]. split; [|split; [|split]].
  - destruct Hok as [(r & Hr & Hrb) Hall]. split.
    + destruct (Hext 0 r Hr) as (r' & Hr' & Eb & _). exists r'.
      split; [exact Hr' | congruence].
    + intros c nc' Hc.
      destruct (h !! c) as [nc|] eqn:Hold.
      * subst h'. rewrite (expand_lookup_old h k n n' child c nc Hk Hold) in Hc.
        injection Hc as <-. destruct (decide (c = k)) as [->|Hne].
        -- assert (nc = n) as -> by congruence. split.
           ++ apply (node_ok_ext h _ k n n'); auto.
              ** apply (Hall k n Hk).
              ** intros ch Hin. subst n'. cbn [Node.childs] in Hin.
                 apply elem_of_app in Hin as [Hin | Hin]; [left; exact Hin|].
                 apply list_elem_of_singleton in Hin. subst ch. right.
                 split; [exact Hklt|]. exists child.
                 split; [apply expand_lookup_new|]. split; [reflexivity|].
                 exists mv. split; [reflexivity|]. apply Hnx, Hmv.
           ++ intros Hk0 _. apply (Hall k n Hk); [exact Hk0 | discriminate].
        -- destruct (Hall c nc Hold) as [Hnode Hvis]. split.
           ++ apply (node_ok_ext h _ c nc nc); auto using same_static_refl.
              apply Hnode.
           ++ intros Hc0 _. apply Hvis; [exact Hc0 | discriminate].
      * apply lookup_ge_None_1 in Hold.
        pose proof (lookup_lt_Some _ _ _ Hc) as Hclt. subst h'.
        rewrite length_app, length_insert in Hclt. simpl in Hclt.
        assert (c = length h) as -> by lia.
        rewrite expand_lookup_new in Hc. injection Hc as <-. split.
        -- unfold node_ok, stats_ok. subst child. unfold Node.init.
           cbn [Node.board Node.player Node.parent Node.move Node.childs
                Node.next_moves Node.num_visits Node.num_wins].
           split; [exact (play_shape _ _ _ _ Hs Hplay)|]. split; [lia|].
           split; [auto|]. split; [intros ch Hin; inversion Hin|].
           split; [intros pa [= <-]; exact Hklt|].
           split; [lia|]. split; apply Qle_refl.
        -- intros _ Hpend. contradiction.
  - exists child. apply expand_lookup_new.
  - intros c nc Hc. subst h'.
    rewrite (expand_lookup_old h k n n' child c nc Hk Hc).
    eexists. split; [reflexivity|]. destruct (decide (c = k)) as [->|Hne]; [|auto].
    intros _. subst n'. cbn [Node.childs]. intros E.
    apply app_eq_nil in E as [_ E]. discriminate.
  - exists n'. split.
    + subst h'. rewrite (expand_lookup_old h k n n' child k n Hk Hk).
      destruct (decide (k = k)); [reflexivity | contradiction].
    + subst n'. cbn [Node.childs]. intros E.
      apply app_eq_nil in E as [_ E]. discriminate.
Qed.


(** The simulation stage of an iteration gives a winner. *)
Lemma rollout_total (h : Heap) a n rng :
  h !! a = Some n -> shape (Node.board n) = true -> Node.player n <> 0%Z ->
  exists w rng',
    match terminal_state (Node.board n) with
    | Some w => Ok (w, rng)
    | None => Node.simulate h a rng
    end = Ok (w, rng').
Proof.
  intros Ha Hs Hp. destruct (terminal_state (Node.board n)); [eauto|].
  unfold Node.simulate. rewrite (deref_Some _ _ _ Ha). cbn [bind].
  apply simulate_loop_total; [exact Hs | lia | lia].
Qed.

Lemma root_child_grow h h' :
  childs_grow h h' -> root_has_child h -> root_has_child h'.
Proof.
  intros Hg (r & Hr & Hne). destruct (Hg 0 r Hr) as (r' & Hr' & Hch).
  exists r'. auto.
Qed.

(** One pass of the loop of [MCTS] completes on a well-formed heap and leaves
    a well-formed heap; the root has a child afterwards if it had one or
    had an untried move. *)
Lemma iteration_ok b h rng :
  heap_ok b None h ->
  exists h' rng',
    iteration h 0 rng = Ok (h', rng') /\ heap_ok b None h'
    /\ (root_expandable h -> root_has_child h').
Proof.
  intros Hok. pose proof Hok as [(r & Hr & _) _].
  unfold iteration.
  destruct (descend_ok b h (length h) 0 r Hok Hr ltac:(lia))
    as (k & nk & -> & Hk & Hk0).
  cbn [bind]. rewrite (deref_Some _ _ _ Hk). cbn [bind].
  destruct (0 <? length (Node.next_moves nk)) eqn:Hnm.
  - assert (Node.next_moves nk <> []) as Hne.
    { intros E. rewrite E in Hnm. discriminate. }
    destruct (random_choice_elem _ rng Hne) as (mv & -> & Hmv). cbn [bind].
    destruct (expand_ok b h k nk mv Hok Hk Hmv)
      as (h1 & -> & Hok1 & (nc & Hnc) & Hgrow & (nk' & Hnk' & Hch)).
    cbn [bind]. rewrite (deref_Some _ _ _ Hnc). cbn [bind].
    destruct (heap_ok_node _ _ _ _ _ Hok1 Hnc) as (Hs & Hp & _).
    destruct (rollout_total h1 (length h) nc (snd (draw rng)) Hnc Hs Hp)
      as (w & rng2 & ->).
    cbn [bind].
    destruct (backpropagate_ok b w h1 (length h) nc (Some (length h)) Hok1 Hnc
                ltac:(auto)) as (h2 & -> & Hok2 & Htree).
    cbn [bind]. exists h2, rng2. split; [reflexivity|]. split; [exact Hok2|].
    intros _. apply (root_child_grow h1 h2 (same_tree_grow _ _ Htree)).
    destruct (decide (Node.childs r = [])) as [E|E].
    + rewrite (Hk0 E) in Hnk'. exists nk'. auto.
    + apply (root_child_grow h h1 Hgrow). exists r. auto.
  - cbn [bind]. rewrite (deref_Some _ _ _ Hk). cbn [bind].
    destruct (heap_ok_node _ _ _ _ _ Hok Hk) as (Hs & Hp & _).
    destruct (rollout_total h k nk rng Hk Hs Hp) as (w & rng2 & ->).
    cbn [bind].
    destruct (backpropagate_ok b w h k nk None Hok Hk ltac:(auto))
      as (h2 & -> & Hok2 & Htree).
    cbn [bind]. exists h2, rng2. split; [reflexivity|]. split; [exact Hok2|].
    intros (r0 & Hr0 & Hcase).
    apply (root_child_grow h h2 (same_tree_grow _ _ Htree)).
    assert (r0 = r) as -> by congruence. exists r. split; [exact Hr|].
    intros E. destruct Hcase as [Hc | Hn]; [contradiction|].
    rewrite (Hk0 E) in Hk. assert (nk = r) as -> by congruence.
    destruct (Node.next_moves r); [contradiction | discriminate].
Qed.

Lemma root_has_child_expandable h : root_has_child h -> root_expandable h.
Proof. intros (r & Hr & Hne). exists r. auto. Qed.

Lemma iterations_ok b k : forall h rng,
  heap_ok b None h ->
  exists h' rng',
    iterations k h 0 rng = Ok (h', rng') /\ heap_ok b None h'
    /\ (root_has_child h -> root_has_child h')
    /\ (root_expandable h -> 1 <= k -> root_has_child h').
Proof.
  induction k as [|k IH]; intros h rng Hok.
  - exists h, rng. split; [reflexivity|]. split; [exact Hok|].
    split; [auto | lia].
  - cbn [iterations].
    destruct (iteration_ok b h rng Hok) as (h1 & rng1 & -> & Hok1 & Hroot1).
    cbn [bind].
    destruct (IH h1 rng1 Hok1) as (h2 & rng2 & -> & Hok2 & Hkeep & _).
    exists h2, rng2. split; [reflexivity|]. split; [exact Hok2|]. split.
    + intros Hc. apply Hkeep, Hroot1, root_has_child_expandable, Hc.
    + intros Hexp _. apply Hkeep, Hroot1, Hexp.
Qed.

Lemma initial_heap_ok b p :
  shape b = true -> is_player p ->
  heap_ok b None [Node.init b (- p)%Z None None].
Proof.
  intros Hs Hp. split.
  - eexists. split; reflexivity.
  - intros a n Ha. destruct a as [|a]; [|rewrite lookup_cons, lookup_nil in Ha; discriminate].
    injection Ha as <-. split; [|intros H; contradiction].
    unfold node_ok, stats_ok, Node.init.
    cbn [Node.board Node.player Node.parent Node.move Node.childs
         Node.next_moves Node.num_visits Node.num_wins].
    split; [exact Hs|]. split; [pose proof (player_nonzero _ Hp); lia|].
    split; [auto|]. split; [intros c Hc; inversion Hc|].
    split; [discriminate|]. split; [lia|]. split; apply Qle_refl.
Qed.


(** C8. On a board with a legal move, with an iteration budget of at least
    one, [MCTS] runs to its end without an exception and returns a column
    that is a legal move of the board it was given. *)
Theorem MCTS_returns_legal_move (b : Board) (player : Z)
  (num_iterations : nat) (rng : Rng) :
  shape b = true -> is_player player -> valid_moves b <> [] ->
  1 <= num_iterations ->
  exists m rng',
    MCTS b player num_iterations rng = Ok (Some m, rng')
    /\ m ∈ valid_moves b.
Proof.
  intros Hs Hp Hv Hn. unfold MCTS. cbv zeta.
  destruct (iterations_ok b num_iterations _ rng (initial_heap_ok b player Hs Hp))
    as (h & rng' & -> & Hok & _ & Hroot).
  cbn [bind].
  destruct Hroot as (r & Hr & Hne); [|exact Hn|].
  { eexists. split; [reflexivity|]. right. exact Hv. }
  rewrite (deref_Some _ _ _ Hr). cbn [bind].
  destruct (py_max_elem (win_rate h) (Node.childs r) Hne) as (best & -> & Hbest).
  { intros x Hx. eapply win_rate_child; eauto. }
  cbn [bind].
  destruct (heap_ok_node _ _ _ _ _ Hok Hr) as (_ & _ & _ & Hch & _).
  destruct (Hch best Hbest) as (_ & nc & Hnc & _ & m & Hm & Hin).
  rewrite (deref_Some _ _ _ Hnc). cbn [bind]. rewrite Hm.
  exists m, rng'. split; [reflexivity|].
  destruct Hok as [(r0 & Hr0 & Hb) _]. assert (r0 = r) as -> by congruence.
  rewrite <- Hb. exact Hin.
Qed.

(** C10. After any number of passes of the loop of [MCTS], every node has
    0 <= num_wins <= num_visits, and every child node has been visited at
    least once, so that its UCB1 key and its win rate are defined. *)
Theorem MCTS_counters_invariant (b : Board) (player : Z) (k : nat) (rng : Rng) :
  shape b = true -> is_player player ->
  exists h rng',
    iterations k [Node.init b (- player)%Z None None] 0 rng = Ok (h, rng')
    /\ forall a n, h !! a = Some n ->
         (0 <= Node.num_wins n)%Q
         /\ (Node.num_wins n <= inject_Z (Node.num_visits n))%Q
         /\ forall c, c ∈ Node.childs n ->
              exists nc k1 k2,
                h !! c = Some nc /\ (1 <= Node.num_visits nc)%Z
                /\ Node.UCB1 h c = Ok k1 /\ win_rate h c = Ok k2.
Proof.
  intros Hs Hp.
  destruct (iterations_ok b k _ rng (initial_heap_ok b player Hs Hp))
    as (h & rng' & Hrun & Hok & _).
  exists h, rng'. split; [exact Hrun|]. intros a n Ha.
  destruct (heap_ok_node _ _ _ _ _ Hok Ha) as (_ & _ & _ & Hch & _ & Hst).
  destruct Hst as (_ & H0 & Hle). split; [exact H0|]. split; [exact Hle|].
  intros c Hc. destruct (Hch c Hc) as (Hlt & nc & Hnc & _).
  destruct (UCB1_child b h a n c Hok Ha Hc) as [k1 Hk1].
  destruct (win_rate_child b h a n c Hok Ha Hc) as [k2 Hk2].
  exists nc, k1, k2. split; [exact Hnc|]. split; [|auto].
  apply (heap_ok_visited b h c nc Hok Hnc). lia.
Qed.

(** Without a legal move the tree never grows beyond the root, and the
    final [max] is taken over no child. *)
Lemma iterations_no_moves k : forall r rng,
  valid_moves (Node.board r) = [] -> Node.childs r = [] ->
  Node.next_moves r = [] -> Node.parent r = None ->
  exists r', iterations k [r] 0 rng = Ok ([r'], rng)
             /\ Node.childs r' = [].
Proof.
  induction k as [|k IH]; intros r rng Hv Hc Hn Hp.
  - exists r. auto.
  - cbn [iterations]. unfold iteration.
    assert (descend (length [r]) [r] 0 = Ok 0) as ->.
    { cbn [length descend]. unfold Node.deref. cbn [lookup list_lookup bind].
      rewrite Hc. reflexivity. }
    cbn [bind]. unfold Node.deref at 1. cbn [lookup list_lookup bind].
    rewrite Hn. cbn [length Nat.ltb Nat.leb bind].
    unfold Node.deref at 1. cbn [lookup list_lookup bind].
    assert (exists w,
      match terminal_state (Node.board r) with
      | Some w => Ok (w, rng)
      | None => Node.simulate [r] 0 rng
      end = Ok (w, rng)) as [w ->].
    { destruct (terminal_state (Node.board r)); [eauto|].
      unfold Node.simulate, Node.deref. cbn [lookup list_lookup bind].
      rewrite (simulate_loop_empty _ _ _ _ Hv). eauto. }
    cbn [bind]. unfold Node.backpropagate. cbn [length].
    rewrite (backpropagate_loop_unfold 0 [r] 0 r w eq_refl), Hp.
    cbn [Node.backpropagate_loop bind insert list_insert].
    apply IH;
      cbn [Node.board Node.childs Node.next_moves Node.parent]; auto.
Qed.

Lemma MCTS_no_moves (b : Board) (player : Z) (num_iterations : nat)
  (rng : Rng) :
  valid_moves b = [] -> MCTS b player num_iterations rng = Raise ValueError.
Proof.
  intros Hv. unfold MCTS. cbv zeta.
  destruct (iterations_no_moves num_iterations
              (Node.init b (- player)%Z None None) rng Hv eq_refl Hv eq_refl)
    as (r' & -> & Hc).
  cbn [bind]. unfold Node.deref. cbn [lookup list_lookup bind].
  rewrite Hc. reflexivity.
Qed.

(** On a full board the MCTS strategy of [choose_move] raises, the minimax
    strategy answers that there is no move. *)
Lemma choose_move_full_board (b : Board) (player v : Z) (rng : Rng) :
  shape b = true -> round_number b = MAX_ROUNDS ->
  choose_move b player v rng =
  if (v =? 1)%Z then Raise ValueError else Ok (None, b, rng).
Proof.
  intros Hs Hr. unfold choose_move.
  assert (board_any b = true) as ->.
  { destruct (board_any b) eqn:E; [reflexivity|].
    apply board_any_false in E. rewrite Hr in E. discriminate. }
  rewrite Hr. cbn [negb orb]. change (MAX_ROUNDS =? 1) with false.
  change (MAX_ROUNDS =? 2) with false. cbv iota.
  destruct (v =? 1)%Z.
  - rewrite (MCTS_no_moves b player _ rng (full_no_valid_moves b Hs Hr)).
    reflexivity.
  - unfold minimax. rewrite minimax_aux_unfold. cbv zeta.
    rewrite Hr, Z.eqb_refl. reflexivity.
Qed.

(** C3. [full_draw_game] is a legal game that fills the board with no
    four-in-a-row; on its final board [full_draw_board], where no legal move
    is left, the minimax strategy of [choose_move] returns the no-move
    signal, and the MCTS strategy raises [ValueError]: the final [max] is
    over the empty list of the root's children. *)
Theorem choose_move_full_board_MCTS_raises (rng : Rng) :
  replay initialize_board 1 full_draw_game = Ok full_draw_board
  /\ no_win_along initialize_board 1 full_draw_game = true
  /\ four_in_a_row full_draw_board 1 = false
  /\ four_in_a_row full_draw_board (-1) = false
  /\ valid_moves full_draw_board = []
  /\ choose_move full_draw_board 1 2 rng = Ok (None, full_draw_board, rng)
  /\ choose_move full_draw_board 1 1 rng = Raise ValueError.
Proof.
  split; [vm_compute; reflexivity|]. split; [vm_compute; reflexivity|].
  split; [vm_compute; reflexivity|]. split; [vm_compute; reflexivity|].
  split; [vm_compute; reflexivity|].
  split; apply (choose_move_full_board full_draw_board); reflexivity.
Qed.

End MCTS_properties.

Lemma MCTS_returns_legal_move_witness :
  exists m rng',
    MCTS (SC := rational_scoring) open_three_board (-1) 1 [2; 0; 5]
    = Ok (Some m, rng')
    /\ m ∈ valid_moves open_three_board.
Proof.
  apply (MCTS_returns_legal_move (SC := rational_scoring) open_three_board
           (-1) 1 [2; 0; 5]).
  - reflexivity.
  - right. reflexivity.
  - vm_compute. discriminate.
  - lia.
Defined.

Lemma MCTS_counters_invariant_witness :
  exists h rng',
    iterations (SC := rational_scoring) 5
      [Node.init two_disc_board (- 1)%Z None None] 0 [1; 2; 3] = Ok (h, rng')
    /\ forall a n, h !! a = Some n ->
         (0 <= Node.num_wins n)%Q
         /\ (Node.num_wins n <= inject_Z (Node.num_visits n))%Q
         /\ forall c, c ∈ Node.childs n ->
              exists nc k1 k2,
                h !! c = Some nc /\ (1 <= Node.num_visits nc)%Z
                /\ Node.UCB1 (SC := rational_scoring) h c = Ok k1
                /\ win_rate (SC := rational_scoring) h c = Ok k2.
Proof.
  apply (MCTS_counters_invariant (SC := rational_scoring) two_disc_board 1 5
           [1; 2; 3]).
  - reflexivity.
  - left. reflexivity.
Defined.

(** * Further properties *)

(** ** Leaf evaluator of minimax *)

Lemma win_score_le b : (win_score b <= top_score)%Z.
Proof.
  unfold win_score, top_score. apply Z.div_le_mono; lia.
Qed.

Lemma max_score_range b :
  round_number b < MAX_ROUNDS -> (0 <= max_score b < top_score)%Z.
Proof.
  change top_score with 21%Z.
  unfold max_score, MAX_ROUNDS, NUM_COLUMNS, COLUMN_HEIGHT.
  intros H. split.
  - apply Z.div_pos; lia.
  - apply Z.div_lt_upper_bound; lia.
Qed.

(** A playout of the leaf evaluator ends with a score of magnitude at most
    [top_score]. *)
Lemma mc_playout_score fuel : forall tb mv tp p rng,
  shape tb = true -> gravity tb = true -> tp <> 0%Z -> mv ∈ valid_moves tb ->
  MAX_ROUNDS - round_number tb <= fuel ->
  exists s rng', mc_playout fuel tb mv tp p rng = Ok (s, rng')
                 /\ (- top_score <= s <= top_score)%Z.
Proof.
  induction fuel as [|fuel IH]; intros tb mv tp p rng Hs Hg Htp Hmv Hf;
    pose proof (valid_moves_round_number tb mv Hs Hmv) as Hlt; [lia|].
  destruct (play_valid tb mv tp Hs Hmv) as (col & i & _ & _ & Hplay).
  pose proof (play_shape _ _ _ _ Hs Hplay) as Hs'.
  pose proof (play_gravity _ _ _ _ Hg Htp Hplay) as Hg'.
  pose proof (play_round_number _ _ _ _ Htp Hplay) as Hr'.
  cbn [mc_playout]. rewrite Hplay. cbn [bind].
  set (tb' := <[mv := <[i := tp]> col]> tb) in *.
  assert (0 < top_score)%Z as Htop by (vm_compute; reflexivity).
  destruct (Nat.eqb_spec (round_number tb') MAX_ROUNDS) as [E|E].
  { exists 0%Z, rng. split; [reflexivity | lia]. }
  pose proof (round_number_le tb' Hs') as Hle.
  pose proof (win_score_pos tb' ltac:(lia)) as Hpos.
  pose proof (win_score_le tb') as Hws. unfold win_score in Hpos, Hws.
  destruct (four_in_a_row tb' tp).
  { eexists _, rng. split; [reflexivity|]. destruct (tp =? p)%Z; lia. }
  destruct (random_choice_elem _ rng (valid_moves_nonempty _ Hs' Hg' E))
    as (x & -> & Hx).
  cbn [bind]. apply IH; auto; lia.
Qed.

Lemma mc_simulation_loop_best n : forall b p bs bm rng,
  shape b = true -> gravity b = true -> p <> 0%Z ->
  round_number b <> MAX_ROUNDS ->
  (bs = - Z.of_nat MAX_ROUNDS /\ bm = None
   \/ (- top_score <= bs <= top_score)%Z
      /\ exists mv, bm = Some mv /\ mv ∈ valid_moves b)%Z ->
  exists s m rng',
    mc_simulation_loop n b p bs bm rng = Ok (s, m, rng')
    /\ (1 <= n \/ bm <> None ->
        (- top_score <= s <= top_score)%Z
        /\ exists mv, m = Some mv /\ mv ∈ valid_moves b).
Proof.
  induction n as [|n IH]; intros b p bs bm rng Hs Hg Hp Hr Hinv;
    cbn [mc_simulation_loop].
  - exists bs, bm, rng. split; [reflexivity|].
    intros [H | H]; [lia|]. destruct Hinv as [[_ ->] | Hinv]; [contradiction | exact Hinv].
  - destruct (random_choice_elem _ rng (valid_moves_nonempty _ Hs Hg Hr))
      as (x & -> & Hx).
    cbn [bind].
    destruct (mc_playout_score MAX_ROUNDS b x p p (snd (draw rng)) Hs Hg Hp Hx
                ltac:(lia)) as (s & rng' & -> & Hsc).
    cbn [bind].
    assert (top_score < Z.of_nat MAX_ROUNDS)%Z as Htop by (vm_compute; reflexivity).
    destruct (Z.gtb_spec s bs) as [Hgt | Hle].
    + destruct (IH b p s (Some x) rng' Hs Hg Hp Hr) as (s' & m' & r' & -> & Hres).
      { right. split; [exact Hsc|]. eauto. }
      exists s', m', r'. split; [reflexivity|]. intros _. apply Hres.
      right. discriminate.
    + destruct Hinv as [[-> ->] | Hinv]; [lia|].
      destruct (IH b p bs bm rng' Hs Hg Hp Hr (or_intror Hinv))
        as (s' & m' & r' & -> & Hres).
      exists s', m', r'. split; [reflexivity|]. intros _. apply Hres.
      right. destruct Hinv as (_ & mv & -> & _). discriminate.
Qed.

Lemma mc_simulation_best b p rng :
  shape b = true -> gravity b = true -> p <> 0%Z ->
  round_number b <> MAX_ROUNDS ->
  exists s mv rng',
    mc_simulation b p rng = Ok (s, Some mv, rng')
    /\ (- top_score <= s <= top_score)%Z /\ mv ∈ valid_moves b.
Proof.
  intros Hs Hg Hp Hr. unfold mc_simulation.
  destruct (mc_simulation_loop_best MC_ITERATIONS b p (- Z.of_nat MAX_ROUNDS)%Z
              None rng Hs Hg Hp Hr ltac:(auto)) as (s & m & rng' & Hrun & Hres).
  destruct Hres as (Hsc & mv & -> & Hmv); [left; unfold MC_ITERATIONS; lia|].
  exists s, mv, rng'. auto.
Qed.

(** ** Score window and move of minimax *)

Lemma search_loop_bounds
  (rec : Board -> Z -> Z -> Rng -> result (Z * option nat * Board * Rng))
  (b : Board) (p beta : Z) (moves : list nat) :
  shape b = true -> gravity b = true -> p <> 0%Z ->
  (forall m, m ∈ moves -> m ∈ valid_moves b) ->
  (beta <= top_score)%Z ->
  (forall b' a be r,
     shape b' = true -> gravity b' = true ->
     round_number b' = S (round_number b) ->
     exists s m r', rec b' a be r = Ok (s, m, b', r')
       /\ (Z.min (Z.min a be) (- top_score) <= s <= Z.max a top_score)%Z) ->
  forall order alpha best rng,
  (forall mv, best = Some mv -> mv ∈ moves) ->
  exists s m rng',
    search_loop rec order moves b p alpha beta best rng = Ok (s, m, b, rng')
    /\ (Z.min (Z.min alpha beta) (- top_score) <= s <= Z.max alpha top_score)%Z
    /\ (forall mv, m = Some mv -> mv ∈ moves)
    /\ (best <> None
        \/ (alpha < - top_score)%Z /\ (exists x, x ∈ order /\ x ∈ moves) ->
        m <> None).
Proof.
  intros Hs Hg Hp Hv Hbeta Hrec order.
  induction order as [|m rest IH]; intros alpha best rng Hbest;
    cbn [search_loop].
  - exists alpha, best, rng. split; [reflexivity|]. split; [lia|].
    split; [exact Hbest|].
    intros [H | (_ & x & Hx & _)]; [exact H | inversion Hx].
  - case_bool_decide as Hm.
    + destruct (play_valid b m p Hs (Hv m Hm)) as (col & i & _ & _ & Hplay).
      rewrite Hplay. cbn [bind].
      destruct (Hrec _ (- beta)%Z (- alpha)%Z rng
                  (play_shape _ _ _ _ Hs Hplay)
                  (play_gravity _ _ _ _ Hg Hp Hplay)
                  (play_round_number _ _ _ _ Hp Hplay))
        as (s & m' & r' & -> & Hsc).
      cbn [bind]. rewrite (play_take_back _ _ _ _ Hg Hp Hplay). cbn [bind].
      destruct (Z.geb_spec (- s) beta) as [Hcut | Hnocut].
      * exists (- s)%Z, (Some m), r'. split; [reflexivity|]. split; [lia|].
        split; [intros mv [= <-]; exact Hm | discriminate].
      * destruct (Z.gtb_spec (- s) alpha) as [Hup | Hkeep].
        -- destruct (IH (- s)%Z (Some m) r') as (s2 & m2 & r2 & -> & Hsc2 & Hleg & Hex).
           { intros mv [= <-]. exact Hm. }
           exists s2, m2, r2. split; [reflexivity|]. split; [lia|].
           split; [exact Hleg|]. intros _. apply Hex. left. discriminate.
        -- destruct (IH alpha best r' Hbest) as (s2 & m2 & r2 & -> & Hsc2 & Hleg & Hex).
           exists s2, m2, r2. split; [reflexivity|]. split; [lia|].
           split; [exact Hleg|]. intros [H | (Ha & _)]; [apply Hex; auto | lia].
    + destruct (IH alpha best rng Hbest) as (s2 & m2 & r2 & -> & Hsc2 & Hleg & Hex).
      exists s2, m2, r2. split; [reflexivity|]. split; [exact Hsc2|].
      split; [exact Hleg|]. intros [H | (Ha & x & Hx & Hxm)]; apply Hex; auto.
      right. split; [exact Ha|]. exists x. split; [|exact Hxm].
      apply elem_of_cons in Hx as [-> | Hx]; [contradiction | exact Hx].
Qed.

Lemma SEARCH_ORDER_complete b :
  valid_moves b <> [] -> exists x, x ∈ SEARCH_ORDER /\ x ∈ valid_moves b.
Proof.
  intros Hv. destruct (valid_moves b) as [|x l] eqn:E; [contradiction|].
  assert (x ∈ valid_moves b) as Hx by (rewrite E; apply list_elem_of_here).
  exists x. split; [|rewrite <- E; exact Hx].
  apply elem_of_valid_moves in Hx as [_ Hlt]. unfold NUM_COLUMNS in Hlt.
  apply list_elem_of_In. unfold SEARCH_ORDER. simpl.
  do 7 (destruct x as [|x]; [tauto|]). lia.
Qed.

Lemma minimax_aux_bounds fuel : forall b p depth alpha beta max_depth rng,
  shape b = true -> gravity b = true -> is_player p ->
  MAX_ROUNDS - round_number b < fuel ->
  exists s m rng',
    minimax_aux fuel b p depth alpha beta max_depth rng = Ok (s, m, b, rng')
    /\ (Z.min (Z.min alpha beta) (- top_score) <= s <= Z.max alpha top_score)%Z
    /\ (forall mv, m = Some mv -> mv ∈ valid_moves b)
    /\ (round_number b <> MAX_ROUNDS -> (alpha < - top_score)%Z ->
        (alpha < beta)%Z -> m <> None).
Proof.
  induction fuel as [|fuel IH]; intros b p depth alpha beta max_depth rng
    Hs Hg Hp Hf; [lia|].
  pose proof (round_number_le b Hs) as Hle.
  assert (0 < top_score)%Z as Htop by (vm_compute; reflexivity).
  destruct (decide (round_number b = MAX_ROUNDS)) as [E|E].
  { rewrite minimax_aux_unfold. cbv zeta. rewrite E, Z.eqb_refl.
    exists 0%Z, None, rng. split; [reflexivity|]. split; [lia|].
    split; [discriminate | contradiction]. }
  assert (round_number b < MAX_ROUNDS) as Hlt by lia.
  rewrite (minimax_aux_not_full _ b p) by auto using player_nonzero.
  destruct (find (wins b p) (valid_moves b)) as [m|] eqn:Hfind.
  { apply find_some in Hfind as [Hin _].
    pose proof (win_score_pos b Hlt). pose proof (win_score_le b).
    exists (win_score b), (Some m), rng. split; [reflexivity|]. split; [lia|].
    split; [|discriminate]. intros mv [= <-]. apply list_elem_of_In, Hin. }
  cbv zeta. pose proof (max_score_range b Hlt) as Hms.
  set (beta' := if (beta >? max_score b)%Z then max_score b else beta).
  assert (beta' <= max_score b /\ beta' <= beta /\ Z.min beta 0 <= beta')%Z
    as (Hb1 & Hb2 & Hb3).
  { subst beta'. destruct (Z.gtb_spec beta (max_score b)); lia. }
  destruct (Z.geb_spec alpha beta') as [Hprune | Hopen].
  { exists beta', None, rng. split; [reflexivity|]. split; [lia|].
    split; [discriminate|]. intros _ Ha Hab. lia. }
  destruct (depth >? max_depth)%Z.
  { destruct (mc_simulation_best b p rng Hs Hg (player_nonzero _ Hp) E)
      as (s & mv & rng' & -> & Hsc & Hmv).
    cbn [bind]. exists s, (Some mv), rng'. split; [reflexivity|].
    split; [lia|]. split; [intros x [= <-]; exact Hmv | discriminate]. }
  destruct (search_loop_bounds
              (fun b' alpha' beta'' rng' =>
                 minimax_aux fuel b' (- p)%Z (depth + 1)%Z alpha' beta''
                             MAX_DEPTH rng')
              b p beta' (valid_moves b) Hs Hg (player_nonzero _ Hp)
              ltac:(auto) ltac:(lia)) with (order := SEARCH_ORDER)
    (alpha := alpha) (best := @None nat) (rng := rng)
    as (s & m & rng' & -> & Hsc & Hleg & Hex).
  { intros b' a be r Hs' Hg' Hr'.
    destruct (IH b' (- p)%Z (depth + 1)%Z a be MAX_DEPTH r Hs' Hg'
                (is_player_opp _ Hp) ltac:(lia)) as (s & m & r' & Hrun & Hsc & _).
    exists s, m, r'. auto. }
  { discriminate. }
  exists s, m, rng'. split; [reflexivity|]. split; [lia|]. split; [exact Hleg|].
  intros _ Ha _. apply Hex. right. split; [exact Ha|].
  apply SEARCH_ORDER_complete, valid_moves_nonempty; assumption.
Qed.

(** ** Move selector on every position *)

Lemma low_board_valid b c :
  shape b = true -> gravity b = true -> round_number b < COLUMN_HEIGHT ->
  c < NUM_COLUMNS -> c ∈ valid_moves b.
Proof.
  intros Hs Hg Hr Hc. destruct (shape_lookup b c Hs Hc) as (col & Hcol & Hl).
  apply elem_of_valid_moves. split; [|exact Hc].
  unfold cell. rewrite Hcol.
  destruct (lookup_lt_is_Some_2 col (COLUMN_HEIGHT - 1)) as [v Hv].
  { rewrite Hl. unfold COLUMN_HEIGHT. lia. }
  rewrite Hv. simpl. destruct (decide (v = 0%Z)) as [-> | Hne]; [reflexivity|].
  exfalso.
  pose proof (gravity_col_top col (COLUMN_HEIGHT - 1)
                (gravity_lookup _ _ _ Hg Hcol) Hl) as Hfull.
  rewrite Hv in Hfull. specialize (Hfull ltac:(congruence)).
  pose proof (count_nonzero_le_round_number b c col Hcol). lia.
Qed.

Section Selector_properties.
Context {SC : Scoring}.

Lemma MCTS_move (b : Board) (player : Z) (num_iterations : nat) (rng : Rng) :
  shape b = true -> is_player player -> valid_moves b <> [] ->
  1 <= num_iterations ->
  exists m rng',
    MCTS b player num_iterations rng = Ok (Some m, rng') /\ m ∈ valid_moves b.
Proof.
  intros Hs Hp Hv Hn. unfold MCTS. cbv zeta.
  destruct (iterations_ok b num_iterations _ rng (initial_heap_ok b player Hs Hp))
    as (h & rng' & -> & Hok & _ & Hroot).
  cbn [bind].
  assert (root_has_child h) as (r & Hr & Hne).
  { apply Hroot; [|exact Hn]. eexists. split; [reflexivity|]. right. exact Hv. }
  rewrite (deref_Some _ _ _ Hr). cbn [bind].
  destruct (py_max_elem (win_rate h) (Node.childs r) Hne) as (best & -> & Hbest).
  { intros x Hx. eapply win_rate_child; eauto. }
  cbn [bind].
  destruct (heap_ok_node _ _ _ _ _ Hok Hr) as (_ & _ & _ & Hch & _).
  destruct (Hch best Hbest) as (_ & nc & Hnc & _ & m & Hm & Hin).
  rewrite (deref_Some _ _ _ Hnc). cbn [bind]. rewrite Hm.
  exists m, rng'. split; [reflexivity|].
  destruct Hok as [(r0 & Hr0 & Hb) _]. assert (r0 = r) as -> by congruence.
  rewrite <- Hb. exact Hin.
Qed.

Lemma choose_move_not_full (b : Board) (p v : Z) (rng : Rng) :
  shape b = true -> gravity b = true -> is_player p ->
  round_number b <> MAX_ROUNDS ->
  exists m b' rng',
    choose_move b p v rng = Ok (Some m, b', rng')
    /\ m ∈ valid_moves b /\ play b m p = Ok b'.
Proof.
  intros Hs Hg Hp Hr.
  assert (forall (m : nat) (rng' : Rng),
            m ∈ valid_moves b ->
            exists b', play b m p = Ok b'
                       /\ (do b0 <- play b m p; Ok (Some m, b0, rng'))
                          = Ok (Some m, b', rng')) as Hfin.
  { intros m rng' Hm.
    destruct (play_valid b m p Hs Hm) as (col & i & _ & _ & Hplay).
    eexists. split; [exact Hplay|]. rewrite Hplay. reflexivity. }
  unfold choose_move.
  destruct (negb (board_any b) || (round_number b =? 1)) eqn:Hopen.
  - assert (round_number b < COLUMN_HEIGHT) as Hlow.
    { apply orb_prop in Hopen as [H | H].
      - apply negb_true_iff, board_any_false in H. rewrite H.
        unfold COLUMN_HEIGHT. lia.
      - apply Nat.eqb_eq in H. rewrite H. unfold COLUMN_HEIGHT. lia. }
    assert (3 ∈ valid_moves b) as H3.
    { apply low_board_valid; auto. unfold NUM_COLUMNS. lia. }
    destruct (Hfin 3 rng H3) as (b' & Hplay & ->). exists 3, b', rng. auto.
  - destruct (Nat.eqb_spec (round_number b) 2) as [H2 | H2].
    + destruct (random_choice_elem [2; 3; 4] rng ltac:(discriminate))
        as (m & -> & Hin).
      cbn [bind].
      assert (m ∈ valid_moves b) as Hm.
      { apply low_board_valid; auto.
        - rewrite H2. unfold COLUMN_HEIGHT. lia.
        - apply list_elem_of_In in Hin. simpl in Hin. unfold NUM_COLUMNS.
          intuition lia. }
      destruct (Hfin m (snd (draw rng)) Hm) as (b' & Hplay & ->).
      exists m, b', (snd (draw rng)). auto.
    + destruct (v =? 1)%Z.
      * destruct (MCTS_move b p NUM_ITERATIONS rng Hs Hp
                    (valid_moves_nonempty b Hs Hg Hr)) as (m & rng' & -> & Hm).
        { unfold NUM_ITERATIONS. lia. }
        cbn [bind]. destruct (Hfin m rng' Hm) as (b' & Hplay & ->).
        exists m, b', rng'. auto.
      * unfold minimax.
        destruct (minimax_aux_bounds (S MAX_ROUNDS) b p 1 (-1000) 1000
                    MAX_DEPTH rng Hs Hg Hp ltac:(lia))
          as (s & m & rng' & -> & _ & Hleg & Hex).
        cbn [bind].
        destruct m as [m|]; [|exfalso; apply Hex; auto; vm_compute; reflexivity].
        destruct (Hfin m rng' (Hleg m eq_refl)) as (b' & Hplay & ->).
        exists m, b', rng'. auto.
Qed.

End Selector_properties.

(** ** Driver loop *)





Section Driver_properties.
Context {SC : Scoring}.



End Driver_properties.

(** ** Moves on the board *)

Lemma lookup_zero_count col i :
  col !! i = Some 0%Z -> count_nonzero col < length col.
Proof.
  unfold count_nonzero. revert i.
  induction col as [|v rest IH]; intros i H; [rewrite lookup_nil in H; discriminate|].
  destruct i as [|i]; simpl in H.
  - injection H as ->. rewrite filter_cons_False by (intros H; apply H; reflexivity).
    simpl. pose proof (length_filter (fun v : Z => v <> 0%Z) rest). lia.
  - specialize (IH i H). destruct (decide (v <> 0%Z)).
    + rewrite filter_cons_True by assumption. simpl. lia.
    + rewrite filter_cons_False by assumption. simpl. lia.
Qed.

Lemma all_zero_count rest :
  forallb (fun w => (w =? 0)%Z) rest = true -> count_nonzero rest = 0.
Proof.
  unfold count_nonzero. induction rest as [|w rest IH]; simpl; intros H;
    [reflexivity|].
  apply andb_prop in H as [Hw Hr]. apply Z.eqb_eq in Hw. subst w.
  rewrite filter_cons_False by (intros H; apply H; reflexivity). auto.
Qed.

Lemma count_nonzero_cons_zero rest :
  count_nonzero (0%Z :: rest) = count_nonzero rest.
Proof.
  unfold count_nonzero.
  rewrite filter_cons_False by (intros H; apply H; reflexivity). reflexivity.
Qed.

Lemma count_nonzero_cons v rest :
  v <> 0%Z -> count_nonzero (v :: rest) = S (count_nonzero rest).
Proof.
  intros Hv. unfold count_nonzero. rewrite filter_cons_True by exact Hv.
  reflexivity.
Qed.

(** Under gravity the first empty cell of a column is right above its
    discs, and the last occupied cell is the top disc. *)
Lemma first_zero_height col i :
  gravity_col col = true -> first_zero col = Some i -> i = count_nonzero col.
Proof.
  revert i.
  induction col as [|v rest IH]; intros i Hg Hf; simpl in *; [discriminate|].
  destruct (Z.eqb_spec v 0) as [->|Hv].
  - injection Hf as <-. rewrite count_nonzero_cons_zero.
    symmetry. apply all_zero_count, Hg.
  - destruct (first_zero rest) as [k|] eqn:E; simpl in Hf; [|discriminate].
    injection Hf as <-. rewrite (count_nonzero_cons _ _ Hv).
    f_equal. apply IH; auto.
Qed.

Lemma last_nonzero_height col :
  gravity_col col = true ->
  last_nonzero col
  = match count_nonzero col with 0 => None | S k => Some k end.
Proof.
  induction col as [|v rest IH]; intros Hg; simpl in *; [reflexivity|].
  destruct (Z.eqb_spec v 0) as [->|Hv].
  - rewrite (all_zero_last_nonzero _ Hg), count_nonzero_cons_zero,
      (all_zero_count _ Hg). reflexivity.
  - rewrite (IH Hg), (count_nonzero_cons _ _ Hv).
    destruct (count_nonzero rest); reflexivity.
Qed.

Lemma cell_insert (b : Board) c col col' c' r :
  b !! c = Some col ->
  cell (<[c := col']> b) c' r
  = if decide (c' = c) then default 0%Z (col' !! r) else cell b c' r.
Proof.
  intros Hc. unfold cell. destruct (decide (c' = c)) as [->|Hne].
  - rewrite list_lookup_insert_eq by (eapply lookup_lt_Some; eauto). reflexivity.
  - rewrite list_lookup_insert_ne by congruence. reflexivity.
Qed.

Lemma height_lookup b c col : b !! c = Some col -> height b c = count_nonzero col.
Proof. unfold height. intros ->. reflexivity. Qed.

Lemma top_zero_of_first_zero col i :
  gravity_col col = true -> length col = COLUMN_HEIGHT ->
  first_zero col = Some i -> col !! (COLUMN_HEIGHT - 1) = Some 0%Z.
Proof.
  intros Hg Hl Hf.
  destruct (lookup_lt_is_Some_2 col (COLUMN_HEIGHT - 1)) as [v Hv].
  { rewrite Hl. unfold COLUMN_HEIGHT. lia. }
  rewrite Hv. f_equal. destruct (decide (v = 0%Z)) as [|Hne]; [assumption|].
  exfalso.
  pose proof (gravity_col_top col (COLUMN_HEIGHT - 1) Hg Hl) as Hfull.
  rewrite Hv in Hfull. specialize (Hfull ltac:(congruence)).
  apply first_zero_spec in Hf as [Hz _].
  pose proof (lookup_zero_count col i Hz). lia.
Qed.

Lemma filter_sorted (P : nat -> Prop) `{forall x, Decision (P x)} l :
  Sorted.StronglySorted lt l -> Sorted.StronglySorted lt (filter P l).
Proof.
  induction 1 as [|x l Hl IH Hx]; [constructor|].
  destruct (decide (P x)).
  - rewrite filter_cons_True by assumption. constructor; [exact IH|].
    apply Forall_forall. intros y Hy. apply list_elem_of_filter in Hy as [_ Hy].
    rewrite Forall_forall in Hx. apply Hx, Hy.
  - rewrite filter_cons_False by assumption. exact IH.
Qed.

Lemma seq_sorted n : forall s, Sorted.StronglySorted lt (seq s n).
Proof.
  induction n as [|n IH]; intros s; simpl; constructor; [apply IH|].
  apply Forall_forall. intros x Hx. apply elem_of_seq in Hx. lia.
Qed.

(** X1. The legal moves are listed in ascending order, and on a board under
    gravity they are exactly the columns in which [play] succeeds. *)
Theorem valid_moves_are_playable (b : Board) (p : Z) :
  shape b = true -> gravity b = true ->
  Sorted.StronglySorted lt (valid_moves b)
  /\ forall c, c ∈ valid_moves b <-> exists b', play b c p = Ok b'.
Proof.
  intros Hs Hg. split.
  - unfold valid_moves. apply filter_sorted, seq_sorted.
  - intros c. split.
    + intros Hc. destruct (play_valid b c p Hs Hc) as (col & i & _ & _ & H).
      eauto.
    + intros [b' Hplay]. apply play_inv in Hplay as (col & i & Hcol & Hi & _).
      apply elem_of_valid_moves. split.
      * unfold cell. rewrite Hcol.
        rewrite (top_zero_of_first_zero col i (gravity_lookup _ _ _ Hg Hcol)
                   (shape_col _ _ _ Hs Hcol) Hi). reflexivity.
      * rewrite <- (shape_length b Hs). eapply lookup_lt_Some; eauto.
Qed.

Lemma valid_moves_are_playable_witness :
  Sorted.StronglySorted lt (valid_moves open_three_board)
  /\ forall c, c ∈ valid_moves open_three_board
               <-> exists b', play open_three_board c 1 = Ok b'.
Proof.
  apply (valid_moves_are_playable open_three_board 1); reflexivity.
Defined.

Lemma lookup_insert_cell (col : list Z) i v r :
  i < length col ->
  default 0%Z (<[i := v]> col !! r)
  = if decide (r = i) then v else default 0%Z (col !! r).
Proof.
  intros Hi. destruct (decide (r = i)) as [->|Hne].
  - rewrite list_lookup_insert_eq by exact Hi. reflexivity.
  - rewrite list_lookup_insert_ne by congruence. reflexivity.
Qed.

(** X2. A legal move puts the disc of the player right above the discs of the
    column and touches no other cell; the board keeps its shape and its
    gravity and holds one disc more. *)
Theorem play_drops_disc (b : Board) (c : nat) (p : Z) :
  shape b = true -> gravity b = true -> c ∈ valid_moves b -> is_player p ->
  exists b',
    play b c p = Ok b'
    /\ shape b' = true /\ gravity b' = true
    /\ round_number b' = S (round_number b)
    /\ forall c' r,
         cell b' c' r
         = if decide (c' = c /\ r = height b c) then p else cell b c' r.
Proof.
  intros Hs Hg Hc Hp. pose proof (player_nonzero _ Hp) as Hnz.
  destruct (play_valid b c p Hs Hc) as (col & i & Hcol & Hi & Hplay).
  eexists. split; [exact Hplay|].
  split; [exact (play_shape _ _ _ _ Hs Hplay)|].
  split; [exact (play_gravity _ _ _ _ Hg Hnz Hplay)|].
  split; [exact (play_round_number _ _ _ _ Hnz Hplay)|].
  intros c' r. rewrite (cell_insert b c col _ c' r Hcol).
  rewrite (height_lookup _ _ _ Hcol).
  rewrite <- (first_zero_height col i (gravity_lookup _ _ _ Hg Hcol) Hi).
  apply first_zero_spec in Hi as [Hz _].
  rewrite (lookup_insert_cell col i p r (lookup_lt_Some _ _ _ Hz)).
  unfold cell. destruct (decide (c' = c)) as [->|Hne].
  - rewrite Hcol. destruct (decide (r = i)) as [->|Hr].
    + rewrite decide_True by auto. reflexivity.
    + rewrite decide_False by tauto. reflexivity.
  - rewrite decide_False by tauto. reflexivity.
Qed.

Lemma play_drops_disc_witness :
  exists b',
    play open_three_board 2 (-1) = Ok b'
    /\ shape b' = true /\ gravity b' = true
    /\ round_number b' = S (round_number open_three_board)
    /\ forall c' r,
         cell b' c' r
         = if decide (c' = 2 /\ r = height open_three_board 2) then (-1)%Z
           else cell open_three_board c' r.
Proof.
  apply (play_drops_disc open_three_board 2 (-1)).
  - reflexivity.
  - reflexivity.
  - vm_compute. apply list_elem_of_In. simpl. tauto.
  - right. reflexivity.
Defined.

Lemma full_column_first_zero col :
  count_nonzero col = length col -> first_zero col = None.
Proof.
  intros H. destruct (first_zero col) as [i|] eqn:E; [|reflexivity].
  apply first_zero_spec in E as [Hz _].
  pose proof (lookup_zero_count col i Hz). lia.
Qed.

(** X3. A move that is not legal is refused with an exception and no board is
    produced: [StopIteration] from the search of an empty cell in a full
    column, [IndexError] for a column beyond the board. *)
Theorem play_refused (b : Board) (c : nat) (p : Z) :
  shape b = true -> gravity b = true -> c ∉ valid_moves b ->
  play b c p
  = Raise (if c <? NUM_COLUMNS then StopIteration else IndexError).
Proof.
  intros Hs Hg Hc. unfold play. destruct (Nat.ltb_spec c NUM_COLUMNS) as [Hlt|Hge].
  - destruct (shape_lookup b c Hs Hlt) as (col & Hcol & Hl). rewrite Hcol.
    rewrite full_column_first_zero; [reflexivity|].
    apply (gravity_col_top col (COLUMN_HEIGHT - 1)).
    + eapply gravity_lookup; eauto.
    + rewrite Hl. reflexivity.
    + intros Htop. apply Hc. apply elem_of_valid_moves.
      split; [|exact Hlt]. unfold cell. rewrite Hcol, Htop. reflexivity.
  - rewrite lookup_ge_None_2; [reflexivity|].
    rewrite (shape_length b Hs). exact Hge.
Qed.

Lemma play_refused_witness :
  play full_draw_board 4 1
  = Raise (if 4 <? NUM_COLUMNS then StopIteration else IndexError).
Proof.
  apply (play_refused full_draw_board 4 1).
  - reflexivity.
  - reflexivity.
  - vm_compute. intros H. inversion H.
Defined.

Lemma count_zero_all_zero col :
  count_nonzero col = 0 -> forallb (fun w => (w =? 0)%Z) col = true.
Proof.
  induction col as [|v rest IH]; intros H; [reflexivity|].
  destruct (decide (v = 0%Z)) as [->|Hv].
  - rewrite count_nonzero_cons_zero in H. simpl. auto.
  - rewrite (count_nonzero_cons _ _ Hv) in H. discriminate.
Qed.

Lemma column_remove_top col k :
  gravity_col col = true -> count_nonzero col = S k ->
  exists v, col !! k = Some v /\ v <> 0%Z
    /\ gravity_col (<[k := 0%Z]> col) = true
    /\ count_nonzero (<[k := 0%Z]> col) = k
    /\ first_zero (<[k := 0%Z]> col) = Some k
    /\ <[k := v]> (<[k := 0%Z]> col) = col.
Proof.
  revert k. induction col as [|v rest IH]; intros k Hg Hc; [discriminate|].
  simpl in Hg. destruct (Z.eqb_spec v 0) as [->|Hv].
  - rewrite count_nonzero_cons_zero, (all_zero_count _ Hg) in Hc. discriminate.
  - rewrite (count_nonzero_cons _ _ Hv) in Hc. injection Hc as Hc.
    destruct k as [|k].
    + exists v. simpl. rewrite count_nonzero_cons_zero.
      repeat split; auto using count_zero_all_zero.
    + destruct (IH k Hg Hc) as (w & Hw & Hnz & Hg' & Hc' & Hf' & Hi').
      exists w. simpl. split; [exact Hw|]. split; [exact Hnz|].
      destruct (Z.eqb_spec v 0); [contradiction|].
      rewrite (count_nonzero_cons _ _ Hv), Hc', Hf', Hi'. auto.
Qed.

(** X4. [take_back] on a column without a disc raises [IndexError].  On a column
    with discs it clears the top one and nothing else, keeps gravity, leaves
    one disc less, and playing the removed disc again in the column gives
    the board back. *)
Theorem take_back_removes_top (b : Board) (c : nat) :
  shape b = true -> gravity b = true -> c < NUM_COLUMNS ->
  (height b c = 0 -> take_back b c = Raise IndexError)
  /\ (0 < height b c ->
      exists b',
        take_back b c = Ok b'
        /\ gravity b' = true
        /\ S (round_number b') = round_number b
        /\ (forall c' r,
              cell b' c' r
              = if decide (c' = c /\ r = height b c - 1) then 0%Z
                else cell b c' r)
        /\ play b' c (cell b c (height b c - 1)) = Ok b).
Proof.
  intros Hs Hg Hc. destruct (shape_lookup b c Hs Hc) as (col & Hcol & Hl).
  pose proof (gravity_lookup _ _ _ Hg Hcol) as Hgc.
  rewrite (height_lookup _ _ _ Hcol). unfold take_back. rewrite Hcol.
  rewrite (last_nonzero_height col Hgc). split.
  - intros ->. reflexivity.
  - intros Hpos. destruct (count_nonzero col) as [|k] eqn:Hk; [lia|].
    replace (S k - 1) with k by lia.
    destruct (column_remove_top col k Hgc Hk)
      as (v & Hv & Hnz & Hg' & Hc' & Hf' & Hi').
    pose proof (lookup_lt_Some _ _ _ Hv) as Hklt.
    eexists. split; [reflexivity|]. split; [|split; [|split]].
    + unfold gravity. apply forallb_insert; assumption.
    + unfold round_number.
      pose proof (sum_list_insert count_nonzero b c col (<[k := 0%Z]> col) Hcol).
      lia.
    + intros c' r. rewrite (cell_insert b c col _ c' r Hcol).
      rewrite (lookup_insert_cell col k 0%Z r Hklt).
      unfold cell. destruct (decide (c' = c)) as [->|Hne].
      * rewrite Hcol. destruct (decide (r = k)) as [->|Hr].
        -- rewrite decide_True by auto. reflexivity.
        -- rewrite decide_False by tauto. reflexivity.
      * rewrite decide_False by tauto. reflexivity.
    + unfold play, cell.
      rewrite list_lookup_insert_eq by (eapply lookup_lt_Some; eauto).
      rewrite Hf', Hcol, Hv. simpl.
      rewrite Hi', list_insert_insert_eq, list_insert_id by exact Hcol.
      reflexivity.
Qed.

Lemma take_back_removes_top_witness :
  (height open_three_board 3 = 0 -> take_back open_three_board 3 = Raise IndexError)
  /\ (0 < height open_three_board 3 ->
      exists b',
        take_back open_three_board 3 = Ok b'
        /\ gravity b' = true
        /\ S (round_number b') = round_number open_three_board
        /\ (forall c' r,
              cell b' c' r
              = if decide (c' = 3 /\ r = height open_three_board 3 - 1) then 0%Z
                else cell open_three_board c' r)
        /\ play b' 3 (cell open_three_board 3 (height open_three_board 3 - 1))
           = Ok open_three_board).
Proof.
  apply (take_back_removes_top open_three_board 3).
  - reflexivity.
  - reflexivity.
  - unfold NUM_COLUMNS. lia.
Defined.

(** X5. On a board under gravity, no legal move is left exactly when all 42
    cells are occupied. *)
Theorem full_iff_no_valid_moves (b : Board) :
  shape b = true -> gravity b = true ->
  (valid_moves b = [] <-> round_number b = MAX_ROUNDS).
Proof.
  intros Hs Hg. split.
  - apply no_valid_moves_full; assumption.
  - apply full_no_valid_moves; assumption.
Qed.

Lemma full_iff_no_valid_moves_witness :
  valid_moves full_draw_board = [] <-> round_number full_draw_board = MAX_ROUNDS.
Proof. apply (full_iff_no_valid_moves full_draw_board); reflexivity. Defined.

(** ** Four in a row *)

Lemma existsb_seq (f : nat -> bool) n :
  existsb f (seq 0 n) = true <-> exists x, x < n /\ f x = true.
Proof.
  rewrite existsb_exists. split; intros (x & Hx & Hf); exists x.
  - apply in_seq in Hx. split; [lia | exact Hf].
  - split; [apply in_seq; lia | exact Hf].
Qed.

Lemma forallb_seq_four (f : nat -> bool) s :
  forallb f (seq s FOUR) = true <-> forall i, i < FOUR -> f (s + i) = true.
Proof.
  rewrite forallb_forall. split.
  - intros H i Hi. apply H, in_seq. lia.
  - intros H x Hx. apply in_seq in Hx.
    replace x with (s + (x - s)) by lia. apply H. lia.
Qed.

Lemma four_in_a_row_lines (b : Board) (player : Z) :
  four_in_a_row b player = true <-> exists c r, line_of_four b player c r.
Proof.
  unfold four_in_a_row, line_of_four.
  rewrite !orb_true_iff, !existsb_seq.
  setoid_rewrite existsb_seq. setoid_rewrite forallb_seq_four.
  setoid_rewrite Z.eqb_eq.
  unfold NUM_COLUMNS, COLUMN_HEIGHT, FOUR. simpl Nat.sub. simpl Nat.add at 1.
  split.
  - intros [[[(c & Hc & n & Hn & H) | (r & Hr & n & Hn & H)]
            | (ro & Hro & co & Hco & H)] | (ro & Hro & co & Hco & H)].
    + exists c, n. left. repeat split; [lia | lia | exact H].
    + exists n, r. right. left. repeat split; [lia | lia | exact H].
    + exists ro, co. right. right. left. repeat split; [lia | lia |].
      intros i Hi. specialize (H i Hi). exact H.
    + exists ro, co. do 3 right. repeat split; [lia | lia | exact H].
  - intros (c & r & [(Hc & Hr & H) | [(Hc & Hr & H) | [(Hc & Hr & H)
                                                       | (Hc & Hr & H)]]]).
    + left. left. left. exists c. split; [lia|]. exists r. split; [lia | exact H].
    + left. left. right. exists r. split; [lia|]. exists c. split; [lia | exact H].
    + left. right. exists c. split; [lia|]. exists r. split; [lia | exact H].
    + right. exists c. split; [lia|]. exists r. split; [lia | exact H].
Qed.

(** X6. [four_in_a_row] answers true exactly when some line of four cells of
    the board, in one of the four directions, is filled by the player. *)
Theorem four_in_a_row_iff_line (b : Board) (player : Z) :
  four_in_a_row b player = true <-> exists c r, line_of_four b player c r.
Proof. apply four_in_a_row_lines. Qed.

Lemma play_cell b c p b' c' r :
  play b c p = Ok b' ->
  cell b' c' r = cell b c' r \/ (cell b c' r = 0%Z /\ cell b' c' r = p).
Proof.
  intros Hplay. apply play_inv in Hplay as (col & i & Hcol & Hi & ->).
  apply first_zero_spec in Hi as [Hz _].
  rewrite (cell_insert b c col _ c' r Hcol).
  destruct (decide (c' = c)) as [->|Hne]; [|auto].
  rewrite (lookup_insert_cell col i p r (lookup_lt_Some _ _ _ Hz)).
  unfold cell. rewrite Hcol. destruct (decide (r = i)) as [->|Hr]; [|auto].
  right. rewrite Hz. auto.
Qed.

(** X7. A move never breaks a line of discs that stands on the board, and the
    only player for whom it can complete one is the mover. *)
Theorem play_four_in_a_row (b : Board) (c : nat) (p : Z) (b' : Board) :
  play b c p = Ok b' ->
  (forall q, q <> 0%Z -> four_in_a_row b q = true -> four_in_a_row b' q = true)
  /\ (forall q, q <> p -> four_in_a_row b' q = true -> four_in_a_row b q = true).
Proof.
  intros Hplay.
  assert (forall q c' r, q <> 0%Z -> cell b c' r = q -> cell b' c' r = q) as Hkeep.
  { intros q c' r Hq Hc.
    destruct (play_cell b c p b' c' r Hplay) as [E | [E _]]; congruence. }
  assert (forall q c' r, q <> p -> cell b' c' r = q -> cell b c' r = q) as Hback.
  { intros q c' r Hq Hc.
    destruct (play_cell b c p b' c' r Hplay) as [E | [_ E]]; congruence. }
  split; intros q Hq; rewrite !four_in_a_row_lines;
    intros (c0 & r0 & H); exists c0, r0; unfold line_of_four in *;
    destruct H as [(H1 & H2 & H) | [(H1 & H2 & H) | [(H1 & H2 & H)
                                                    | (H1 & H2 & H)]]];
    [left | right; left | right; right; left | do 3 right
    |left | right; left | right; right; left | do 3 right];
    (split; [exact H1|]; split; [exact H2|]); intros i Hi; auto.
Qed.

Lemma play_four_in_a_row_witness :
  (forall q, q <> 0%Z -> four_in_a_row open_three_board q = true ->
             four_in_a_row (<[1 := [1; 0; 0; 0; 0; 0]%Z]> open_three_board) q
             = true)
  /\ (forall q, q <> 1%Z ->
        four_in_a_row (<[1 := [1; 0; 0; 0; 0; 0]%Z]> open_three_board) q = true ->
        four_in_a_row open_three_board q = true).
Proof.
  apply (play_four_in_a_row open_three_board 1 1). reflexivity.
Defined.

(** ** Outcome of a playout *)

Lemma apply_plays_app b plays1 plays2 b1 :
  apply_plays b plays1 = Ok b1 ->
  apply_plays b (plays1 ++ plays2) = apply_plays b1 plays2.
Proof.
  revert b. induction plays1 as [|[c q] rest IH]; intros b H; simpl in *.
  - injection H as ->. reflexivity.
  - destruct (play b c q) as [b'| |]; simpl in *; try discriminate. auto.
Qed.

Lemma _mc_loop_empty fuel b p rng plays :
  valid_moves b = [] -> _mc_loop fuel b p rng plays = Ok (0%Z, rng, plays).
Proof. intros E. destruct fuel; simpl; rewrite E; reflexivity. Qed.




(** ** Value of the Monte Carlo evaluator *)

Lemma cnt_bound ws :
  (0 <= cnt 1 ws /\ 0 <= cnt (-1) ws
   /\ cnt 1 ws + cnt (-1) ws <= Z.of_nat (length ws))%Z.
Proof.
  unfold cnt. induction ws as [|w ws IH]; simpl; [lia|].
  destruct (decide (w = 1%Z)) as [->|H1].
  - rewrite filter_cons_True by reflexivity.
    rewrite (filter_cons_False (fun w => w = (-1)%Z)) by discriminate.
    simpl length. lia.
  - rewrite filter_cons_False by exact H1.
    destruct (decide (w = (-1)%Z)) as [->|H2].
    + rewrite filter_cons_True by reflexivity. simpl length. lia.
    + rewrite filter_cons_False by exact H2. lia.
Qed.

Lemma montecarlo_runs_outcomes n : forall b player rng,
  shape b = true -> player <> 0%Z ->
  exists ws rng' logs,
    montecarlo_runs n b player rng = Ok (ws, rng', logs)
    /\ length ws = n
    /\ (valid_moves b = [] -> Forall (fun w => w = 0%Z) ws /\ rng' = rng).
Proof.
  induction n as [|n IH]; intros b player rng Hs Hp.
  - exists [], rng, []. simpl. auto.
  - assert (- player <> 0)%Z as Hp' by lia.
    destruct (_mc_loop_total MAX_ROUNDS b (- player)%Z rng [] Hs Hp' ltac:(lia))
      as (w & rng1 & new & Hrun & _).
    destruct (IH b player rng1 Hs Hp) as (ws & rng2 & logs & H2 & Hl & Hz).
    exists (w :: ws), rng2, ([] ++ new :: logs).
    cbn [montecarlo_runs]. unfold _mc. cbv zeta. rewrite Hrun. cbn [bind].
    rewrite H2. cbn [bind]. split; [reflexivity|]. split; [simpl; lia|].
    intros E. rewrite (_mc_loop_empty _ _ _ _ _ E) in Hrun.
    injection Hrun as <- <- _. destruct (Hz E) as [Hall ->]. auto.
Qed.

Lemma montecarlo_score_bounds (b : Board) (player : Z) (rng : Rng) :
  shape b = true -> is_player player ->
  exists s rng' logs,
    montecarlo b player rng = Ok (s, rng', logs)
    /\ (-1 <= s <= 1)%Q
    /\ (valid_moves b = [] -> (s == 0)%Q /\ rng' = rng).
Proof.
  intros Hs Hp. unfold montecarlo.
  destruct (montecarlo_runs_outcomes montecarlo_samples b player rng Hs
              (player_nonzero _ Hp)) as (ws & rng' & logs & -> & Hl & Hz).
  cbn [bind]. eexists _, rng', logs. split; [reflexivity|].
  pose proof (cnt_bound ws) as (H1 & H2 & H3). rewrite Hl in H3.
  change (Pos.of_nat montecarlo_samples) with 100%positive.
  change (Z.of_nat montecarlo_samples) with 100%Z in H3.
  split.
  - unfold Qle. simpl. lia.
  - intros E. destruct (Hz E) as [Hall ->]. split; [|reflexivity].
    assert (cnt 1 ws = 0 /\ cnt (-1) ws = 0)%Z as [-> ->].
    { clear -Hall. unfold cnt.
      induction Hall as [|w ws Hw _ IH]; [split; reflexivity|]. subst w.
      rewrite !filter_cons_False by discriminate. exact IH. }
    reflexivity.
Qed.

(** X10. [montecarlo] completes its 100 playouts and its score lies between -1
    and 1; on a board without a legal move the score is 0 and no random
    number is drawn. *)
Theorem montecarlo_score_range (b : Board) (player : Z) (rng : Rng) :
  shape b = true -> is_player player ->
  exists s rng' logs,
    montecarlo b player rng = Ok (s, rng', logs)
    /\ (-1 <= s <= 1)%Q
    /\ (valid_moves b = [] -> (s == 0)%Q /\ rng' = rng).
Proof. apply montecarlo_score_bounds. Qed.

Lemma montecarlo_score_range_witness :
  exists s rng' logs,
    montecarlo full_draw_board 1 [4; 2] = Ok (s, rng', logs)
    /\ (-1 <= s <= 1)%Q
    /\ (valid_moves full_draw_board = [] -> (s == 0)%Q /\ rng' = [4; 2]).
Proof.
  apply (montecarlo_score_range full_draw_board 1 [4; 2]).
  - reflexivity.
  - left. reflexivity.
Defined.

(** X11. [eval_board] answers within [-1, 1]: exactly 1 when player +1 has a
    four-in-a-row (also when -1 has one too), exactly -1 when only -1 has
    one, in both cases without a playout; otherwise the Monte Carlo score. *)
Theorem eval_board_value (b : Board) (player : Z) (rng : Rng) :
  shape b = true -> is_player player ->
  exists s rng',
    eval_board b player rng = Ok (s, rng')
    /\ (-1 <= s <= 1)%Q
    /\ (four_in_a_row b 1 = true -> s = 1%Q /\ rng' = rng)
    /\ (four_in_a_row b 1 = false -> four_in_a_row b (-1) = true ->
        s = (-1)%Q /\ rng' = rng).
Proof.
  intros Hs Hp. unfold eval_board.
  destruct (four_in_a_row b 1).
  - exists 1%Q, rng. split; [reflexivity|]. split; [split; discriminate|].
    split; [auto | discriminate].
  - destruct (four_in_a_row b (-1)).
    + exists (-1)%Q, rng. split; [reflexivity|].
      split; [split; discriminate|]. split; [discriminate | auto].
    + destruct (montecarlo_score_bounds b player rng Hs Hp)
        as (s & rng' & logs & -> & Hr & _).
      cbn [bind]. exists s, rng'. split; [reflexivity|]. split; [exact Hr|].
      split; discriminate.
Qed.

Lemma eval_board_value_witness :
  exists s rng',
    eval_board full_win_board 1 [7] = Ok (s, rng')
    /\ (-1 <= s <= 1)%Q
    /\ (four_in_a_row full_win_board 1 = true -> s = 1%Q /\ rng' = [7])
    /\ (four_in_a_row full_win_board 1 = false ->
        four_in_a_row full_win_board (-1) = true ->
        s = (-1)%Q /\ rng' = [7]).
Proof.
  apply (eval_board_value full_win_board 1 [7]).
  - reflexivity.
  - left. reflexivity.
Defined.

(** ** Win on the next move *)

Lemma find_first_sorted (f : nat -> bool) l m :
  Sorted.StronglySorted lt l -> find f l = Some m ->
  forall x, x ∈ l -> x < m -> f x = false.
Proof.
  induction 1 as [|y l Hl IH Hy]; intros Hf x Hx Hlt; [inversion Hx|].
  simpl in Hf. rewrite Forall_forall in Hy.
  destruct (f y) eqn:Ey.
  - injection Hf as <-. apply elem_of_cons in Hx as [-> | Hx]; [lia|].
    specialize (Hy x Hx). lia.
  - apply elem_of_cons in Hx as [-> | Hx]; [exact Ey | auto].
Qed.

(** X15. With its default arguments, on a board under gravity,
    [can_win_next_move] gives the board back as it was and answers the
    lowest legal column in which [player] completes a four-in-a-row,
    with the score of that win, or (None, None) when no legal move wins. *)
Theorem can_win_next_move_lowest_win (b : Board) (player : Z) :
  shape b = true -> gravity b = true -> is_player player ->
  exists s m,
    can_win_next_move b player None None = Ok (s, m, b)
    /\ ((exists mv, s = Some (win_score b) /\ m = Some mv
                   /\ mv ∈ valid_moves b /\ wins b player mv = true
                   /\ forall m', m' ∈ valid_moves b -> m' < mv ->
                                 wins b player m' = false)
        \/ (s = None /\ m = None
            /\ forall m', m' ∈ valid_moves b -> wins b player m' = false)).
Proof.
  intros Hs Hg Hp. unfold can_win_next_move.
  destruct (decide (valid_moves b = [])) as [E|E].
  { rewrite E. exists None, None. split; [reflexivity|]. right.
    split; [reflexivity|]. split; [reflexivity|]. intros m' H. inversion H. }
  pose proof (valid_moves_nonempty_lt b Hs E) as Hlt.
  pose proof (win_score_pos b Hlt) as Hpos.
  rewrite (can_win_loop_find b player _ (valid_moves b) Hs Hg
             (player_nonzero _ Hp)); [|auto|fold (win_score b); lia].
  fold (win_score b).
  destruct (find (wins b player) (valid_moves b)) as [mv|] eqn:Hf.
  - exists (Some (win_score b)), (Some mv). split; [reflexivity|]. left.
    exists mv. pose proof Hf as Hf'. apply find_some in Hf' as [Hin Hw].
    split; [reflexivity|]. split; [reflexivity|].
    split; [apply list_elem_of_In, Hin|]. split; [exact Hw|].
    apply (find_first_sorted _ _ _ (filter_sorted _ _ (seq_sorted _ _)) Hf).
  - exists None, None. split; [reflexivity|]. right.
    split; [reflexivity|]. split; [reflexivity|]. intros m' Hm'.
    apply (find_none _ _ Hf). apply list_elem_of_In, Hm'.
Qed.

Lemma can_win_next_move_lowest_win_witness :
  exists s m,
    can_win_next_move open_three_board 1 None None = Ok (s, m, open_three_board)
    /\ ((exists mv, s = Some (win_score open_three_board) /\ m = Some mv
                   /\ mv ∈ valid_moves open_three_board
                   /\ wins open_three_board 1 mv = true
                   /\ forall m', m' ∈ valid_moves open_three_board -> m' < mv ->
                                 wins open_three_board 1 m' = false)
        \/ (s = None /\ m = None
            /\ forall m', m' ∈ valid_moves open_three_board ->
                          wins open_three_board 1 m' = false)).
Proof.
  apply (can_win_next_move_lowest_win open_three_board 1).
  - reflexivity.
  - reflexivity.
  - left. reflexivity.
Defined.

(** ** Leaf evaluator, search and selector *)

Lemma mc_simulation_loop_unfold n b player best_score best_move rng :
  mc_simulation_loop (S n) b player best_score best_move rng =
  (do (mv, rng) <- random_choice (valid_moves b) rng;
   do (score, rng) <- mc_playout MAX_ROUNDS b mv player player rng;
   if (score >? best_score)%Z
   then mc_simulation_loop n b player score (Some mv) rng
   else mc_simulation_loop n b player best_score best_move rng).
Proof. reflexivity. Qed.

(** X16. On a board under gravity that is not full, [mc_simulation] returns a
    legal first move with a score of magnitude at most 21; on a full board
    its first random choice raises [ValueError]. *)
Theorem mc_simulation_result (b : Board) (player : Z) (rng : Rng) :
  shape b = true -> gravity b = true -> is_player player ->
  (round_number b <> MAX_ROUNDS ->
   exists s mv rng',
     mc_simulation b player rng = Ok (s, Some mv, rng')
     /\ (- top_score <= s <= top_score)%Z /\ mv ∈ valid_moves b)
  /\ (round_number b = MAX_ROUNDS ->
      mc_simulation b player rng = Raise ValueError).
Proof.
  intros Hs Hg Hp. split.
  - intros Hr. apply mc_simulation_best; auto using player_nonzero.
  - intros Hr. unfold mc_simulation. change MC_ITERATIONS with (S 19).
    rewrite mc_simulation_loop_unfold, (full_no_valid_moves b Hs Hr).
    reflexivity.
Qed.

Lemma mc_simulation_result_witness :
  (round_number two_disc_board <> MAX_ROUNDS ->
   exists s mv rng',
     mc_simulation two_disc_board 1 [3; 9] = Ok (s, Some mv, rng')
     /\ (- top_score <= s <= top_score)%Z /\ mv ∈ valid_moves two_disc_board)
  /\ (round_number two_disc_board = MAX_ROUNDS ->
      mc_simulation two_disc_board 1 [3; 9] = Raise ValueError).
Proof.
  apply (mc_simulation_result two_disc_board 1 [3; 9]).
  - reflexivity.
  - reflexivity.
  - left. reflexivity.
Defined.

(** X18. The score of [minimax] stays between min(alpha, beta, -21) and
    max(alpha, 21), and the move it returns, if any, is a legal move of the
    board; on a full board it is (0, None) and no random number is drawn. *)
Theorem minimax_score_window (b : Board) (player depth alpha beta
  max_depth : Z) (rng : Rng) :
  shape b = true -> gravity b = true -> is_player player ->
  exists s m rng',
    minimax b player depth alpha beta max_depth rng = Ok (s, m, b, rng')
    /\ (Z.min (Z.min alpha beta) (- top_score) <= s <= Z.max alpha top_score)%Z
    /\ (forall mv, m = Some mv -> mv ∈ valid_moves b)
    /\ (round_number b = MAX_ROUNDS -> s = 0%Z /\ m = None /\ rng' = rng).
Proof.
  intros Hs Hg Hp. unfold minimax.
  destruct (minimax_aux_bounds (S MAX_ROUNDS) b player depth alpha beta
              max_depth rng Hs Hg Hp ltac:(lia))
    as (s & m & rng' & Hrun & Hsc & Hleg & _).
  exists s, m, rng'. split; [exact Hrun|]. split; [exact Hsc|].
  split; [exact Hleg|]. intros E.
  rewrite minimax_aux_unfold in Hrun. cbv zeta in Hrun.
  rewrite E, Z.eqb_refl in Hrun. injection Hrun as <- <- <-. auto.
Qed.

Lemma minimax_score_window_witness :
  exists s m rng',
    minimax two_disc_board (-1) 1 (-1000) 1000 MAX_DEPTH [5; 0; 2]
    = Ok (s, m, two_disc_board, rng')
    /\ (Z.min (Z.min (-1000) 1000) (- top_score) <= s
        <= Z.max (-1000) top_score)%Z
    /\ (forall mv, m = Some mv -> mv ∈ valid_moves two_disc_board)
    /\ (round_number two_disc_board = MAX_ROUNDS ->
        s = 0%Z /\ m = None /\ rng' = [5; 0; 2]).
Proof.
  apply (minimax_score_window two_disc_board (-1) 1 (-1000) 1000 MAX_DEPTH
           [5; 0; 2]).
  - reflexivity.
  - reflexivity.
  - right. reflexivity.
Defined.

(** X19. Called with alpha below -21 and below beta on a board that is not full,
    [minimax] always returns a move, and a legal one: the no-move answers of
    the prune and of a search without improvement cannot occur. *)
Theorem minimax_finds_move (b : Board) (player depth alpha beta
  max_depth : Z) (rng : Rng) :
  shape b = true -> gravity b = true -> is_player player ->
  round_number b <> MAX_ROUNDS ->
  (alpha < - top_score)%Z -> (alpha < beta)%Z ->
  exists s mv rng',
    minimax b player depth alpha beta max_depth rng = Ok (s, Some mv, b, rng')
    /\ mv ∈ valid_moves b.
Proof.
  intros Hs Hg Hp Hr Ha Hab. unfold minimax.
  destruct (minimax_aux_bounds (S MAX_ROUNDS) b player depth alpha beta
              max_depth rng Hs Hg Hp ltac:(lia))
    as (s & m & rng' & Hrun & _ & Hleg & Hex).
  destruct m as [mv|]; [|exfalso; apply Hex; auto].
  exists s, mv, rng'. split; [exact Hrun | apply Hleg; reflexivity].
Qed.

Lemma minimax_finds_move_witness :
  exists s mv rng',
    minimax two_disc_board (-1) 1 (-1000) 1000 MAX_DEPTH [5; 0; 2]
    = Ok (s, Some mv, two_disc_board, rng')
    /\ mv ∈ valid_moves two_disc_board.
Proof.
  apply (minimax_finds_move two_disc_board (-1) 1 (-1000) 1000 MAX_DEPTH
           [5; 0; 2]).
  - reflexivity.
  - reflexivity.
  - right. reflexivity.
  - vm_compute. lia.
  - vm_compute. reflexivity.
  - reflexivity.
Defined.

(** X20. On every board under gravity that is not full, with either strategy and
    at every round, [choose_move] returns a legal column and leaves the
    board after that move, which keeps shape and gravity and holds one disc
    more: it never answers None while a move exists. *)
Theorem choose_move_plays_legal_move {SC : Scoring} (b : Board) (p v : Z)
  (rng : Rng) :
  shape b = true -> gravity b = true -> is_player p ->
  round_number b <> MAX_ROUNDS ->
  exists m b' rng',
    choose_move b p v rng = Ok (Some m, b', rng')
    /\ m ∈ valid_moves b /\ play b m p = Ok b'
    /\ shape b' = true /\ gravity b' = true
    /\ round_number b' = S (round_number b).
Proof.
  intros Hs Hg Hp Hr.
  destruct (choose_move_not_full b p v rng Hs Hg Hp Hr)
    as (m & b' & rng' & Hrun & Hm & Hplay).
  exists m, b', rng'. pose proof (player_nonzero _ Hp) as Hnz.
  split; [exact Hrun|]. split; [exact Hm|]. split; [exact Hplay|].
  split; [exact (play_shape _ _ _ _ Hs Hplay)|].
  split; [exact (play_gravity _ _ _ _ Hg Hnz Hplay)|].
  exact (play_round_number _ _ _ _ Hnz Hplay).
Qed.

Lemma choose_move_plays_legal_move_witness :
  exists m b' rng',
    choose_move (SC := rational_scoring) open_three_board (-1) 2 [1; 1] 
    = Ok (Some m, b', rng')
    /\ m ∈ valid_moves open_three_board /\ play open_three_board m (-1) = Ok b'
    /\ shape b' = true /\ gravity b' = true
    /\ round_number b' = S (round_number open_three_board).
Proof.
  apply (choose_move_plays_legal_move (SC := rational_scoring)
           open_three_board (-1) 2 [1; 1]).
  - reflexivity.
  - reflexivity.
  - right. reflexivity.
  - vm_compute. lia.
Defined.

(** ** Structure of the search tree *)

Lemma counters_only_refl h : counters_only h h.
Proof.
  split; [reflexivity|]. intros c nc H. exists nc.
  auto using same_static_refl.
Qed.

Lemma counters_only_trans h1 h2 h3 :
  counters_only h1 h2 -> counters_only h2 h3 -> counters_only h1 h3.
Proof.
  intros [L12 H12] [L23 H23]. split; [congruence|]. intros c nc H.
  destruct (H12 c nc H) as (n2 & H2 & (E1 & E2 & E3 & E4) & Ec & En).
  destruct (H23 c n2 H2) as (n3 & H3 & (F1 & F2 & F3 & F4) & Fc & Fn).
  exists n3. split; [exact H3|]. split; [repeat split; congruence|].
  split; congruence.
Qed.

Lemma counters_only_insert (h : Heap) a n n' :
  h !! a = Some n -> same_static n n' ->
  Node.childs n' = Node.childs n -> Node.next_moves n' = Node.next_moves n ->
  counters_only h (<[a := n']> h).
Proof.
  intros Ha Hst Hch Hnx. split; [apply length_insert|].
  intros c nc Hc. destruct (decide (c = a)) as [->|Hne].
  - rewrite list_lookup_insert_eq by (eapply lookup_lt_Some; eauto).
    exists n'. assert (nc = n) as -> by congruence. auto.
  - rewrite list_lookup_insert_ne by congruence.
    exists nc. auto using same_static_refl.
Qed.

Lemma counters_only_back h h' c nc' :
  counters_only h h' -> h' !! c = Some nc' ->
  exists nc, h !! c = Some nc /\ same_static nc nc'
             /\ Node.childs nc' = Node.childs nc
             /\ Node.next_moves nc' = Node.next_moves nc.
Proof.
  intros [Hlen Hall] Hc.
  destruct (lookup_lt_is_Some_2 h c) as [nc Hnc].
  { rewrite <- Hlen. eapply lookup_lt_Some; eauto. }
  destruct (Hall c nc Hnc) as (n2 & H2 & Hrest).
  exists nc. assert (n2 = nc') as <- by congruence. auto.
Qed.

Lemma child_move_static (h h' : Heap) c nc nc' :
  h !! c = Some nc -> h' !! c = Some nc' -> same_static nc nc' ->
  child_move h' c = child_move h c.
Proof.
  intros Hc Hc' (_ & _ & _ & Em). unfold child_move. rewrite Hc, Hc', Em.
  reflexivity.
Qed.

Lemma tree_node_children_moves (h h' : Heap) a n :
  tree_node h a n ->
  (forall c nc, h !! c = Some nc ->
     exists nc', h' !! c = Some nc' /\ same_static nc nc') ->
  map (child_move h') (Node.childs n) = map (child_move h) (Node.childs n).
Proof.
  intros (_ & Hch & _) Hext. apply map_ext_in. intros c Hc.
  apply list_elem_of_In in Hc. destruct (Hch c Hc) as (nc & Hnc & _).
  destruct (Hext c nc Hnc) as (nc' & Hnc' & Hst).
  eapply child_move_static; eauto.
Qed.

(** A node keeps its place in the tree when the heap around it only grows
    and keeps the fixed parts of its nodes. *)
Lemma tree_node_ext (h h' : Heap) a n n' :
  tree_node h a n ->
  (forall c nc, h !! c = Some nc ->
     exists nc', h' !! c = Some nc' /\ same_static nc nc') ->
  same_static n n' -> Node.childs n' = Node.childs n ->
  Node.next_moves n' = Node.next_moves n ->
  tree_node h' a n'.
Proof.
  intros Hnode Hext (Eb & Ep & Epa & Em) Ech Enx.
  pose proof (tree_node_children_moves h h' a n Hnode Hext) as Hmoves.
  destruct Hnode as (Hpa & Hch & Hperm). split; [|split].
  - rewrite <- Epa. exact Hpa.
  - rewrite Ech. intros c Hc.
    destruct (Hch c Hc) as (nc & Hnc & Hp & Hm & Hpl & Hplay).
    destruct (Hext c nc Hnc) as (nc' & Hnc' & Hst).
    rewrite (child_move_static h h' c nc nc' Hnc Hnc' Hst).
    destruct Hst as (Fb & Fp & Fpa & Fm).
    exists nc'. split; [exact Hnc'|]. split; [congruence|].
    split; [congruence|]. split; [congruence|]. rewrite <- Eb, <- Ep, <- Fb.
    exact Hplay.
  - rewrite Ech, Enx, Hmoves, <- Eb. exact Hperm.
Qed.

Lemma tree_inv_counters h h' :
  tree_inv h -> counters_only h h' -> tree_inv h'.
Proof.
  intros Hinv Hco a n' Ha.
  destruct (counters_only_back h h' a n' Hco Ha) as (n & Hn & Hst & Hch & Hnx).
  apply (tree_node_ext h h' a n n'); auto.
  destruct Hco as [_ Hall]. intros c nc Hc.
  destruct (Hall c nc Hc) as (nc' & ? & ? & _). eauto.
Qed.

Lemma root_visits_insert (h : Heap) a n' :
  a < length h ->
  root_visits (<[a := n']> h)
  = if decide (a = 0) then Node.num_visits n' else root_visits h.
Proof.
  intros Ha. unfold root_visits. destruct (decide (a = 0)) as [->|Hne].
  - rewrite list_lookup_insert_eq by exact Ha. reflexivity.
  - rewrite list_lookup_insert_ne by congruence. reflexivity.
Qed.

(** [backpropagate] changes counters only, and adds exactly one visit to
    the root. *)
Lemma backpropagate_loop_root b winner fuel : forall h a n pending,
  heap_ok b pending h -> tree_inv h -> h !! a = Some n -> a < fuel ->
  (pending = None \/ pending = Some a) ->
  exists h', Node.backpropagate_loop fuel h (Some a) winner = Ok h'
             /\ heap_ok b None h' /\ counters_only h h'
             /\ root_visits h' = (root_visits h + 1)%Z.
Proof.
  induction fuel as [|fuel IH]; intros h a n pending Hok Hinv Ha Hf Hpend; [lia|].
  rewrite (backpropagate_loop_unfold _ _ _ _ _ Ha).
  set (n' := Node.mk _ _ _ _ _ _ _ _).
  destruct (heap_ok_node _ _ _ _ _ Hok Ha) as (_ & _ & _ & _ & Hpa & Hst).
  pose proof (lookup_lt_Some _ _ _ Ha) as Halt.
  assert (heap_ok b None (<[a := n']> h)) as Hok'.
  { apply (heap_ok_update_stats b pending h a n n'); auto.
    - repeat split.
    - apply stats_ok_step, Hst.
    - subst n'. cbn [Node.num_visits]. destruct Hst as [Hv _]. lia. }
  assert (counters_only h (<[a := n']> h)) as Hco.
  { apply (counters_only_insert h a n n' Ha); repeat split. }
  pose proof (root_visits_insert h a n' Halt) as Hrv.
  destruct (Node.parent n) as [pa|] eqn:Epa.
  - specialize (Hpa pa eq_refl).
    destruct (lookup_lt_is_Some_2 (<[a := n']> h) pa) as [npa Hnpa].
    { rewrite length_insert. lia. }
    destruct (IH _ pa npa None Hok' (tree_inv_counters _ _ Hinv Hco) Hnpa
                ltac:(lia) ltac:(auto)) as (h' & -> & Hok2 & Hco2 & Hrv2).
    exists h'. split; [reflexivity|]. split; [exact Hok2|].
    split; [eapply counters_only_trans; eauto|].
    rewrite Hrv2, Hrv. rewrite decide_False by lia. reflexivity.
  - exists (<[a := n']> h). split; [destruct fuel; reflexivity|].
    split; [exact Hok'|]. split; [exact Hco|].
    destruct (decide (a = 0)) as [->|Hne].
    + rewrite Hrv. unfold root_visits. rewrite Ha. reflexivity.
    + destruct (Hinv a n Ha) as (Hroot & _). exfalso. apply (Hroot Hne Epa).
Qed.

Lemma list_remove_perm x : forall l rest,
  list_remove x l = Ok rest -> l ≡ₚ x :: rest.
Proof.
  induction l as [|y l IH]; intros rest H; cbn [list_remove] in H;
    [discriminate|].
  destruct (Nat.eqb_spec x y) as [->|Hne].
  - injection H as ->. reflexivity.
  - destruct (list_remove x l) as [rest'| |]; cbn [bind] in H; try discriminate.
    injection H as <-. rewrite (IH rest' eq_refl). apply Permutation_swap.
Qed.

(** [expand] keeps the structure of the tree: the new child hangs under the
    expanded node with the board after the move, and the move leaves the
    untried moves of that node. *)
Lemma expand_tree b h k n mv :
  heap_ok b None h -> tree_inv h -> h !! k = Some n ->
  mv ∈ Node.next_moves n ->
  exists h',
    Node.expand h k mv = Ok (h', length h)
    /\ tree_inv h' /\ length h' = S (length h)
    /\ root_visits h' = root_visits h.
Proof.
  intros Hok Hinv Hk Hmv.
  destruct (heap_ok_node _ _ _ _ _ Hok Hk) as (Hs & Hp & Hnx & _).
  destruct (play_valid _ mv (- Node.player n)%Z Hs (Hnx mv Hmv))
    as (col & i & _ & _ & Hplay).
  destruct (list_remove_elem mv _ Hmv) as (rest & Hrm & _).
  pose proof (list_remove_perm _ _ _ Hrm) as Hperm.
  unfold Node.expand. rewrite (deref_Some _ _ _ Hk). cbn [bind].
  rewrite Hplay. cbn [bind]. rewrite Hrm. cbn [bind].
  set (nb := <[mv := <[i := (- Node.player n)%Z]> col]> (Node.board n)) in *.
  set (n' := Node.mk _ _ _ _ _ _ _ _).
  set (child := Node.init _ _ _ _).
  set (h' := <[k := n']> h ++ [child]).
  pose proof (lookup_lt_Some _ _ _ Hk) as Hklt.
  assert (same_static n n') as Hstat by (repeat split).
  assert (forall c nc, h !! c = Some nc ->
            exists nc', h' !! c = Some nc' /\ same_static nc nc') as Hext.
  { intros c nc Hc. subst h'.
    rewrite (expand_lookup_old h k n n' child c nc Hk Hc).
    eexists. split; [reflexivity|]. destruct (decide (c = k)) as [->|Hne].
    - assert (nc = n) as -> by congruence. exact Hstat.
    - apply same_static_refl. }
  assert (h' !! length h = Some child) as Hnew by apply expand_lookup_new.
  assert (child_move h' (length h) = mv) as Hcm.
  { unfold child_move. rewrite Hnew. reflexivity. }
  exists h'. split; [reflexivity|]. split; [|split].
  - intros a na' Ha'. destruct (h !! a) as [na|] eqn:Hold.
    + subst h'. rewrite (expand_lookup_old h k n n' child a na Hk Hold) in Ha'.
      injection Ha' as <-. destruct (decide (a = k)) as [->|Hne].
      * assert (na = n) as -> by congruence.
        pose proof (tree_node_children_moves h _ k n (Hinv k n Hk) Hext) as Hmv'.
        destruct (Hinv k n Hk) as (Hpa & Hch & Hpm). split; [|split].
        -- exact Hpa.
        -- subst n'. cbn [Node.childs Node.player Node.board]. intros c Hc.
           apply elem_of_app in Hc as [Hc | Hc].
           ++ destruct (Hch c Hc) as (nc & Hnc & Hpc & Hm & Hpl & Hpy).
              destruct (Hext c nc Hnc) as (nc' & Hnc' & Hst).
              rewrite (child_move_static h _ c nc nc' Hnc Hnc' Hst).
              destruct Hst as (Fb & Fp & Fpa & Fm).
              exists nc'. split; [exact Hnc'|]. split; [congruence|].
              split; [congruence|]. split; [congruence|].
              rewrite <- Fb. exact Hpy.
           ++ apply list_elem_of_singleton in Hc. subst c. exists child.
              rewrite Hcm. split; [exact Hnew|]. repeat split. exact Hplay.
        -- subst n'. cbn [Node.childs Node.next_moves Node.board].
           rewrite map_app, Hmv'. cbn [map]. rewrite Hcm.
           rewrite <- Hpm, Hperm, app_assoc.
           rewrite (Permutation_app_comm _ [mv]). reflexivity.
      * apply (tree_node_ext h _ a na na); auto using same_static_refl.
    + apply lookup_ge_None_1 in Hold.
      pose proof (lookup_lt_Some _ _ _ Ha') as Halt. subst h'.
      rewrite length_app, length_insert in Halt. simpl in Halt.
      assert (a = length h) as -> by lia.
      rewrite Hnew in Ha'. injection Ha' as <-. split; [|split].
      * discriminate.
      * intros c Hc. inversion Hc.
      * subst child. unfold Node.init.
        cbn [Node.childs Node.next_moves Node.board map].
        rewrite app_nil_r. reflexivity.
  - subst h'. rewrite length_app, length_insert. simpl. lia.
  - unfold root_visits.
    destruct (lookup_lt_is_Some_2 h 0 ltac:(lia)) as [r Hr].
    subst h'. rewrite (expand_lookup_old h k n n' child 0 r Hk Hr), Hr.
    destruct (decide (0 = k)) as [<-|Hne]; [|reflexivity].
    assert (r = n) as -> by congruence. reflexivity.
Qed.

Lemma initial_tree_inv b p : tree_inv [Node.init b p None None].
Proof.
  intros a n Ha.
  destruct a as [|a]; [|rewrite lookup_cons, lookup_nil in Ha; discriminate].
  injection Ha as <-. unfold Node.init. split; [|split].
  - intros H. contradiction.
  - cbn [Node.childs]. intros c Hc. inversion Hc.
  - cbn [Node.childs Node.next_moves Node.board map]. rewrite app_nil_r.
    reflexivity.
Qed.

Lemma valid_moves_NoDup b : NoDup (valid_moves b).
Proof. unfold valid_moves. apply NoDup_filter, NoDup_seq. Qed.

Section Tree_properties.
Context {SC : Scoring}.

(** One pass of the loop of [MCTS] keeps the structure of the tree, visits
    the root once and allocates at most one node. *)
Lemma iteration_tree b h rng :
  heap_ok b None h -> tree_inv h ->
  exists h' rng',
    iteration h 0 rng = Ok (h', rng') /\ heap_ok b None h' /\ tree_inv h'
    /\ root_visits h' = (root_visits h + 1)%Z
    /\ length h <= length h' <= S (length h).
Proof.
  intros Hok Hinv. pose proof Hok as [(r & Hr & _) _].
  unfold iteration.
  destruct (descend_ok b h (length h) 0 r Hok Hr ltac:(lia))
    as (k & nk & -> & Hk & _).
  cbn [bind]. rewrite (deref_Some _ _ _ Hk). cbn [bind].
  destruct (0 <? length (Node.next_moves nk)) eqn:Hnm.
  - assert (Node.next_moves nk <> []) as Hne.
    { intros E. rewrite E in Hnm. discriminate. }
    destruct (random_choice_elem _ rng Hne) as (mv & -> & Hmv). cbn [bind].
    destruct (expand_ok b h k nk mv Hok Hk Hmv)
      as (h1 & Hexp & Hok1 & (nc & Hnc) & _).
    destruct (expand_tree b h k nk mv Hok Hinv Hk Hmv)
      as (h1' & Hexp' & Hinv1 & Hlen1 & Hrv1).
    rewrite Hexp in Hexp'. injection Hexp' as <-. rewrite Hexp.
    cbn [bind]. rewrite (deref_Some _ _ _ Hnc). cbn [bind].
    destruct (heap_ok_node _ _ _ _ _ Hok1 Hnc) as (Hs & Hp & _).
    destruct (rollout_total h1 (length h) nc (snd (draw rng)) Hnc Hs Hp)
      as (w & rng2 & ->).
    cbn [bind]. unfold Node.backpropagate.
    destruct (backpropagate_loop_root b w (length h1) h1 (length h) nc
                (Some (length h)) Hok1 Hinv1 Hnc ltac:(lia) ltac:(auto))
      as (h2 & -> & Hok2 & Hco & Hrv2).
    cbn [bind]. exists h2, rng2. split; [reflexivity|]. split; [exact Hok2|].
    split; [exact (tree_inv_counters _ _ Hinv1 Hco)|].
    destruct Hco as [Hlen2 _]. split; [lia | lia].
  - cbn [bind]. rewrite (deref_Some _ _ _ Hk). cbn [bind].
    destruct (heap_ok_node _ _ _ _ _ Hok Hk) as (Hs & Hp & _).
    destruct (rollout_total h k nk rng Hk Hs Hp) as (w & rng2 & ->).
    cbn [bind]. unfold Node.backpropagate.
    destruct (backpropagate_loop_root b w (length h) h k nk None Hok Hinv Hk
                (lookup_lt_Some _ _ _ Hk) ltac:(auto))
      as (h2 & -> & Hok2 & Hco & Hrv2).
    cbn [bind]. exists h2, rng2. split; [reflexivity|]. split; [exact Hok2|].
    split; [exact (tree_inv_counters _ _ Hinv Hco)|].
    destruct Hco as [Hlen2 _]. split; [exact Hrv2 | lia].
Qed.

Lemma iterations_tree b k : forall h rng,
  heap_ok b None h -> tree_inv h ->
  exists h' rng',
    iterations k h 0 rng = Ok (h', rng') /\ heap_ok b None h' /\ tree_inv h'
    /\ root_visits h' = (root_visits h + Z.of_nat k)%Z
    /\ length h <= length h' <= length h + k.
Proof.
  induction k as [|k IH]; intros h rng Hok Hinv.
  - exists h, rng. split; [reflexivity|]. split; [exact Hok|].
    split; [exact Hinv|]. split; lia.
  - cbn [iterations].
    destruct (iteration_tree b h rng Hok Hinv)
      as (h1 & rng1 & -> & Hok1 & Hinv1 & Hrv1 & Hlen1).
    cbn [bind].
    destruct (IH h1 rng1 Hok1 Hinv1) as (h2 & rng2 & -> & Hok2 & Hinv2 & Hrv2 & Hlen2).
    exists h2, rng2. split; [reflexivity|]. split; [exact Hok2|].
    split; [exact Hinv2|]. split; lia.
Qed.

(** X13. After [k] passes of the loop of [MCTS] the root has been visited
    exactly [k] times, and the tree has at most [k] nodes besides the root:
    every pass reaches the root in backpropagation and expands at most one
    node. *)
Theorem MCTS_root_visited_once_per_iteration (b : Board) (player : Z)
  (k : nat) (rng : Rng) :
  shape b = true -> is_player player ->
  exists h rng' r,
    iterations k [Node.init b (- player)%Z None None] 0 rng = Ok (h, rng')
    /\ h !! 0 = Some r
    /\ Node.num_visits r = Z.of_nat k
    /\ Node.board r = b /\ Node.parent r = None
    /\ 1 <= length h <= S k.
Proof.
  intros Hs Hp.
  destruct (iterations_tree b k _ rng (initial_heap_ok b player Hs Hp)
              (initial_tree_inv b (- player)%Z))
    as (h & rng' & Hrun & Hok & Hinv & Hrv & Hlen).
  pose proof Hok as [(r & Hr & Hb) _].
  exists h, rng', r. split; [exact Hrun|]. split; [exact Hr|].
  split; [|split; [exact Hb|split]].
  - unfold root_visits in Hrv. rewrite Hr in Hrv. simpl in Hrv. lia.
  - destruct (heap_ok_node _ _ _ _ _ Hok Hr) as (_ & _ & _ & _ & Hpa & _).
    destruct (Node.parent r) as [pa|]; [|reflexivity].
    specialize (Hpa pa eq_refl). lia.
  - simpl in Hlen. lia.
Qed.

(** X14. After any number of passes of the loop of [MCTS], the heap is a tree
    that mirrors the game: every node but the root has a parent; each child
    holds its parent's board after the child's move, made by the opponent
    of the parent's player; and the untried moves of a node together with
    the moves of its children are the legal moves of its board, with no
    move twice. *)
Theorem MCTS_tree_mirrors_game (b : Board) (player : Z) (k : nat)
  (rng : Rng) :
  shape b = true -> is_player player ->
  exists h rng',
    iterations k [Node.init b (- player)%Z None None] 0 rng = Ok (h, rng')
    /\ forall a n, h !! a = Some n ->
         tree_node h a n
         /\ NoDup (Node.next_moves n ++ map (child_move h) (Node.childs n)).
Proof.
  intros Hs Hp.
  destruct (iterations_tree b k _ rng (initial_heap_ok b player Hs Hp)
              (initial_tree_inv b (- player)%Z))
    as (h & rng' & Hrun & Hok & Hinv & _).
  exists h, rng'. split; [exact Hrun|]. intros a n Ha.
  split; [exact (Hinv a n Ha)|].
  destruct (Hinv a n Ha) as (_ & _ & Hperm).
  rewrite Hperm. apply valid_moves_NoDup.
Qed.

End Tree_properties.

Lemma MCTS_root_visited_once_per_iteration_witness :
  exists h rng' r,
    iterations (SC := rational_scoring) 4
      [Node.init open_three_board (- 1)%Z None None] 0 [2; 7; 1] = Ok (h, rng')
    /\ h !! 0 = Some r
    /\ Node.num_visits r = Z.of_nat 4
    /\ Node.board r = open_three_board /\ Node.parent r = None
    /\ 1 <= length h <= S 4.
Proof.
  apply (MCTS_root_visited_once_per_iteration (SC := rational_scoring)
           open_three_board 1 4 [2; 7; 1]).
  - reflexivity.
  - left. reflexivity.
Defined.

Lemma MCTS_tree_mirrors_game_witness :
  exists h rng',
    iterations (SC := rational_scoring) 4
      [Node.init open_three_board (- 1)%Z None None] 0 [2; 7; 1] = Ok (h, rng')
    /\ forall a n, h !! a = Some n ->
         tree_node h a n
         /\ NoDup (Node.next_moves n ++ map (child_move h) (Node.childs n)).
Proof.
  apply (MCTS_tree_mirrors_game (SC := rational_scoring) open_three_board 1 4
           [2; 7; 1]).
  - reflexivity.
  - left. reflexivity.
Defined.

(** ** Rollout of a node *)

Lemma simulate_loop_winner fuel : forall b p rng,
  shape b = true -> p <> 0%Z -> MAX_ROUNDS - round_number b <= fuel ->
  exists w rng', Node.simulate_loop fuel b p rng = Ok (w, rng')
                 /\ (w = 0%Z \/ w = p \/ w = (- p)%Z).
Proof.
  induction fuel as [|fuel IH]; intros b p rng Hs Hp Hf;
    (destruct (decide (valid_moves b = [])) as [E|E];
     [rewrite (simulate_loop_empty _ _ _ _ E); eauto|]);
    pose proof (valid_moves_nonempty_lt b Hs E) as Hlt; [lia|].
  rewrite (simulate_loop_unfold _ _ _ _ E).
  destruct (random_choice_elem (valid_moves b) rng E) as (c & -> & Hc).
  destruct (play_valid b c p Hs Hc) as (col & i & _ & _ & Hplay).
  cbn [bind]. rewrite Hplay. cbn [bind].
  pose proof (play_shape _ _ _ _ Hs Hplay) as Hs'.
  pose proof (play_round_number _ _ _ _ Hp Hplay) as Hr.
  destruct (four_in_a_row _ p).
  { exists p, (snd (draw rng)). auto. }
  assert (- p <> 0)%Z as Hp' by lia.
  destruct (IH _ (- p)%Z (snd (draw rng)) Hs' Hp' ltac:(lia))
    as (w & rng' & -> & Hw).
  exists w, rng'. split; [reflexivity|]. rewrite Z.opp_involutive in Hw. tauto.
Qed.

(** X12. A rollout from a node always ends and names as winner 0, the player of
    the node or its opponent; from a board without a legal move it answers
    0 and draws no random number. *)
Theorem simulate_winner (h : Heap) (self : nat) (n : Node.t) (rng : Rng) :
  h !! self = Some n ->
  shape (Node.board n) = true -> is_player (Node.player n) ->
  exists w rng',
    Node.simulate h self rng = Ok (w, rng')
    /\ (w = 0%Z \/ w = Node.player n \/ w = (- Node.player n)%Z)
    /\ (valid_moves (Node.board n) = [] -> w = 0%Z /\ rng' = rng).
Proof.
  intros Hn Hs Hp. unfold Node.simulate. rewrite (deref_Some _ _ _ Hn).
  cbn [bind].
  assert (- Node.player n <> 0)%Z as Hp'.
  { pose proof (player_nonzero _ Hp). lia. }
  destruct (simulate_loop_winner MAX_ROUNDS (Node.board n) (- Node.player n)%Z
              rng Hs Hp' ltac:(lia)) as (w & rng' & Hrun & Hw).
  exists w, rng'. split; [exact Hrun|]. split.
  - rewrite Z.opp_involutive in Hw. tauto.
  - intros E. rewrite (simulate_loop_empty _ _ _ _ E) in Hrun.
    injection Hrun as <- <-. auto.
Qed.

Lemma simulate_winner_witness :
  exists w rng',
    Node.simulate [Node.init open_three_board 1 None None] 0 [3; 3] = Ok (w, rng')
    /\ (w = 0%Z \/ w = Node.player (Node.init open_three_board 1 None None)
        \/ w = (- Node.player (Node.init open_three_board 1 None None))%Z)
    /\ (valid_moves (Node.board (Node.init open_three_board 1 None None)) = [] ->
        w = 0%Z /\ rng' = [3; 3]).
Proof.
  apply (simulate_winner [Node.init open_three_board 1 None None] 0
           (Node.init open_three_board 1 None None) [3; 3]).
  - reflexivity.
  - reflexivity.
  - left. reflexivity.
Defined.

(** ** Last cell in the leaf evaluator *)

Lemma mc_playout_last_cell tb mv tp p rng fuel :
  shape tb = true -> tp <> 0%Z -> mv ∈ valid_moves tb ->
  S (round_number tb) = MAX_ROUNDS ->
  mc_playout (S fuel) tb mv tp p rng = Ok (0%Z, rng).
Proof.
  intros Hs Htp Hmv Hr.
  destruct (play_valid tb mv tp Hs Hmv) as (col & i & _ & _ & Hplay).
  cbn [mc_playout]. rewrite Hplay. cbn [bind].
  rewrite (play_round_number _ _ _ _ Htp Hplay), Hr, Nat.eqb_refl. reflexivity.
Qed.

Lemma mc_simulation_loop_last_cell n : forall b p bs bm rng,
  shape b = true -> gravity b = true -> p <> 0%Z ->
  S (round_number b) = MAX_ROUNDS ->
  (bs = - Z.of_nat MAX_ROUNDS /\ bm = None
   \/ bs = 0 /\ exists mv, bm = Some mv /\ mv ∈ valid_moves b)%Z ->
  exists mv rng',
    mc_simulation_loop (S n) b p bs bm rng = Ok (0%Z, Some mv, rng')
    /\ mv ∈ valid_moves b.
Proof.
  induction n as [|n IH]; intros b p bs bm rng Hs Hg Hp Hr Hinv;
    assert (round_number b <> MAX_ROUNDS) as Hne by lia;
    destruct (random_choice_elem _ rng (valid_moves_nonempty _ Hs Hg Hne))
      as (x & Hx & Hin);
    cbn [mc_simulation_loop]; rewrite Hx; cbn [bind];
    change MAX_ROUNDS with (S 41) at 1;
    rewrite (mc_playout_last_cell b x p p _ 41 Hs Hp Hin Hr); cbn [bind].
  - destruct Hinv as [[-> ->] | (-> & mv & -> & Hmv)].
    + exists x, (snd (draw rng)). split; [reflexivity | exact Hin].
    + exists mv, (snd (draw rng)). split; [reflexivity | exact Hmv].
  - destruct Hinv as [[-> ->] | (-> & mv & -> & Hmv)].
    + change (0 >? - Z.of_nat MAX_ROUNDS)%Z with true. cbv iota.
      apply IH; auto. right. split; [reflexivity|]. eauto.
    + change (0 >? 0)%Z with false. cbv iota.
      apply IH; auto. right. split; [reflexivity|]. eauto.
Qed.

(** X17. With a single empty cell left, [mc_simulation] scores every playout 0,
    whether or not the last disc completes a four-in-a-row: the test for a
    full board comes before the test for a win. *)
Theorem mc_simulation_last_cell_scores_zero (b : Board) (player : Z)
  (rng : Rng) :
  shape b = true -> gravity b = true -> is_player player ->
  S (round_number b) = MAX_ROUNDS ->
  exists mv rng',
    mc_simulation b player rng = Ok (0%Z, Some mv, rng')
    /\ mv ∈ valid_moves b.
Proof.
  intros Hs Hg Hp Hr. unfold mc_simulation. change MC_ITERATIONS with (S 19).
  apply mc_simulation_loop_last_cell; auto using player_nonzero.
Qed.

Lemma mc_simulation_last_cell_scores_zero_witness :
  wins last_cell_board (-1) 0 = true
  /\ exists mv rng',
       mc_simulation last_cell_board (-1) [8] = Ok (0%Z, Some mv, rng')
       /\ mv ∈ valid_moves last_cell_board.
Proof.
  split; [vm_compute; reflexivity|].
  apply (mc_simulation_last_cell_scores_zero last_cell_board (-1) [8]).
  - reflexivity.
  - reflexivity.
  - right. reflexivity.
  - reflexivity.
Defined.

(** ** Display *)

Lemma cell_in_range b c r :
  cells_ok b = true ->
  cell b c r = 0%Z \/ cell b c r = 1%Z \/ cell b c r = (-1)%Z.
Proof.
  intros H. unfold cell. destruct (b !! c) as [col|] eqn:Hc; [|auto].
  destruct (col !! r) as [v|] eqn:Hr; [|auto]. simpl.
  unfold cells_ok in H. rewrite forallb_forall in H.
  specialize (H col (proj1 (list_elem_of_In _ _) (list_elem_of_lookup_2 _ _ _ Hc))).
  rewrite forallb_forall in H.
  specialize (H v (proj1 (list_elem_of_In _ _) (list_elem_of_lookup_2 _ _ _ Hr))).
  apply orb_prop in H as [H | H]; [apply orb_prop in H as [H | H]|];
    apply Z.eqb_eq in H; auto.
Qed.

Lemma display_cell_cancel v1 v2 s1 s2 :
  (v1 = 0 \/ v1 = 1 \/ v1 = -1)%Z -> (v2 = 0 \/ v2 = 1 \/ v2 = -1)%Z ->
  String.append (display_cell v1) s1 = String.append (display_cell v2) s2 ->
  v1 = v2 /\ s1 = s2.
Proof.
  intros [-> | [-> | ->]] [-> | [-> | ->]] H; cbn in H;
    try discriminate; injection H as ->; auto.
Qed.

Lemma display_line_cancel b1 b2 j : forall l,
  cells_ok b1 = true -> cells_ok b2 = true ->
  foldr (fun i line => String.append (display_cell (cell b1 i j)) line)
        ""%string l
  = foldr (fun i line => String.append (display_cell (cell b2 i j)) line)
          ""%string l ->
  forall i, i ∈ l -> cell b1 i j = cell b2 i j.
Proof.
  induction l as [|x l IH]; intros H1 H2 H i Hi; [inversion Hi|].
  cbn [foldr] in H.
  apply display_cell_cancel in H as [Hx Hl]; auto using cell_in_range.
  apply elem_of_cons in Hi as [-> | Hi]; auto.
Qed.

Lemma map_eq_elem {A B} (f g : A -> B) : forall l,
  map f l = map g l -> forall x, x ∈ l -> f x = g x.
Proof.
  induction l as [|y l IH]; intros H x Hx; [inversion Hx|].
  cbn [map] in H. injection H as Hy Hl.
  apply elem_of_cons in Hx as [-> | Hx]; auto.
Qed.

Lemma board_ext b1 b2 :
  shape b1 = true -> shape b2 = true ->
  (forall i j, i < NUM_COLUMNS -> j < COLUMN_HEIGHT ->
               cell b1 i j = cell b2 i j) ->
  b1 = b2.
Proof.
  intros Hs1 Hs2 Hcells. apply list_eq. intros i.
  destruct (Nat.lt_ge_cases i NUM_COLUMNS) as [Hi | Hi].
  - destruct (shape_lookup b1 i Hs1 Hi) as (c1 & Hc1 & Hl1).
    destruct (shape_lookup b2 i Hs2 Hi) as (c2 & Hc2 & Hl2).
    rewrite Hc1, Hc2. f_equal. apply list_eq. intros j.
    destruct (Nat.lt_ge_cases j COLUMN_HEIGHT) as [Hj | Hj].
    + specialize (Hcells i j Hi Hj). unfold cell in Hcells.
      rewrite Hc1, Hc2 in Hcells.
      destruct (lookup_lt_is_Some_2 c1 j ltac:(lia)) as [v1 Hv1].
      destruct (lookup_lt_is_Some_2 c2 j ltac:(lia)) as [v2 Hv2].
      rewrite Hv1, Hv2 in Hcells |- *. simpl in Hcells. congruence.
    + rewrite !lookup_ge_None_2 by lia. reflexivity.
  - rewrite !lookup_ge_None_2; [reflexivity | |].
    + rewrite (shape_length b2 Hs2). exact Hi.
    + rewrite (shape_length b1 Hs1). exact Hi.
Qed.

(** X22. [display] loses nothing: two boards whose cells are all 0, +1 or -1 and
    that print alike are the same board. *)
Theorem display_injective (b1 b2 : Board) :
  shape b1 = true -> shape b2 = true ->
  cells_ok b1 = true -> cells_ok b2 = true ->
  display b1 = display b2 -> b1 = b2.
Proof.
  intros Hs1 Hs2 Hc1 Hc2 Hd. apply board_ext; auto. intros i j Hi Hj.
  unfold display in Hd.
  assert (j ∈ rev (seq 0 COLUMN_HEIGHT)) as Hjin.
  { apply list_elem_of_In. rewrite <- in_rev. apply in_seq. lia. }
  pose proof (map_eq_elem _ _ _ Hd j Hjin) as Hline. cbv beta in Hline.
  apply (display_line_cancel b1 b2 j (seq 0 NUM_COLUMNS) Hc1 Hc2 Hline).
  apply elem_of_seq. lia.
Qed.

Lemma display_injective_witness :
  <[1 := [1; 0; 0; 0; 0; 0]%Z]> open_three_board
  = [[0; 0; 0; 0; 0; 0]; [1; 0; 0; 0; 0; 0]; [1; -1; 0; 0; 0; 0];
     [1; -1; 0; 0; 0; 0]; [1; -1; 0; 0; 0; 0]; [0; 0; 0; 0; 0; 0];
     [0; 0; 0; 0; 0; 0]]%Z.
Proof.
  apply (display_injective (<[1 := [1; 0; 0; 0; 0; 0]%Z]> open_three_board)
           [[0; 0; 0; 0; 0; 0]; [1; 0; 0; 0; 0; 0]; [1; -1; 0; 0; 0; 0];
            [1; -1; 0; 0; 0; 0]; [1; -1; 0; 0; 0; 0]; [0; 0; 0; 0; 0; 0];
            [0; 0; 0; 0; 0; 0]]%Z);
    reflexivity.
Defined.

(** ** Mirror symmetry of the win detection *)

Lemma shape_reverse b : shape b = true -> shape (reverse b) = true.
Proof.
  intros Hs. unfold shape in *. apply andb_prop in Hs as [H1 H2].
  rewrite length_reverse, H1. simpl. rewrite forallb_forall in *.
  intros col Hc. apply H2. apply list_elem_of_In.
  apply list_elem_of_In in Hc. rewrite elem_of_reverse in Hc. exact Hc.
Qed.

Lemma cell_reverse b c r :
  shape b = true -> c < NUM_COLUMNS ->
  cell (reverse b) c r = cell b (NUM_COLUMNS - 1 - c) r.
Proof.
  intros Hs Hc. unfold cell. rewrite reverse_lookup, (shape_length b Hs).
  - replace (NUM_COLUMNS - S c) with (NUM_COLUMNS - 1 - c) by lia. reflexivity.
  - rewrite (shape_length b Hs). exact Hc.
Qed.

Lemma mirror_line b p :
  shape b = true ->
  (exists c r, line_of_four b p c r) ->
  exists c r, line_of_four (reverse b) p c r.
Proof.
  intros Hs (c & r & H). unfold line_of_four in *.
  unfold NUM_COLUMNS, COLUMN_HEIGHT, FOUR in *.
  assert (forall x y, x < 7 -> cell (reverse b) x y = cell b (6 - x) y) as Hrev.
  { intros x y Hx. apply (cell_reverse b x y Hs Hx). }
  destruct H as [(H1 & H2 & H) | [(H1 & H2 & H) | [(H1 & H2 & H)
                                                  | (H1 & H2 & H)]]].
  - exists (6 - c), r. left. split; [lia|]. split; [lia|]. intros i Hi.
    rewrite Hrev by lia. replace (6 - (6 - c)) with c by lia. auto.
  - exists (3 - c), r. right. left. split; [lia|]. split; [lia|]. intros i Hi.
    rewrite Hrev by lia. replace (6 - (3 - c + i)) with (c + (3 - i)) by lia.
    apply H. lia.
  - exists (3 - c), r. do 3 right. split; [lia|]. split; [lia|]. intros i Hi.
    rewrite Hrev by lia. replace (6 - (3 - c + i)) with (c + (3 - i)) by lia.
    replace (r + 4 - 1 - i) with (r + (3 - i)) by lia. apply H. lia.
  - exists (3 - c), r. right. right. left. split; [lia|]. split; [lia|].
    intros i Hi. rewrite Hrev by lia.
    replace (6 - (3 - c + i)) with (c + (3 - i)) by lia.
    replace (r + i) with (r + 4 - 1 - (3 - i)) by lia. apply H. lia.
Qed.

(** X8. Win detection does not tell left from right: a board and its mirror
    image (the columns in reverse order) have the same answer of
    [four_in_a_row], for every player. *)
Theorem four_in_a_row_mirror (b : Board) (player : Z) :
  shape b = true ->
  four_in_a_row (reverse b) player = four_in_a_row b player.
Proof.
  intros Hs. pose proof (shape_reverse b Hs) as Hs'.
  destruct (four_in_a_row (reverse b) player) eqn:E1;
    destruct (four_in_a_row b player) eqn:E2; try reflexivity.
  - apply four_in_a_row_lines, (mirror_line _ _ Hs') in E1.
    rewrite reverse_involutive in E1. apply four_in_a_row_lines in E1.
    congruence.
  - apply four_in_a_row_lines, (mirror_line _ _ Hs) in E2.
    apply four_in_a_row_lines in E2. congruence.
Qed.

Lemma four_in_a_row_mirror_witness :
  four_in_a_row (reverse full_win_board) (-1) = four_in_a_row full_win_board (-1).
Proof. apply (four_in_a_row_mirror full_win_board (-1)). reflexivity. Defined.
